(** * Movie catalogue: identity resolution and coherence engine

    A shallow embedding of the normalisation, catalogue, propagation,
    enrichment-merge and validation code of the repository, with the
    properties its specification states about them.

    Text is modelled as lists of 8-bit characters, read as the code points
    U+0000 to U+00FF (Latin-1, which holds the Spanish alphabet).  The
    character classes, upper and lower case and the order of strings follow
    Python on this range.  Upper case leaves the range for two letters,
    U+00FF (to U+0178) and U+00B5 (to U+039C), which [upper] keeps as they
    are; the statements that depend on upper-casing are about names without
    them and without U+00DF, whose upper case is two characters
    ([in_range]). *)

From Stdlib Require Import Ascii String ZArith Lia Bool.
From stdpp Require Import base option list gmap strings sorting.

Open Scope list_scope.

(** ** Characters and strings *)

Abbreviation str := (list ascii).

(** A string literal as a list of characters. *)
Definition Str (s : string) : str := list_ascii_of_string s.

Definition code (c : ascii) : nat := nat_of_ascii c.

(** [str.isspace] and the regular-expression class [\s]: TAB, LF, VT, FF,
    CR, the separators 28..31, the blank, NEL (U+0085) and the no-break
    space (U+00A0). *)
Definition is_space (c : ascii) : bool :=
  ((9 <=? code c) && (code c <=? 13)) ||
  ((28 <=? code c) && (code c <=? 32)) ||
  (code c =? 133) || (code c =? 160).

(** The class [\d]: the decimal digits. *)
Definition is_digit (c : ascii) : bool :=
  (48 <=? code c) && (code c <=? 57).

Definition is_upper_letter (c : ascii) : bool :=
  (65 <=? code c) && (code c <=? 90).

Definition is_lower_letter (c : ascii) : bool :=
  (97 <=? code c) && (code c <=? 122).

(** The letters above U+007F: the ordinal indicators, the micro sign and
    U+00C0..U+00FF without the signs of multiplication and division. *)
Definition is_high_letter (c : ascii) : bool :=
  (code c =? 170) || (code c =? 181) || (code c =? 186) ||
  ((192 <=? code c) && (code c <=? 214)) ||
  ((216 <=? code c) && (code c <=? 246)) ||
  (248 <=? code c).

(** The numeric characters above U+007F: the superscripts one, two and
    three, and the three fractions. *)
Definition is_high_numeric (c : ascii) : bool :=
  (code c =? 178) || (code c =? 179) || (code c =? 185) ||
  ((188 <=? code c) && (code c <=? 190)).

(** The class [\w]: alphanumeric characters and the underscore. *)
Definition is_word (c : ascii) : bool :=
  is_digit c || is_upper_letter c || is_lower_letter c || (code c =? 95) ||
  is_high_letter c || is_high_numeric c.

(** The class [[^\w\s]]. *)
Definition is_punct (c : ascii) : bool := negb (is_word c) && negb (is_space c).

(** The class [.] (without DOTALL): anything but a line feed. *)
Definition is_dot (c : ascii) : bool := negb (code c =? 10).

(** The upper case of one character where it is one character of the
    range: a..z, and U+00E0..U+00FE without the sign of division. *)
Definition upper_char (c : ascii) : ascii :=
  if is_lower_letter c ||
     ((224 <=? code c) && (code c <=? 246)) ||
     ((248 <=? code c) && (code c <=? 254))
  then ascii_of_nat (code c - 32) else c.

(** The characters whose upper case is one character of the range: all
    but U+00DF, U+00FF and U+00B5. *)
Definition in_range_char (c : ascii) : bool :=
  negb ((code c =? 223) || (code c =? 255) || (code c =? 181)).

Definition in_range (s : str) : Prop := Forall (fun c => in_range_char c = true) s.

(** [str.upper] on one character: U+00DF gives "SS". *)
Definition upper_full (c : ascii) : str :=
  if code c =? 223 then ["S"%char; "S"%char] else [upper_char c].

(** [str.upper]. *)
Definition upper (s : str) : str := flat_map upper_full s.

(** A literal character of a pattern compiled with [re.IGNORECASE]. *)
Definition ieq (l c : ascii) : bool := Ascii.eqb (upper_char c) (upper_char l).

(** A literal character of a case-sensitive pattern. *)
Definition ceq (l c : ascii) : bool := Ascii.eqb c l.

(** [str.lstrip], [str.rstrip] and [str.strip] with no argument. *)
Fixpoint lstrip (s : str) : str :=
  match s with
  | [] => []
  | c :: s' => if is_space c then lstrip s' else s
  end.

Fixpoint rstrip (s : str) : str :=
  match s with
  | [] => []
  | c :: s' =>
      match rstrip s' with
      | [] => if is_space c then [] else [c]
      | r => c :: r
      end
  end.

Definition strip (s : str) : str := rstrip (lstrip s).

(** Python's ordering of strings: lexicographic on code points. *)
Fixpoint str_leb (a b : str) : bool :=
  match a, b with
  | [], _ => true
  | _ :: _, [] => false
  | x :: a', y :: b' =>
      if code x <? code y then true
      else if code x =? code y then str_leb a' b'
      else false
  end.

Definition str_le (a b : str) : Prop := str_leb a b = true.

#[global] Instance str_le_dec : RelDecision str_le.
Proof. intros a b. unfold str_le. apply _. Defined.

(** ** Regular expressions

    The patterns of the program are sequences of the items below.  A match
    is searched the way Python's backtracking matcher does: items from left
    to right, a repetition taking as many characters as it can and giving
    them back one at a time, the alternatives of a group in the order they
    are written.  [re_match p s] is the length of the first match of [p] at
    the start of [s]. *)

Inductive atom : Type :=
| Chr (P : ascii -> bool)          (* one character of a class or a literal *)
| Plus (P : ascii -> bool)         (* [P+], greedy *)
| Star (P : ascii -> bool)         (* [P*], greedy *)
| Alt (ws : list str)              (* [(w1|w2|...)], literal alternatives *)
| Eos.                             (* [$]: the end, or before a final line feed *)

Abbreviation regex := (list atom).

Fixpoint span_len (P : ascii -> bool) (s : str) : nat :=
  match s with
  | c :: s' => if P c then S (span_len P s') else 0
  | [] => 0
  end.

(** The repetition has taken [lo + d] characters it may take; the rest of
    the pattern [k] is tried after [lo + d], [lo + d - 1], ..., [lo] of them. *)
Fixpoint backtrack (k : str -> option nat) (s : str) (lo d : nat) : option nat :=
  match k (drop (lo + d) s) with
  | Some m => Some (lo + d + m)
  | None =>
      match d with
      | 0 => None
      | S d' => backtrack k s lo d'
      end
  end.

Fixpoint is_prefix (w s : str) : bool :=
  match w, s with
  | [], _ => true
  | x :: w', c :: s' => Ascii.eqb x c && is_prefix w' s'
  | _ :: _, [] => false
  end.

Fixpoint first_alt (k : str -> option nat) (s : str) (ws : list str) : option nat :=
  match ws with
  | [] => None
  | w :: ws' =>
      match (if is_prefix w s then k (drop (length w) s) else None) with
      | Some m => Some (length w + m)
      | None => first_alt k s ws'
      end
  end.

Definition at_end (s : str) : bool :=
  match s with
  | [] => true
  | [c] => code c =? 10
  | _ => false
  end.

Fixpoint re_match (p : regex) : str -> option nat :=
  match p with
  | [] => fun _ => Some 0
  | a :: p' =>
      let k := re_match p' in
      fun s =>
        match a with
        | Chr P =>
            match s with
            | c :: s' => if P c then S <$> k s' else None
            | [] => None
            end
        | Plus P =>
            match span_len P s with
            | 0 => None
            | S d => backtrack k s 1 d
            end
        | Star P => backtrack k s 0 (span_len P s)
        | Alt ws => first_alt k s ws
        | Eos => if at_end s then k s else None
        end
  end.

(** [re.sub(p, repl, s)]: the string is scanned from the left; at a position
    where [p] matches, the match is replaced and the scan goes on after it.
    Every pattern of the program takes at least one character, so a match
    of length 0 does not arise; [skip] counts the characters of the current
    match still to be dropped. *)
Fixpoint re_sub_go (p : regex) (repl : str) (skip : nat) (s : str) : str :=
  match s with
  | [] => []
  | c :: s' =>
      match skip with
      | S n => re_sub_go p repl n s'
      | 0 =>
          match re_match p s with
          | Some (S n) => repl ++ re_sub_go p repl n s'
          | _ => c :: re_sub_go p repl 0 s'
          end
      end
  end.

Definition re_sub (p : regex) (repl : str) (s : str) : str := re_sub_go p repl 0 s.

(** [re.sub('^' + p, repl, s)]: a pattern anchored with [^] (no MULTILINE)
    can match at position 0 only. *)
Definition re_sub_start (p : regex) (repl : str) (s : str) : str :=
  match re_match p s with
  | Some n => repl ++ drop n s
  | None => s
  end.

(** [re.search(p, s) is not None]. *)
Fixpoint re_found (p : regex) (s : str) : bool :=
  match re_match p s with
  | Some _ => true
  | None =>
      match s with
      | [] => false
      | _ :: s' => re_found p s'
      end
  end.

(** A literal word, with and without [re.IGNORECASE]. *)
Definition lit_i (w : string) : regex := map (fun l => Chr (ieq l)) (Str w).
Definition lit (w : string) : regex := map (fun l => Chr (ceq l)) (Str w).

(** ** estandarizer.py: [MovieStandardizer] *)

(** [r'\s+ESP$'] and its siblings, applied with [re.IGNORECASE]. *)
Definition lang_pattern (w : string) : regex :=
  Plus is_space :: lit_i w ++ [Eos].

(** [r'\s+4DX.*$'] and its siblings, applied with [re.IGNORECASE]. *)
Definition format_pattern (w : string) : regex :=
  Plus is_space :: lit_i w ++ [Star is_dot; Eos].

Definition LANGUAGE_PATTERNS : list regex :=
  [ lang_pattern "ESP"; lang_pattern "SUB"; lang_pattern "DUB";
    lang_pattern "DOB"; lang_pattern "SP";
    lang_pattern "Esp"; lang_pattern "Sub"; lang_pattern "Dub";
    lang_pattern "Dob"; lang_pattern "Sp" ].

Definition FORMAT_PATTERNS : list regex :=
  [ format_pattern "4DX"; format_pattern "IMAX"; format_pattern "SCREENX";
    format_pattern "XE"; format_pattern "3D"; format_pattern "2D";
    format_pattern "4D" ].

Definition ALL_PATTERNS : list regex := LANGUAGE_PATTERNS ++ FORMAT_PATTERNS.

(** [for pattern in ps: t = re.sub(pattern, '', t, flags=re.IGNORECASE)]. *)
Definition remove_patterns (ps : list regex) (t : str) : str :=
  fold_left (fun t p => re_sub p [] t) ps t.

(** [r'\s+'], replaced by one blank. *)
Definition collapse_spaces (s : str) : str := re_sub [Plus is_space] (Str " ") s.

(** [normalize_title_level1]. *)
Definition normalize_title_level1 (movie_name : str) : str :=
  if decide (movie_name = []) then []
  else collapse_spaces (strip (upper movie_name)).

(** [normalize_title_level2]. *)
Definition normalize_title_level2 (titulo_limpio : str) : str :=
  if decide (titulo_limpio = []) then []
  else
    let clean_title := remove_patterns LANGUAGE_PATTERNS titulo_limpio in
    let clean_title := remove_patterns FORMAT_PATTERNS clean_title in
    let clean_title := strip clean_title in
    collapse_spaces clean_title.

Definition ARTICLES : list str :=
  [Str "THE"; Str "LA"; Str "EL"; Str "LOS"; Str "LAS"; Str "UN"; Str "UNA"].

(** [r'^(THE|LA|EL|LOS|LAS|UN|UNA)\s+'] without its anchor. *)
Definition article_pattern : regex := [Alt ARTICLES; Plus is_space].

(** [generate_unique_name]. *)
Definition generate_unique_name (clean_title : str) : str :=
  if decide (clean_title = []) then []
  else
    let unique_name := upper clean_title in
    let unique_name := remove_patterns ALL_PATTERNS unique_name in
    let unique_name := re_sub [Chr is_punct] (Str " ") unique_name in
    let unique_name := collapse_spaces unique_name in
    let unique_name := re_sub_start article_pattern [] unique_name in
    strip unique_name.

Definition is_roman (c : ascii) : bool :=
  Ascii.eqb c "I"%char || Ascii.eqb c "V"%char || Ascii.eqb c "X"%char.

(** The four patterns of [detect_family], in the order they are applied:
    [r'\s+\d+\s*$'], [r'\s+[IVX]+\s*$'], [r':\s+.*$'], [r'\s+-\s+.*$']. *)
Definition FAMILY_PATTERNS : list regex :=
  [ [Plus is_space; Plus is_digit; Star is_space; Eos];
    [Plus is_space; Plus is_roman; Star is_space; Eos];
    [Chr (ceq ":"%char); Plus is_space; Star is_dot; Eos];
    [Plus is_space; Chr (ceq "-"%char); Plus is_space; Star is_dot; Eos] ].

(** [detect_family]. *)
Definition detect_family (titulo_limpio_clean : str) : str :=
  if decide (titulo_limpio_clean = []) then titulo_limpio_clean
  else strip (remove_patterns FAMILY_PATTERNS titulo_limpio_clean).

(** The canonical key of a name: level 2, then the unique name. *)
Definition canonical_key (name : str) : str :=
  generate_unique_name (normalize_title_level2 name).

(** [normalize_duration]: [re.findall(r'\d+', s)[0]], then [" minutos"]. *)
Fixpoint first_number (s : str) : str :=
  match s with
  | [] => []
  | c :: s' => if is_digit c then take (span_len is_digit s) s else first_number s'
  end.

Definition normalize_duration (duration_str : str) : str :=
  match first_number duration_str with
  | [] => []
  | minutes => minutes ++ Str " minutos"
  end.

(** ** Tables

    A DataFrame is the list of its rows.  A text column holds a string or
    NaN ([None]); MOVIE_ID holds an integer or NaN. *)

Inductive column : Type :=
| MOVIE_NAME | TITULO_LIMPIO | FORMATO | IDIOMA | CATEGORIA | DESCRIPCION
| FAMILIA | NOMBRE_ORIGINAL | DESCRIPCION2 | ACTOR_PRINCIPAL | DIRECTOR
| DURACION | CATEGORIA_CINEPOLIS | NOMBRE_ORIGINAL_CLEAN
| TITULO_LIMPIO_CLEAN | NOMBRE_UNICO.

#[global] Instance column_eq_dec : EqDecision column.
Proof. solve_decision. Defined.

Record row : Type := Row { MOVIE_ID : option Z; txt : column -> option str }.

Definition key (r : row) : option str := txt r NOMBRE_UNICO.

(** [df.loc[i, f] = v] on one row. *)
Definition set_txt (f : column) (v : option str) (r : row) : row :=
  {| MOVIE_ID := MOVIE_ID r;
     txt := fun c => if decide (c = f) then v else txt r c |}.

Definition set_id (v : option Z) (r : row) : row :=
  {| MOVIE_ID := v; txt := txt r |}.

(** [df.loc[mask, f] = v]. *)
Definition assign (mask : row -> bool) (f : column) (v : option str)
    (df : list row) : list row :=
  map (fun r => if mask r then set_txt f v r else r) df.

(** [x.isna() | (x == '')]. *)
Definition is_empty (v : option str) : bool :=
  match v with
  | None => true
  | Some [] => true
  | Some (_ :: _) => false
  end.

(** [==] of a cell and a string, and of two cells: NaN equals nothing. *)
Definition eq_str (v : option str) (k : str) : bool :=
  match v with
  | Some s => bool_decide (s = k)
  | None => false
  end.

Definition eq_cell (a b : option str) : bool :=
  match b with
  | Some k => eq_str a k
  | None => false
  end.

(** [Series.dropna()]. *)
Definition dropna {A} (vs : list (option A)) : list A := omap id vs.

(** [Series.unique()]: the distinct values in order of first occurrence. *)
Fixpoint unique {A} `{EqDecision A} (l : list A) : list A :=
  match l with
  | [] => []
  | x :: l' => x :: filter (fun y => y <> x) (unique l')
  end.

Definition count {A} `{EqDecision A} (v : A) (l : list A) : nat :=
  length (filter (fun y => y = v) l).

Definition max_count {A} `{EqDecision A} (l : list A) : nat :=
  max_list (map (fun v => count v l) l).

(** The most frequent values, in order of first occurrence. *)
Definition most_frequent {A} `{EqDecision A} (l : list A) : list A :=
  filter (fun v => count v l = max_count l) (unique l).

(** [sorted(l)] on strings. *)
Definition sorted (l : list str) : list str := merge_sort str_le l.

(** [Series.mode()]: the most frequent values, sorted. *)
Definition mode (l : list str) : list str := sorted (most_frequent l).

(** [Series.value_counts().index[0]]: [value_counts] orders the distinct
    values by decreasing count, equally frequent ones in order of first
    occurrence. *)
Definition value_counts_index0 (l : list str) : option str := head (most_frequent l).

(** The values of a column that are neither NaN nor the empty string. *)
Definition non_empty_values (group : list row) (f : column) : list str :=
  filter (fun s => s <> []) (dropna (map (fun r => txt r f) group)).

(** ** movie_enricher.py: [MovieEnricher.propagate_data_within_groups] *)

Definition fields_to_propagate : list column :=
  [CATEGORIA; DESCRIPCION; FAMILIA; ACTOR_PRINCIPAL; DIRECTOR; DURACION;
   CATEGORIA_CINEPOLIS; DESCRIPCION2].

(** The keys of [df.groupby('NOMBRE_UNICO')]: sorted, NaN left out. *)
Definition group_keys (df : list row) : list str :=
  sorted (unique (dropna (map key df))).

Definition group_of (df : list row) (k : str) : list row :=
  filter (fun r => eq_str (key r) k) df.

(** One field of one group.  [group] is the frame the [groupby] iterator
    yields, taken from the table as it was when the loop started. *)
Definition propagate_field (nombre_unico : str) (group : list row)
    (df : list row) (field : column) : list row :=
  match non_empty_values group field with
  | [] => df
  | (v0 :: _) as non_empty =>
      let most_common :=
        match mode non_empty with m :: _ => m | [] => v0 end in
      assign (fun r => eq_str (key r) nombre_unico && is_empty (txt r field))
             field (Some most_common) df
  end.

Definition propagate_group (df0 : list row) (df : list row) (nombre_unico : str)
    : list row :=
  let group := group_of df0 nombre_unico in
  if 1 <? length group
  then fold_left (propagate_field nombre_unico group) fields_to_propagate df
  else df.

Definition propagate_data_within_groups (df : list row) : list row :=
  fold_left (propagate_group df) (group_keys df) df.

(** ** movies_master_processor.py: [MoviesMasterProcessor] *)

Definition coherent_fields : list column :=
  [CATEGORIA; CATEGORIA_CINEPOLIS; DIRECTOR; ACTOR_PRINCIPAL; DESCRIPCION;
   DURACION; FAMILIA].

Definition coherence_field (nombre_unico : option str) (df : list row)
    (field : column) : list row :=
  let mask r := eq_cell (key r) nombre_unico in
  match dropna (map (fun r => txt r field) (filter mask df)) with
  | [] => df
  | (v0 :: _) as values =>
      let most_common := match mode values with m :: _ => m | [] => v0 end in
      assign mask field (Some most_common) df
  end.

(** [df['CATEGORIA_CINEPOLIS'] = df['CATEGORIA']]. *)
Definition mirror_categoria (df : list row) : list row :=
  map (fun r => set_txt CATEGORIA_CINEPOLIS (txt r CATEGORIA) r) df.

Definition ensure_vertical_coherence (df : list row) : list row :=
  let df' :=
    fold_left (fun d nombre_unico =>
                 fold_left (coherence_field nombre_unico) coherent_fields d)
              (unique (map key df)) df in
  mirror_categoria df'.

(** ** GOAT_enrichment.py: [GOATMovieEnricher], the replication steps *)

Definition replication_fields : list column :=
  [CATEGORIA; DESCRIPCION; ACTOR_PRINCIPAL; DIRECTOR; DURACION; FAMILIA;
   DESCRIPCION2; CATEGORIA_CINEPOLIS].

Definition replicate_field (nombre_unico : str) (group : list row)
    (df : list row) (field : column) : list row :=
  match non_empty_values group field with
  | [] => df
  | (v0 :: _) as non_empty =>
      let best_value :=
        if 1 <? length non_empty
        then default v0 (value_counts_index0 non_empty)
        else v0 in
      assign (fun r => eq_str (key r) nombre_unico) field (Some best_value) df
  end.

Definition replicate_group (df : list row) (nombre_unico : option str) : list row :=
  match nombre_unico with
  | None => df
  | Some [] => df
  | Some k => fold_left (replicate_field k (group_of df k)) replication_fields df
  end.

Definition vertical_replication (df : list row) : list row :=
  fold_left replicate_group (unique (map key df)) df.

Definition replication_rules : list (column * column) :=
  [(CATEGORIA, CATEGORIA_CINEPOLIS); (DESCRIPCION, DESCRIPCION2);
   (TITULO_LIMPIO, NOMBRE_ORIGINAL); (TITULO_LIMPIO_CLEAN, NOMBRE_ORIGINAL_CLEAN)].

(** [df.loc[empty, target] = df.loc[empty, source]]. *)
Definition apply_rule (df : list row) (rule : column * column) : list row :=
  map (fun r => if is_empty (txt r rule.2)
                then set_txt rule.2 (txt r rule.1) r else r) df.

(** [x.split()[0]]: the first blank-separated word; an IndexError ([None])
    when there is none. *)
Fixpoint word_prefix (s : str) : str :=
  match s with
  | [] => []
  | c :: s' => if is_space c then [] else c :: word_prefix s'
  end.

Definition first_word (x : str) : option str :=
  match lstrip x with
  | [] => None
  | t => Some (word_prefix t)
  end.

Definition fill_familia (r : row) : option row :=
  if is_empty (txt r FAMILIA) then
    v ← match txt r TITULO_LIMPIO with
         | None => Some []
         | Some [] => Some []
         | Some x => first_word x
         end;
    Some (set_txt FAMILIA (Some v) r)
  else Some r.

Definition horizontal_replication (df : list row) : option (list row) :=
  mapM fill_familia (fold_left apply_rule replication_rules df).

(** [name_to_id = {name: idx + 1 for idx, name in enumerate(names)}]. *)
Definition enumerate_from_1 {K} `{Countable K} (names : list K) : gmap K Z :=
  foldl (fun m p => <[p.2 := (Z.of_nat p.1 + 1)%Z]> m) ∅ (imap pair names).

(** [reassign_movie_ids]. *)
Fixpoint fill_missing_ids (next : Z) (df : list row) : list row :=
  match df with
  | [] => []
  | r :: df' =>
      match MOVIE_ID r with
      | None => set_id (Some next) r :: fill_missing_ids (next + 1) df'
      | Some _ => r :: fill_missing_ids next df'
      end
  end.

Definition reassign_movie_ids (df : list row) : list row :=
  let unique_names := unique (dropna (map key df)) in
  let name_to_id := enumerate_from_1 unique_names in
  let df1 := map (fun r => set_id (k ← key r; name_to_id !! k) r) df in
  let max_id := (Z.of_nat (length unique_names) + 1)%Z in
  fill_missing_ids max_id df1.

(** ** [remap_movie_ids_perfect] and [remap_movie_ids_optimized]

    The two functions have the same body.  [sorted] raises a TypeError
    ([None]) when it has to compare NaN with a string. *)
Definition py_sorted (l : list (option str)) : option (list (option str)) :=
  match l with
  | [] => Some []
  | [x] => Some [x]
  | _ => names ← mapM id l; Some (Some <$> sorted names)
  end.

Definition remap_movie_ids (df : list row) : option (list row) :=
  unique_names ← py_sorted (unique (map key df));
  let name_to_id := enumerate_from_1 unique_names in
  Some (map (fun r => set_id (name_to_id !! key r) r) df).

Definition remap_movie_ids_perfect := remap_movie_ids.
Definition remap_movie_ids_optimized := remap_movie_ids.

(** ** estandarizer.py: attribute extraction and the two passes of
    [process_all_records] *)

(** [w in s]. *)
Definition contains (w : string) (s : str) : bool := re_found (lit w) s.

Definition FORMAT_MAPPING : list (str * str) :=
  [ (Str "ESP", Str "2D"); (Str "SUB", Str "2D"); (Str "DUB", Str "2D");
    (Str "DOB", Str "2D"); (Str "SP", Str "2D"); (Str "4DX", Str "4D");
    (Str "4DX 3D", Str "4D"); (Str "4DX/3D", Str "4D"); (Str "4DX/2D", Str "4D");
    (Str "4DX 3D DOB", Str "4D"); (Str "4DX 3D DUB", Str "4D");
    (Str "4DX 3D SUB", Str "4D"); (Str "SCREENX", Str "SCREENX");
    (Str "XE SCREENX", Str "SCREENX"); (Str "XE", Str "SCREENX");
    (Str "IMAX", Str "IMAX"); (Str "3D", Str "3D"); (Str "3D ESP", Str "3D");
    (Str "3D SUB", Str "3D"); (Str "3D DOB", Str "3D") ].

Definition dict_get (d : list (str * str)) (k : str) : option str :=
  snd <$> List.find (fun p => bool_decide (p.1 = k)) d.

(** [extract_format]. *)
Definition extract_format (movie_name movie_format : option str) : str :=
  match movie_name, movie_format with
  | None, None => Str "2D"
  | _, _ =>
      let from_field :=
        match movie_format with
        | Some ((_ :: _) as f) => dict_get FORMAT_MAPPING (strip (upper f))
        | _ => None
        end in
      match from_field with
      | Some v => v
      | None =>
          let name_upper := match movie_name with Some n => upper n | None => [] end in
          if contains "4DX" name_upper then Str "4D"
          else if contains "SCREENX" name_upper || contains "XE" name_upper
               then Str "SCREENX"
          else if contains "IMAX" name_upper then Str "IMAX"
          else if contains "3D" name_upper then Str "3D"
          else Str "2D"
      end
  end.

(** [r'\s+ESP\s*$'] and its siblings, case-sensitive on the upper-cased name. *)
Definition tail_word (ws : list str) : regex :=
  [Plus is_space; Alt ws; Star is_space; Eos].

(** [extract_language]. *)
Definition extract_language (movie_name movie_language : option str) : str :=
  let from_field :=
    match movie_language with
    | Some ((_ :: _) as l) =>
        let lang_upper := strip (upper l) in
        if bool_decide (lang_upper ∈ [Str "ESP"; Str "SUB"; Str "DUB"; Str "DOB"])
        then Some (if bool_decide (lang_upper = Str "DOB") then Str "DUB" else lang_upper)
        else None
    | _ => None
    end in
  match from_field with
  | Some v => v
  | None =>
      match movie_name with
      | Some n =>
          let name_upper := upper n in
          if re_found (tail_word [Str "ESP"]) name_upper then Str "ESP"
          else if re_found (tail_word [Str "SUB"]) name_upper then Str "SUB"
          else if re_found (tail_word [Str "DUB"; Str "DOB"]) name_upper then Str "DUB"
          else if re_found (tail_word [Str "SP"]) name_upper then Str "ESP"
          else Str "ESP"
      | None => Str "ESP"
      end
  end.

(** A record of the input file. *)
Record raw : Type := Raw {
  raw_MOVIE_NAME : option str;
  raw_MOVIE_FORMAT : option str;
  raw_MOVIE_LENGUAJE : option str;
  raw_MOVIE_DURATION : option str
}.

(** The functions above guard with [pd.isna(x) or x == ''']. *)
Definition on_cell (f : str -> str) (v : option str) : str :=
  match v with
  | None => []
  | Some s => f s
  end.

(** [process_batch] on one record; MOVIE_ID is attached by the caller. *)
Definition process_record (x : raw) : row :=
  let titulo_limpio := on_cell normalize_title_level1 (raw_MOVIE_NAME x) in
  let nombre_original_clean := normalize_title_level2 titulo_limpio in
  {| MOVIE_ID := None;
     txt := fun c =>
       match c with
       | MOVIE_NAME => raw_MOVIE_NAME x
       | TITULO_LIMPIO => Some titulo_limpio
       | FORMATO => Some (extract_format (raw_MOVIE_NAME x) (raw_MOVIE_FORMAT x))
       | IDIOMA => Some (extract_language (raw_MOVIE_NAME x) (raw_MOVIE_LENGUAJE x))
       | NOMBRE_ORIGINAL_CLEAN => Some nombre_original_clean
       | TITULO_LIMPIO_CLEAN => Some nombre_original_clean
       | NOMBRE_UNICO => Some (generate_unique_name nombre_original_clean)
       | FAMILIA => Some (detect_family nombre_original_clean)
       | DURACION => Some (on_cell normalize_duration (raw_MOVIE_DURATION x))
       | CATEGORIA => Some []
       | DESCRIPCION => Some []
       | NOMBRE_ORIGINAL => raw_MOVIE_NAME x
       | DESCRIPCION2 => Some []
       | ACTOR_PRINCIPAL => Some []
       | DIRECTOR => Some []
       | CATEGORIA_CINEPOLIS => Some []
       end |}.

Definition process_batch (df_batch : list raw) : list row :=
  map process_record df_batch.

(** [chunk[chunk['MOVIE_NAME'].notna()]]. *)
Definition named (chunk : list raw) : list raw :=
  filter (fun x => is_Some (raw_MOVIE_NAME x)) chunk.

(** An entry of [unique_catalog]. *)
Record entry : Type := Entry {
  e_MOVIE_ID : option Z;
  e_FAMILIA : option str;
  e_DURACION : option str
}.

(** [str(x)] of a cell: NaN prints as ["nan"]. *)
Definition py_str (v : option str) : str :=
  match v with
  | Some s => s
  | None => Str "nan"
  end.

(** Pass 1, the template: the catalog and the counter after one row. *)
Definition load_template_row (st : gmap str entry * Z) (r : row)
    : gmap str entry * Z :=
  let nombre_unico := upper (py_str (key r)) in
  if bool_decide (nombre_unico <> []) && bool_decide (st.1 !! nombre_unico = None)
  then (<[nombre_unico := {| e_MOVIE_ID := MOVIE_ID r;
                             e_FAMILIA := txt r FAMILIA;
                             e_DURACION := txt r DURACION |}]> st.1,
        match MOVIE_ID r with
        | Some i => Z.max st.2 (i + 1)
        | None => st.2
        end)
  else st.

(** Pass 1, the scan: a record with the columns the scan computes. *)
Record scanned : Type := Scanned {
  sc_NOMBRE_ORIGINAL_CLEAN : str;
  sc_NOMBRE_UNICO : str;
  sc_MOVIE_DURATION : option str
}.

Definition scan_record (x : raw) : scanned :=
  let titulo_limpio := on_cell upper (raw_MOVIE_NAME x) in
  let nombre_original_clean := normalize_title_level2 titulo_limpio in
  {| sc_NOMBRE_ORIGINAL_CLEAN := nombre_original_clean;
     sc_NOMBRE_UNICO := generate_unique_name nombre_original_clean;
     sc_MOVIE_DURATION := raw_MOVIE_DURATION x |}.

(** [drop_duplicates(subset=['NOMBRE_UNICO'])]: the first row of each name. *)
Fixpoint drop_duplicates (seen : list str) (l : list scanned) : list scanned :=
  match l with
  | [] => []
  | x :: l' =>
      if bool_decide (sc_NOMBRE_UNICO x ∈ seen) then drop_duplicates seen l'
      else x :: drop_duplicates (sc_NOMBRE_UNICO x :: seen) l'
  end.

Definition scan_row (st : gmap str entry * Z) (x : scanned)
    : gmap str entry * Z :=
  let nombre_unico := upper (sc_NOMBRE_UNICO x) in
  if bool_decide (nombre_unico <> []) && bool_decide (st.1 !! nombre_unico = None)
  then (<[nombre_unico :=
            {| e_MOVIE_ID := Some st.2;
               e_FAMILIA := Some (detect_family (sc_NOMBRE_ORIGINAL_CLEAN x));
               e_DURACION := Some (on_cell normalize_duration (sc_MOVIE_DURATION x)) |}]>
          st.1,
        (st.2 + 1)%Z)
  else st.

Definition scan_chunk (st : gmap str entry * Z) (chunk : list raw)
    : gmap str entry * Z :=
  foldl scan_row st (drop_duplicates [] (map scan_record (named chunk))).

(** Pass 1: [unique_catalog] and [movie_id_counter] after the template
    and every chunk of the input. *)
Definition build_catalog (template : list row) (chunks : list (list raw))
    : gmap str entry * Z :=
  foldl scan_chunk (foldl load_template_row (∅, 1%Z) template) chunks.

(** Pass 2 on one chunk:
    [unique_catalog.get(x, {}).get('MOVIE_ID', 0)] on the upper-cased name,
    and FAMILIA from the catalog when it has the name. *)
Definition assign_ids (unique_catalog : gmap str entry) (chunk : list raw)
    : list row :=
  map (fun r =>
         let nombre_unico_upper := on_cell upper (key r) in
         let r1 :=
           set_id (match unique_catalog !! nombre_unico_upper with
                   | Some e => e_MOVIE_ID e
                   | None => Some 0%Z
                   end) r in
         set_txt FAMILIA
                 (match unique_catalog !! nombre_unico_upper with
                  | Some e => e_FAMILIA e
                  | None => txt r FAMILIA
                  end) r1)
      (process_batch (named chunk)).

(** [process_all_records]: the rows written to the output file. *)
Definition process_all_records (template : list row) (chunks : list (list raw))
    : list row :=
  let unique_catalog := (build_catalog template chunks).1 in
  concat (map (assign_ids unique_catalog) chunks).

(** ** GOAT_enrichment.py: [comprehensive_search] *)

(** The record every source adapter returns. *)
Record info : Type := Info {
  categoria : str;
  descripcion : str;
  actor_principal : str;
  director : str;
  duracion : str
}.

(** The keys of an [info] dictionary, in the order they are written. *)
Inductive info_key : Type := K_categoria | K_descripcion | K_actor_principal
                           | K_director | K_duracion.

#[global] Instance info_key_eq_dec : EqDecision info_key.
Proof. solve_decision. Defined.

Definition info_keys : list info_key :=
  [K_categoria; K_descripcion; K_actor_principal; K_director; K_duracion].

Definition get (i : info) (k : info_key) : str :=
  match k with
  | K_categoria => categoria i
  | K_descripcion => descripcion i
  | K_actor_principal => actor_principal i
  | K_director => director i
  | K_duracion => duracion i
  end.

Definition put (k : info_key) (v : str) (i : info) : info :=
  match k with
  | K_categoria => Info v (descripcion i) (actor_principal i) (director i) (duracion i)
  | K_descripcion => Info (categoria i) v (actor_principal i) (director i) (duracion i)
  | K_actor_principal => Info (categoria i) (descripcion i) v (director i) (duracion i)
  | K_director => Info (categoria i) (descripcion i) (actor_principal i) v (duracion i)
  | K_duracion => Info (categoria i) (descripcion i) (actor_principal i) (director i) v
  end.

Definition no_info : info := Info [] [] [] [] [].

(** The truth value of a string. *)
Definition truthy (v : str) : bool :=
  match v with
  | [] => false
  | _ :: _ => true
  end.

(** [for key, value in info.items():
       if value and not combined_info[key]: combined_info[key] = value]. *)
Definition merge_info (combined_info i : info) : info :=
  foldl (fun c k => if truthy (get i k) && negb (truthy (get c k))
                    then put k (get i k) c else c)
        combined_info info_keys.

(** [all(combined_info.values())]. *)
Definition all_values (c : info) : bool :=
  forallb (fun k => truthy (get c k)) info_keys.

(** The loop over [search_funcs], with its early [break]. *)
Fixpoint search_all (search_funcs : list (str -> info)) (clean_name : str)
    (combined_info : info) : info :=
  match search_funcs with
  | [] => combined_info
  | func :: rest =>
      let combined_info := merge_info combined_info (func clean_name) in
      if all_values combined_info then combined_info
      else search_all rest clean_name combined_info
  end.

Definition FORMAT_WORDS : list str :=
  [Str "ESP"; Str "SUB"; Str "2D"; Str "3D"; Str "4DX"; Str "IMAX";
   Str "SCREENX"; Str "DIG"].

Fixpoint is_prefix_i (w s : str) : bool :=
  match w, s with
  | [], _ => true
  | x :: w', c :: s' => ieq x c && is_prefix_i w' s'
  | _ :: _, [] => false
  end.

(** One of the words of [r'\b(ESP|SUB|2D|3D|4DX|IMAX|SCREENX|DIG)\b'] at the
    start of [s], with the word boundary after it. *)
Definition format_word_at (s : str) : option nat :=
  length <$>
    List.find (fun w => is_prefix_i w s &&
                        match drop (length w) s with
                        | [] => true
                        | c :: _ => negb (is_word c)
                        end) FORMAT_WORDS.

(** [re.sub(r'\b(ESP|...|DIG)\b', ''', name, flags=re.I)]; [prev_word] tells
    whether the character before the position is a word character. *)
Fixpoint remove_format_words (prev_word : bool) (skip : nat) (s : str) : str :=
  match s with
  | [] => []
  | c :: s' =>
      match skip with
      | S n => remove_format_words (is_word c) n s'
      | 0 =>
          match (if prev_word then None else format_word_at s) with
          | Some (S n) => remove_format_words (is_word c) n s'
          | _ => c :: remove_format_words (is_word c) 0 s'
          end
      end
  end.

(** The class [[^\w\s\-:]]. *)
Definition is_odd_char (c : ascii) : bool :=
  is_punct c && negb (Ascii.eqb c "-"%char) && negb (Ascii.eqb c ":"%char).

(** [clean_movie_name]. *)
Definition clean_movie_name (name : str) : str :=
  let name := remove_format_words false 0 name in
  let name := re_sub [Chr is_odd_char] (Str " ") name in
  strip (collapse_spaces name).

Section Enrichment.

(** The hash of the cache key and the three source adapters are outside
    the code modelled here: [hashlib.md5(...).hexdigest()], and what the
    sites answer for a name during one run. *)
Variable md5_hexdigest : str -> str.
Variables search_cinepolis search_wikipedia search_imdb_via_google : str -> info.

Definition search_funcs : list (str -> info) :=
  [search_cinepolis; search_wikipedia; search_imdb_via_google].

(** [comprehensive_search]: the result ([None] for the empty dictionary)
    and the cache after the call. *)
Definition comprehensive_search (cache : gmap str info) (movie_name : str)
    : option info * gmap str info :=
  let cache_key := md5_hexdigest movie_name in
  match cache !! cache_key with
  | Some cached => (Some cached, cache)
  | None =>
      let clean_name := clean_movie_name movie_name in
      if negb (truthy clean_name) then (None, cache)
      else
        let combined_info := search_all search_funcs clean_name no_info in
        (Some combined_info, <[cache_key := combined_info]> cache)
  end.

End Enrichment.

(** ** validate_dataset.py and [validate_final_quality] *)

(** The name of a column of a file. *)
Inductive colname : Type := COL_MOVIE_ID | COL (c : column).

#[global] Instance colname_eq_dec : EqDecision colname.
Proof. solve_decision. Defined.

(** A table read from a file: its columns and its rows. *)
Record table : Type := Table { columns : list colname; rows : list row }.

Definition cell_of (r : row) (c : colname) : option (Z + str) :=
  match c with
  | COL_MOVIE_ID => inl <$> MOVIE_ID r
  | COL c => inr <$> txt r c
  end.

(** [df.duplicated().sum() == 0]: no row repeats an earlier one. *)
Fixpoint no_duplicated (cols : list colname) (df : list row) : bool :=
  match df with
  | [] => true
  | r :: df' =>
      forallb (fun r' => negb (bool_decide (map (cell_of r) cols = map (cell_of r') cols))) df'
      && no_duplicated cols df'
  end.

(** [df['NOMBRE_UNICO'].nunique()]. *)
Definition nunique_names (df : list row) : nat :=
  length (unique (dropna (map key df))).

(** [df.groupby('NOMBRE_UNICO')['MOVIE_ID'].nunique().max() == 1]; the
    maximum of no group at all is NaN. *)
Definition mapping_1_1 (df : list row) : bool :=
  match unique (dropna (map key df)) with
  | [] => false
  | names =>
      max_list (map (fun k => length (unique (dropna (map MOVIE_ID (group_of df k)))))
                    names) =? 1
  end.

(** [(df['CATEGORIA'] == df['CATEGORIA_CINEPOLIS']).all()]. *)
Definition category_coherence (df : list row) : bool :=
  forallb (fun r => eq_cell (txt r CATEGORIA) (txt r CATEGORIA_CINEPOLIS)) df.

(** [len(x.split())]. *)
Fixpoint count_words (in_word : bool) (s : str) : nat :=
  match s with
  | [] => 0
  | c :: s' =>
      if is_space c then count_words false s'
      else (if in_word then 0 else 1) + count_words true s'
  end.

(** [all(len(str(cat).split()) == 1 for cat in df['CATEGORIA'].unique())]. *)
Definition single_word_categories (df : list row) : bool :=
  forallb (fun cat => count_words false (py_str cat) =? 1)
          (unique (map (fun r => txt r CATEGORIA) df)).

(** [s.endswith(w)]. *)
Definition endswith (s : str) (w : string) : bool :=
  is_prefix (reverse (Str w)) (reverse s).

(** The rows counted in [idioma_errors]. *)
Definition idioma_error (r : row) : bool :=
  let movie_name := upper (py_str (txt r MOVIE_NAME)) in
  let idioma := py_str (txt r IDIOMA) in
  if endswith movie_name " ESP" then negb (bool_decide (idioma = Str "ESP"))
  else if endswith movie_name " SUB" then negb (bool_decide (idioma = Str "SUB"))
  else if endswith movie_name " DOB" || endswith movie_name " DUB"
       then negb (bool_decide (idioma = Str "DOB"))
  else false.

Definition has_column (t : table) (c : colname) : bool :=
  bool_decide (c ∈ columns t).

(** The columns [validate_dataset] reads. *)
Definition read_columns : list colname :=
  [COL NOMBRE_UNICO; COL_MOVIE_ID; COL CATEGORIA; COL CATEGORIA_CINEPOLIS;
   COL MOVIE_NAME; COL IDIOMA].

Section Validation.

(** [(df.notna().sum().sum() / (len(df) * len(df.columns))) * 100 > 95] is
    computed in floating point; it is left as a parameter. *)
Variable high_completeness : table -> bool.

(** The list [validations] of [validate_dataset]. *)
Definition validations (t : table) : list bool :=
  let df := rows t in
  [ (length df =? 2372) && (length (columns t) =? 16);
    nunique_names df =? 885;
    mapping_1_1 df;
    no_duplicated (columns t) df;
    category_coherence df;
    single_word_categories df;
    high_completeness t;
    forallb (fun r => negb (idioma_error r)) df ].

(** [validate_dataset] on a file that could be read; a KeyError ([None])
    when a column the checks read is not there.  [score == 100] holds
    exactly when every validation passed. *)
Definition validate_dataset (t : table) : option bool :=
  if forallb (has_column t) read_columns
  then
    let passed := length (filter (fun b => b = true) (validations t)) in
    Some (passed =? length (validations t))
  else None.

End Validation.

(** [not df['NOMBRE_UNICO'].str.contains(r'[^\w\s]', na=False).any()]. *)
Definition clean_fields (df : list row) : bool :=
  negb (existsb (fun r => match key r with
                          | Some s => re_found [Chr is_punct] s
                          | None => false
                          end) df).

(** [all(len(str(cat).split()) == 1 for cat in ... if pd.notna(cat))]. *)
Definition single_word_categories_notna (df : list row) : bool :=
  forallb (fun cat => count_words false cat =? 1)
          (unique (dropna (map (fun r => txt r CATEGORIA) df))).

(** The list [checks] of [validate_final_quality]. *)
Definition checks (t : table) : list bool :=
  let df := rows t in
  [ (length df =? 2372) && (length (columns t) =? 16);
    mapping_1_1 df;
    no_duplicated (columns t) df;
    category_coherence df;
    single_word_categories_notna df;
    clean_fields df ].

(** [validate_final_quality]: [is_perfect]. *)
Definition validate_final_quality (t : table) : bool :=
  length (filter (fun b => b = true) (checks t)) =? length (checks t).

(** ** The rules of the specification, in its own words *)

(** First-non-empty-wins: of the values the sources return for a field, in
    priority order, the first that is not empty. *)
Fixpoint first_non_empty (vs : list str) : str :=
  match vs with
  | [] => []
  | v :: vs' => if truthy v then v else first_non_empty vs'
  end.

(** The names of a table as a set, and the 1-based rank of a name among
    them in the order of strings: one more than the number of names of the
    table that are smaller. *)
Definition names_of (df : list row) : gset str :=
  list_to_set (dropna (map key df)).

Definition str_lt (a b : str) : Prop := str_le a b /\ a <> b.

Definition rank_of (k : str) (df : list row) : nat :=
  S (size (filter (fun k' => str_lt k' k) (names_of df))).

(** The rows before the first row of the name [k], and the 1-based place
    of [k] in order of first appearance: one more than the number of names
    that appear before it. *)
Fixpoint before_first (k : str) (df : list row) : list row :=
  match df with
  | [] => []
  | r :: df' => if eq_str (key r) k then [] else r :: before_first k df'
  end.

Definition arrival_of (k : str) (df : list row) : nat :=
  S (size (names_of (before_first k df))).

(** The distinct names of a table in order of first appearance, as the
    code computes them. *)
Definition distinct_names (df : list row) : list str :=
  unique (dropna (map key df)).

(** ** More of the cleaning and formatting code *)










(** ** Auxiliary definitions of the statements *)

Definition merge_step (i c : info) (k : info_key) : info :=
  if truthy (get i k) && negb (truthy (get c k)) then put k (get i k) c else c.

Definition rules_row (r : row) : row :=
  fold_left (fun r (rule : column * column) =>
               if is_empty (txt r rule.2) then set_txt rule.2 (txt r rule.1) r else r)
            replication_rules r.

(** A value that is not empty stays, and so does the name. *)
Definition keeps_filled (r r' : row) : Prop :=
  key r' = key r /\ forall c, is_empty (txt r c) = false -> txt r' c = txt r c.

(** Rows of the group [k] are left alone. *)
Definition keeps_group (k : option str) (r r' : row) : Prop :=
  key r' = key r /\ (key r = k -> r' = r).

(** The field [f] and the name are left alone. *)
Definition keeps_field (f : column) (r r' : row) : Prop :=
  key r' = key r /\ txt r' f = txt r f.

(** The value the specification asks for: a most frequent one. *)
Definition modal (l : list str) (v : str) : Prop :=
  v ∈ l /\ forall w, count w l <= count v l.

(** Among the most frequent values, the least in the order of strings. *)
Definition modal_least (l : list str) (v : str) : Prop :=
  modal l v /\ forall w, modal l w -> str_le v w.

(** The value [propagate_field] writes. *)
Definition most_common_of (non_empty : list str) : option str :=
  match non_empty with
  | [] => None
  | v0 :: _ => Some (match mode non_empty with m :: _ => m | [] => v0 end)
  end.

(** The value [replicate_field] writes. *)
Definition best_value_of (non_empty : list str) : option str :=
  match non_empty with
  | [] => None
  | v0 :: _ =>
      Some (if 1 <? length non_empty
            then default v0 (value_counts_index0 non_empty) else v0)
  end.

(** The fields [ensure_vertical_coherence] makes coherent, the mirror of
    CATEGORIA apart. *)
Definition coherent_primary_fields : list column :=
  [CATEGORIA; DIRECTOR; ACTOR_PRINCIPAL; DESCRIPCION; DURACION; FAMILIA].

(** The place of a name in [unique] is the number of names before its
    first occurrence. *)
Fixpoint until_first {A} `{EqDecision A} (x : A) (l : list A) : list A :=
  match l with
  | [] => []
  | y :: l' => if decide (y = x) then [] else y :: until_first x l'
  end.

(** Pass 1 never stores the empty name. *)
Definition no_empty_name (st : gmap str entry * Z) : Prop := st.1 !! [] = None.

(** The identifiers pass 1 gives are positive, when those of the template
    are. *)
Definition ids_positive (st : gmap str entry * Z) : Prop :=
  (1 <= st.2)%Z /\
  forall k e, st.1 !! k = Some e ->
    exists id, e_MOVIE_ID e = Some id /\ (1 <= id < st.2)%Z.

(** [re.search] finds a match that is not empty. *)
Fixpoint re_hit (p : regex) (s : str) : bool :=
  match re_match p s with
  | Some (S _) => true
  | _ =>
      match s with
      | [] => false
      | _ :: s' => re_hit p s'
      end
  end.

Definition no_lead (s : str) : Prop :=
  match s with
  | [] => True
  | c :: _ => is_space c = false
  end.


(** Blanks are single and are the blank character. *)
Fixpoint spaced (s : str) : bool :=
  match s with
  | [] => true
  | c :: s' =>
      (if is_space c
       then Ascii.eqb c " "%char &&
            match s' with
            | c' :: _ => negb (is_space c')
            | [] => true
            end
       else true) && spaced s'
  end.

(** The shape of a canonical name: no character that upper-casing changes,
    no punctuation, single blanks, none at either end. *)
Definition canonical_shape (t : str) : Prop :=
  Forall (fun c => upper_full c = [c]) t /\
  Forall (fun c => is_punct c = false) t /\
  spaced t = true /\
  strip t = t.

(** Nothing is left for [generate_unique_name] to remove: none of its
    patterns is found, and no article followed by a blank starts the name. *)
Definition key_stable (t : str) : bool :=
  forallb (fun p => negb (re_hit p t)) ALL_PATTERNS &&
  match re_match article_pattern t with
  | Some _ => false
  | None => true
  end.

(** Two characters with the same upper case, or both punctuation. *)
Definition same_letter (x y : ascii) : Prop :=
  upper_full x = upper_full y \/ (is_punct x = true /\ is_punct y = true).

(** Two characters that are the same, or both punctuation. *)
Definition same_or_punct (x y : ascii) : Prop :=
  x = y \/ (is_punct x = true /\ is_punct y = true).

(** A class that tells neither the case of a letter nor one punctuation
    character from another. *)
Definition blind (P : ascii -> bool) : Prop :=
  forall x y, same_letter x y -> P x = P y.

Definition all_ascii : list ascii := map ascii_of_nat (seq 0 256).

Definition blindb (P : ascii -> bool) : bool :=
  forallb (fun x => Bool.eqb (P x) (P (upper_char x)) &&
                    implb (is_punct x) (Bool.eqb (P x) (P "!"%char))) all_ascii.

Definition blind_atomb (a : atom) : bool :=
  match a with
  | Chr P | Plus P | Star P => blindb P
  | Alt _ => false
  | Eos => true
  end.

Definition blind_atom (a : atom) : Prop :=
  match a with
  | Chr P | Plus P | Star P => blind P
  | Alt _ => False
  | Eos => True
  end.

(** The words of the language and format patterns. *)
Definition LANGUAGE_WORDS : list string :=
  ["ESP"; "SUB"; "DUB"; "DOB"; "SP"; "Esp"; "Sub"; "Dub"; "Dob"; "Sp"]%string.

Definition FORMAT_MARKS : list string :=
  ["4DX"; "IMAX"; "SCREENX"; "XE"; "3D"; "2D"; "4D"]%string.

(** None of the language and format patterns is found in the title. *)
Definition title_stable (t : str) : bool :=
  forallb (fun p => negb (re_hit p t)) ALL_PATTERNS.

(** A word: not empty, and without a blank. *)
Definition is_token (w : str) : bool :=
  negb (bool_decide (w = [])) && forallb (fun c => negb (is_space c)) w.

(** The words [ws] written after a title, a blank before each. *)
Definition tail_of (ws : list str) : str := flat_map (fun w => " "%char :: w) ws.

(** The words are taken off by the language and format patterns in the two
    passes over a name: level 2, then [generate_unique_name]. *)
Definition removable (ws : list str) : bool :=
  bool_decide
    (remove_patterns ALL_PATTERNS
       (upper (remove_patterns FORMAT_PATTERNS
                 (remove_patterns LANGUAGE_PATTERNS (tail_of ws)))) = []).

(** None of the patterns is found in the name with a blank before it: the
    name does not start with the word of a pattern. *)
Definition blank_stable (t : str) : bool :=
  forallb (fun p => negb (re_hit p (" "%char :: t))) ALL_PATTERNS.

(** The upper-cased name, its punctuation replaced by blanks and the blanks
    collapsed, as [generate_unique_name] has it before it looks for an
    article. *)
Definition plain_form (t : str) : str :=
  collapse_spaces (re_sub [Chr is_punct] (Str " ") (upper t)).

(** No article followed by a blank starts the plain form of the name. *)
Definition no_article (t : str) : bool :=
  match re_match article_pattern (plain_form t) with
  | Some _ => false
  | None => true
  end.

(** The marker words of the language and format patterns. *)
Definition MARKERS : list str := map Str (LANGUAGE_WORDS ++ FORMAT_MARKS).

(** Names that get the same key, built from three steps and closed under
    exchange and chaining: the same letters up to case and to which
    punctuation character stands at a place; words after a title of level 2
    that the two passes remove; one article before a title of level 2 that
    starts with no word of a pattern and whose plain form starts with no
    article. *)
Inductive same_title : str -> str -> Prop :=
| same_letters a b :
    in_range a -> in_range b -> Forall2 same_letter a b -> same_title a b
| same_tail t ws :
    in_range t -> Forall in_range ws -> t <> [] -> normalize_title_level2 t = t ->
    Forall (fun w => is_token w = true) ws -> removable ws = true ->
    same_title (t ++ tail_of ws) t
| same_article t a :
    a ∈ ARTICLES -> in_range t -> t <> [] -> normalize_title_level2 t = t ->
    blank_stable t = true -> no_article t = true ->
    same_title (a ++ " "%char :: t) t
| same_sym a b : same_title a b -> same_title b a
| same_trans a b c : same_title a b -> same_title b c -> same_title a c.

(** The pairs of names of the sentence as written: a trailing marker, any
    punctuation, one leading article. *)
Inductive differ_only : str -> str -> Prop :=
| differ_marker t m : m ∈ MARKERS -> differ_only (t ++ " "%char :: m) t
| differ_punctuation a b :
    filter (fun c => is_punct c = false) a = filter (fun c => is_punct c = false) b ->
    differ_only a b
| differ_article t a : a ∈ ARTICLES -> differ_only (a ++ " "%char :: t) t.

Definition empty_row : row := {| MOVIE_ID := None; txt := fun _ => Some [] |}.

(** A row of the movie [name] with the value [v] in the field [f]. *)
Definition row_of (name : string) (f : column) (v : string) : row :=
  set_txt f (Some (Str v)) (set_txt NOMBRE_UNICO (Some (Str name)) empty_row).

(** A row with NaN for its name. *)
Definition nan_row : row := set_txt NOMBRE_UNICO None empty_row.

(** One movie, two directors once each, one row without a director. *)
Definition tie_table : list row :=
  [row_of "K" DIRECTOR "B"; row_of "K" DIRECTOR "A"; row_of "K" DIRECTOR ""].

(** One movie, a director twice and another one once. *)
Definition majority_table : list row :=
  [row_of "K" DIRECTOR "A"; row_of "K" DIRECTOR "A"; row_of "K" DIRECTOR "B"].

(** One movie, the empty string twice and a director once. *)
Definition mostly_empty_table : list row :=
  [row_of "K" DIRECTOR ""; row_of "K" DIRECTOR ""; row_of "K" DIRECTOR "B"].

(** A row whose mirror fields are filled with other values. *)
Definition unmirrored_row : row :=
  set_txt DESCRIPCION2 (Some (Str "B"))
    (set_txt DESCRIPCION (Some (Str "A"))
       (set_txt CATEGORIA_CINEPOLIS (Some (Str "Y"))
          (set_txt TITULO_LIMPIO (Some (Str "DUNE")) (row_of "DUNE" CATEGORIA "X")))).

Definition names_table : list row :=
  [row_of "K" DIRECTOR ""; row_of "A" DIRECTOR ""; row_of "K" DIRECTOR "";
   row_of "J" DIRECTOR ""].

Definition unnamed_table : list row :=
  [row_of "K" DIRECTOR ""; nan_row; row_of "A" DIRECTOR ""; nan_row].

(** A record of the input whose name is a hyphen: its canonical key is empty. *)
Definition hyphen_record : raw :=
  {| raw_MOVIE_NAME := Some (Str "-"); raw_MOVIE_FORMAT := None;
     raw_MOVIE_LENGUAJE := None; raw_MOVIE_DURATION := None |}.

(** A record of the input whose name ends with markers and a blank: the
    first pass and the second pass compute different keys for it. *)
Definition stale_record : raw :=
  {| raw_MOVIE_NAME := Some (Str "X SP SP SP "); raw_MOVIE_FORMAT := None;
     raw_MOVIE_LENGUAJE := None; raw_MOVIE_DURATION := None |}.

(** A file of one row. *)
Definition small_table : table :=
  {| columns := COL_MOVIE_ID :: map COL
                  [MOVIE_NAME; TITULO_LIMPIO; FORMATO; IDIOMA; CATEGORIA;
                   FAMILIA; NOMBRE_ORIGINAL; CATEGORIA_CINEPOLIS; NOMBRE_UNICO];
     rows := [row_of "DUNE" CATEGORIA "ACCION"] |}.

(** The two sources of the example of the specification. *)
Definition source_a (_ : str) : info := put K_categoria (Str "ACCION") no_info.
Definition source_b (_ : str) : info :=
  put K_director (Str "X") (put K_categoria (Str "DRAMA") no_info).
Definition source_none (_ : str) : info := no_info.

(** The election of the specification: a most frequent value, the first to
    occur among equally frequent ones. *)
Definition first_modal (l : list str) : option str := head (most_frequent l).

(** * Properties *)

(** ** The enrichment merge *)

Lemma get_put k k' v i :
  get (put k v i) k' = if decide (k' = k) then v else get i k'.
Proof. destruct k, k', i; simpl; reflexivity. Qed.

Lemma get_merge_step c i k0 k :
  get (merge_step i c k0) k =
  if decide (k = k0)
  then (if truthy (get c k0) then get c k0 else get i k0)
  else get c k.
Proof.
  unfold merge_step. destruct (decide (k = k0)) as [->|Hk].
  - destruct (truthy (get c k0)) eqn:Hc.
    + by rewrite andb_false_r.
    + rewrite andb_true_r. destruct (truthy (get i k0)) eqn:Hi.
      * rewrite get_put. by destruct (decide _).
      * destruct (get c k0), (get i k0); done.
  - destruct (_ && _); [|done]. rewrite get_put. by destruct (decide _).
Qed.

Lemma get_merge_steps ks c i k :
  NoDup ks ->
  get (foldl (merge_step i) c ks) k =
  if decide (k ∈ ks)
  then (if truthy (get c k) then get c k else get i k)
  else get c k.
Proof.
  revert c. induction ks as [|k0 ks IH]; intros c Hnd; simpl.
  - done.
  - apply NoDup_cons in Hnd as [Hk0 Hnd]. rewrite IH by done.
    rewrite !get_merge_step.
    destruct (decide (k = k0)) as [->|Hk].
    + repeat case_decide; try done. exfalso. set_solver.
    + repeat case_decide; try done; exfalso; set_solver.
Qed.

Lemma get_merge_info c i k :
  get (merge_info c i) k = if truthy (get c k) then get c k else get i k.
Proof.
  change (merge_info c i) with (foldl (merge_step i) c info_keys).
  rewrite get_merge_steps.
  - case_decide as Hn; [done|].
    exfalso. apply Hn. destruct k; set_solver.
  - by apply (bool_decide_unpack _); vm_compute.
Qed.

Lemma all_values_truthy c k : all_values c = true -> truthy (get c k) = true.
Proof.
  unfold all_values. rewrite forallb_forall. intros H. apply H.
  destruct k; simpl; tauto.
Qed.

Lemma search_all_get funcs name c k :
  get (search_all funcs name c) k =
  if truthy (get c k) then get c k
  else first_non_empty (map (fun f : str -> info => get (f name) k) funcs).
Proof.
  revert c. induction funcs as [|f funcs IH]; intros c; simpl.
  - destruct (get c k); reflexivity.
  - destruct (all_values (merge_info c (f name))) eqn:Hall.
    + pose proof (all_values_truthy _ k Hall) as Ht.
      rewrite get_merge_info in *.
      destruct (truthy (get c k)); [done|]. by rewrite Ht.
    + rewrite IH, get_merge_info.
      destruct (truthy (get c k)) eqn:Hc; [by rewrite Hc|].
      destruct (truthy (get (f name) k)); reflexivity.
Qed.

(** ** C6: [comprehensive_search] *)

(** C6: on a name that is not in the cache and is not empty once cleaned,
    [comprehensive_search] returns, for each of the five fields, the first
    value that is not empty among those of Cinepolis, Wikipedia and IMDb, in
    this order, and stores the result in the cache. *)
Theorem comprehensive_search_first_non_empty
    (md5_hexdigest : str -> str) (cinepolis wikipedia imdb : str -> info)
    (cache : gmap str info) (movie_name : str) :
  cache !! md5_hexdigest movie_name = None ->
  clean_movie_name movie_name <> [] ->
  exists merged,
    comprehensive_search md5_hexdigest cinepolis wikipedia imdb cache movie_name
      = (Some merged, <[md5_hexdigest movie_name := merged]> cache) /\
    forall k,
      get merged k =
      first_non_empty [get (cinepolis (clean_movie_name movie_name)) k;
                       get (wikipedia (clean_movie_name movie_name)) k;
                       get (imdb (clean_movie_name movie_name)) k].
Proof.
  intros Hcache Hclean. unfold comprehensive_search. rewrite Hcache.
  destruct (clean_movie_name movie_name) as [|c n] eqn:E; [done|].
  cbn [truthy negb]. eexists. split; [reflexivity|]. intros k.
  rewrite search_all_get. destruct k; simpl; reflexivity.
Qed.

(** ** C10: [validate_dataset] *)

Lemma filter_true_length (l : list bool) :
  length (filter (fun b => b = true) l) = length l -> Forall (fun b => b = true) l.
Proof.
  induction l as [|b l IH]; [constructor|].
  rewrite filter_cons. destruct (decide (b = true)) as [->|Hb]; simpl.
  - intros [=]. constructor; auto.
  - pose proof (length_filter (fun b => b = true) l). lia.
Qed.

(** C10: a table that has not 2372 rows, 16 columns and 885 distinct names
    is never certified; [validate_dataset] returns False on it, given the
    columns it reads. *)
Theorem validate_dataset_fixed_shape (high_completeness : table -> bool) (t : table) :
  length (rows t) <> 2372 \/ length (columns t) <> 16 \/
    nunique_names (rows t) <> 885 ->
  validate_dataset high_completeness t <> Some true /\
  (forallb (has_column t) read_columns = true ->
   validate_dataset high_completeness t = Some false).
Proof.
  intros Hshape.
  assert (Hno : forall b, validate_dataset high_completeness t = Some b -> b = false).
  { unfold validate_dataset. intros b.
    destruct (forallb (has_column t) read_columns); [|discriminate].
    intros [= <-]. apply Nat.eqb_neq. intros Hlen.
    apply filter_true_length in Hlen. unfold validations in Hlen.
    apply Forall_cons in Hlen as [H1 Hlen]. apply Forall_cons in Hlen as [H2 _].
    apply andb_true_iff in H1 as [Hr Hc].
    apply Nat.eqb_eq in Hr, Hc, H2. tauto. }
  split.
  - intros H. apply Hno in H. discriminate.
  - intros Hcols. destruct (validate_dataset high_completeness t) as [b|] eqn:E.
    + by rewrite (Hno b).
    + unfold validate_dataset in E. rewrite Hcols in E. discriminate.
Qed.

(** ** Rows and tables *)

Lemma txt_set_txt f v r c :
  txt (set_txt f v r) c = if decide (c = f) then v else txt r c.
Proof. reflexivity. Qed.

Lemma key_set_txt f v r : f <> NOMBRE_UNICO -> key (set_txt f v r) = key r.
Proof. intros Hf. unfold key. rewrite txt_set_txt. by destruct (decide _). Qed.

Lemma length_assign mask f v df : length (assign mask f v df) = length df.
Proof. apply length_map. Qed.

Lemma lookup_assign mask f v df i :
  assign mask f v df !! i =
  (fun r => if mask r then set_txt f v r else r) <$> df !! i.
Proof. apply list_lookup_fmap. Qed.

(** Horizontal coherence *)

Lemma fold_apply_rule rules df :
  fold_left apply_rule rules df =
  map (fun r => fold_left (fun r (rule : column * column) =>
               if is_empty (txt r rule.2) then set_txt rule.2 (txt r rule.1) r else r)
            rules r) df.
Proof.
  revert df. induction rules as [|rule rules IH]; intros df; simpl.
  - by rewrite map_id.
  - rewrite IH. unfold apply_rule. rewrite map_map. reflexivity.
Qed.

Lemma fill_familia_txt r r' c :
  fill_familia r = Some r' -> c <> FAMILIA -> txt r' c = txt r c.
Proof.
  unfold fill_familia. intros H Hc.
  destruct (is_empty (txt r FAMILIA)); [|by injection H as <-].
  destruct (txt r TITULO_LIMPIO) as [[|x l]|]; simpl in H.
  - injection H as <-. rewrite txt_set_txt. by destruct (decide _).
  - destruct (first_word (x :: l)); simpl in H; [|discriminate].
    injection H as <-. rewrite txt_set_txt. by destruct (decide _).
  - injection H as <-. rewrite txt_set_txt. by destruct (decide _).
Qed.

Lemma rules_row_txt r :
  txt (rules_row r) CATEGORIA = txt r CATEGORIA /\
  txt (rules_row r) DESCRIPCION = txt r DESCRIPCION /\
  txt (rules_row r) CATEGORIA_CINEPOLIS =
    (if is_empty (txt r CATEGORIA_CINEPOLIS) then txt r CATEGORIA
     else txt r CATEGORIA_CINEPOLIS) /\
  txt (rules_row r) DESCRIPCION2 =
    (if is_empty (txt r DESCRIPCION2) then txt r DESCRIPCION
     else txt r DESCRIPCION2).
Proof.
  unfold rules_row, replication_rules. simpl.
  destruct (is_empty (txt r CATEGORIA_CINEPOLIS)) eqn:E1; simpl;
  destruct (is_empty (txt r DESCRIPCION2)) eqn:E2; simpl; rewrite ?E2; simpl;
  repeat match goal with
         | |- context [is_empty ?x] => destruct (is_empty x); simpl
         end; auto.
Qed.

(** C7 (as amended): after [ensure_vertical_coherence] every row has
    CATEGORIA_CINEPOLIS equal to CATEGORIA; [horizontal_replication] leaves
    CATEGORIA and DESCRIPCION as they are and copies them into
    CATEGORIA_CINEPOLIS and DESCRIPCION2 where these are empty, a mirror
    that is not empty being kept. *)
Theorem horizontal_mirrors (df : list row) :
  (forall r, r ∈ ensure_vertical_coherence df ->
     txt r CATEGORIA_CINEPOLIS = txt r CATEGORIA) /\
  (forall df', horizontal_replication df = Some df' ->
     forall i r, df !! i = Some r ->
       exists r', df' !! i = Some r' /\
         txt r' CATEGORIA = txt r CATEGORIA /\
         txt r' DESCRIPCION = txt r DESCRIPCION /\
         txt r' CATEGORIA_CINEPOLIS =
           (if is_empty (txt r CATEGORIA_CINEPOLIS) then txt r CATEGORIA
            else txt r CATEGORIA_CINEPOLIS) /\
         txt r' DESCRIPCION2 =
           (if is_empty (txt r DESCRIPCION2) then txt r DESCRIPCION
            else txt r DESCRIPCION2)).
Proof.
  split.
  - intros r. unfold ensure_vertical_coherence, mirror_categoria.
    intros (r0 & -> & _)%list_elem_of_fmap. reflexivity.
  - intros df' H i r Hi. unfold horizontal_replication in H.
    rewrite fold_apply_rule in H. apply mapM_Some in H.
    assert (Hi' : map rules_row df !! i = Some (rules_row r)).
    { rewrite list_lookup_fmap, Hi. reflexivity. }
    destruct (Forall2_lookup_l _ _ _ _ _ H Hi') as (r' & Hr' & Hfill).
    exists r'. split; [done|].
    destruct (rules_row_txt r) as (H1 & H2 & H3 & H4).
    repeat split;
      (etransitivity; [by apply (fill_familia_txt _ _ _ Hfill) | done]).
Qed.

(** ** Folding row-wise steps over a table *)

Section PointwiseSteps.
Context {A : Type} (R : relation row) `{!Reflexive R, !Transitive R}.

Lemma fold_left_pointwise (step : list row -> A -> list row) (xs : list A) :
  (forall d x, x ∈ xs -> Forall2 R d (step d x)) ->
  forall df, Forall2 R df (fold_left step xs df).
Proof.
  induction xs as [|x xs IH]; intros Hstep df; simpl; [reflexivity|].
  transitivity (step df x).
  - apply Hstep. left.
  - apply IH. intros d y Hy. apply Hstep. by right.
Qed.

Lemma assign_pointwise (mask : row -> bool) f v df :
  (forall r, mask r = true -> R r (set_txt f v r)) ->
  Forall2 R df (assign mask f v df).
Proof.
  intros H. unfold assign. induction df as [|r df IH]; simpl; constructor; auto.
  destruct (mask r) eqn:E; [auto | reflexivity].
Qed.
End PointwiseSteps.

(** The relations the steps preserve. *)

#[global] Instance keeps_filled_refl : Reflexive keeps_filled.
Proof. by split. Qed.
#[global] Instance keeps_filled_trans : Transitive keeps_filled.
Proof.
  intros r1 r2 r3 [K1 H1] [K2 H2]. split; [congruence|].
  intros c Hc. rewrite H2, H1; auto. by rewrite H1.
Qed.
#[global] Instance keeps_group_refl k : Reflexive (keeps_group k).
Proof. by split. Qed.
#[global] Instance keeps_group_trans k : Transitive (keeps_group k).
Proof.
  intros r1 r2 r3 [K1 H1] [K2 H2]. split; [congruence|].
  intros Hk. rewrite H2, H1; auto. by rewrite H1.
Qed.
#[global] Instance keeps_field_refl f : Reflexive (keeps_field f).
Proof. by split. Qed.
#[global] Instance keeps_field_trans f : Transitive (keeps_field f).
Proof. intros r1 r2 r3 [K1 H1] [K2 H2]. split; congruence. Qed.

Lemma eq_str_true v k : eq_str v k = true <-> v = Some k.
Proof.
  destruct v as [s|]; simpl; [|done].
  rewrite bool_decide_eq_true. split; congruence.
Qed.

Lemma eq_cell_true a b : eq_cell a b = true <-> a = b /\ is_Some b.
Proof.
  destruct b as [k|]; simpl.
  - rewrite eq_str_true. split; [intros ->; eauto | tauto].
  - split; [done | intros [_ [? [=]]]].
Qed.

Lemma set_txt_keeps_filled f v r :
  f <> NOMBRE_UNICO -> is_empty (txt r f) = true -> keeps_filled r (set_txt f v r).
Proof.
  intros Hf He. split; [by apply key_set_txt|].
  intros c Hc. rewrite txt_set_txt. destruct (decide (c = f)) as [->|]; congruence.
Qed.

Lemma set_txt_keeps_group f v r k :
  f <> NOMBRE_UNICO -> key r <> k -> keeps_group k r (set_txt f v r).
Proof. intros Hf Hk. split; [by apply key_set_txt | done]. Qed.

Lemma set_txt_keeps_field f f' v r :
  f <> NOMBRE_UNICO -> f' <> f -> keeps_field f' r (set_txt f v r).
Proof.
  intros Hf Hff. split; [by apply key_set_txt|].
  rewrite txt_set_txt. by destruct (decide _).
Qed.

Lemma Forall2_keys (R : relation row) df df' :
  (forall r r', R r r' -> key r' = key r) ->
  Forall2 R df df' -> map key df' = map key df.
Proof. intros HR H. induction H; simpl; f_equal; auto. Qed.

Lemma group_of_keeps k df df' :
  Forall2 (keeps_group (Some k)) df df' -> group_of df' k = group_of df k.
Proof.
  unfold group_of. induction 1 as [|r r' df df' [Hk Hr] _ IH]; [done|].
  rewrite !filter_cons. rewrite Hk.
  destruct (decide (eq_str (key r) k)) as [E|E]; [|done].
  apply Is_true_true, eq_str_true in E. rewrite (Hr E). by f_equal.
Qed.

Lemma values_keeps_field (mask : option str -> bool) f df df' :
  Forall2 (keeps_field f) df df' ->
  map (fun r => txt r f) (filter (fun r => mask (key r)) df') =
  map (fun r => txt r f) (filter (fun r => mask (key r)) df).
Proof.
  induction 1 as [|r r' df df' [Hk Hr] _ IH]; [done|].
  rewrite !filter_cons. rewrite Hk.
  destruct (decide (mask (key r))); simpl; rewrite ?Hr, IH; done.
Qed.

(** ** The order of strings, distinct values and the most frequent value *)

Lemma str_leb_refl a : str_leb a a = true.
Proof.
  induction a as [|x a IH]; [done|]. simpl.
  rewrite Nat.ltb_irrefl, Nat.eqb_refl. exact IH.
Qed.

Lemma code_inj x y : code x = code y -> x = y.
Proof.
  unfold code. intros H.
  rewrite <- (ascii_nat_embedding x), <- (ascii_nat_embedding y). by rewrite H.
Qed.

#[global] Instance str_le_refl : Reflexive str_le.
Proof. intros a. apply str_leb_refl. Qed.

#[global] Instance str_le_trans : Transitive str_le.
Proof.
  unfold str_le. intros a. induction a as [|x a IH]; intros [|y b] [|z c]; simpl; try done.
  destruct (code x <? code y) eqn:Hxy.
  - apply Nat.ltb_lt in Hxy. intros _.
    destruct (code y <? code z) eqn:Hyz.
    + apply Nat.ltb_lt in Hyz. intros _.
      assert ((code x <? code z) = true) as -> by (apply Nat.ltb_lt; lia). done.
    + destruct (code y =? code z) eqn:Eyz; [|done].
      apply Nat.eqb_eq in Eyz. intros _.
      assert ((code x <? code z) = true) as -> by (apply Nat.ltb_lt; lia). done.
  - destruct (code x =? code y) eqn:Exy; [|done].
    apply Nat.eqb_eq in Exy. rewrite Exy. intros Hab.
    destruct (code y <? code z); [done|].
    destruct (code y =? code z); [|done]. by apply IH.
Qed.

#[global] Instance str_le_antisym : AntiSymm (=) str_le.
Proof.
  unfold str_le. intros a. induction a as [|x a IH]; intros [|y b]; simpl; try done.
  destruct (code x <? code y) eqn:Hxy.
  - apply Nat.ltb_lt in Hxy. intros _.
    assert ((code y <? code x) = false) as -> by (apply Nat.ltb_ge; lia).
    assert ((code y =? code x) = false) as -> by (apply Nat.eqb_neq; lia). done.
  - destruct (code x =? code y) eqn:Exy; [|done].
    apply Nat.eqb_eq in Exy. intros Hab.
    rewrite Exy, Nat.ltb_irrefl, Nat.eqb_refl. intros Hba.
    f_equal; [by apply code_inj | by apply IH].
Qed.

#[global] Instance str_le_total : Total str_le.
Proof.
  unfold str_le. intros a. induction a as [|x a IH]; intros [|y b]; simpl; auto.
  destruct (Nat.lt_trichotomy (code x) (code y)) as [H|[H|H]].
  - left. by apply Nat.ltb_lt in H as ->.
  - rewrite H, Nat.ltb_irrefl, Nat.eqb_refl. apply IH.
  - right. by apply Nat.ltb_lt in H as ->.
Qed.

Section Unique.
Context {A : Type} `{EqDecision A}.
Implicit Types l : list A.

Lemma elem_of_unique l x : x ∈ unique l <-> x ∈ l.
Proof.
  induction l as [|y l IH]; simpl; [done|].
  rewrite !elem_of_cons, list_elem_of_filter, IH.
  destruct (decide (x = y)); tauto.
Qed.

Lemma NoDup_unique l : NoDup (unique l).
Proof.
  induction l as [|y l IH]; simpl; [constructor|].
  constructor; [|by apply NoDup_filter].
  rewrite list_elem_of_filter. tauto.
Qed.

Lemma unique_nil l : unique l = [] -> l = [].
Proof. by destruct l. Qed.

Lemma count_not_elem_of l w : w ∉ l -> count w l = 0.
Proof.
  unfold count. induction l as [|y l IH]; [done|].
  intros [Hy Hl]%not_elem_of_cons. rewrite filter_cons.
  destruct (decide (y = w)); [congruence | auto].
Qed.

Lemma count_le_max_count l w : count w l <= max_count l.
Proof.
  destruct (decide (w ∈ l)) as [Hw|Hw].
  - apply max_list_elem_of_le, list_elem_of_fmap. eauto.
  - rewrite count_not_elem_of by done. lia.
Qed.

Lemma elem_of_most_frequent l v :
  v ∈ most_frequent l <-> v ∈ l /\ count v l = max_count l.
Proof. unfold most_frequent. rewrite list_elem_of_filter, elem_of_unique. tauto. Qed.

Lemma most_frequent_nonempty l : l <> [] -> most_frequent l <> [].
Proof.
  intros Hl Hnil.
  assert (Hm : max_count l ∈ map (fun v => count v l) l).
  { apply max_list_elem_of. by destruct l. }
  apply list_elem_of_fmap in Hm as (v & Hv & Hin).
  assert (v ∈ most_frequent l) as Hmf by (by apply elem_of_most_frequent).
  rewrite Hnil in Hmf. by apply elem_of_nil in Hmf.
Qed.
End Unique.

Lemma modal_most_frequent l v : modal l v <-> v ∈ most_frequent l.
Proof.
  rewrite elem_of_most_frequent. unfold modal. split.
  - intros [Hv Hmax]. split; [done|].
    apply Nat.le_antisymm; [apply count_le_max_count|].
    assert (Hm : max_count l ∈ map (fun v => count v l) l).
    { apply max_list_elem_of. destruct l; [by apply elem_of_nil in Hv | done]. }
    apply list_elem_of_fmap in Hm as (w & -> & _). apply Hmax.
  - intros [Hv Hc]. split; [done|]. intros w. rewrite Hc. apply count_le_max_count.
Qed.

Lemma elem_of_sorted l x : x ∈ sorted l <-> x ∈ l.
Proof. unfold sorted. by rewrite merge_sort_Permutation. Qed.

Lemma sorted_nil l : sorted l = [] -> l = [].
Proof.
  intros H. apply Permutation_nil_r. rewrite <- H. unfold sorted.
  symmetry. apply merge_sort_Permutation.
Qed.

Lemma mode_head l m rest : mode l = m :: rest -> modal_least l m.
Proof.
  unfold mode. intros H.
  assert (Hs : StronglySorted str_le (m :: rest)).
  { rewrite <- H. apply StronglySorted_merge_sort; apply _. }
  apply StronglySorted_inv in Hs as [_ Hall].
  assert (Hm : m ∈ most_frequent l).
  { apply elem_of_sorted. rewrite H. left. }
  split; [by apply modal_most_frequent|].
  intros w Hw. apply modal_most_frequent, elem_of_sorted in Hw.
  rewrite H in Hw. apply elem_of_cons in Hw as [->|Hw]; [reflexivity|].
  rewrite Forall_forall in Hall. by apply Hall.
Qed.

Lemma mode_nonempty l : l <> [] -> mode l <> [].
Proof. intros Hl H. apply sorted_nil in H. by apply most_frequent_nonempty in H. Qed.

(** ** Propagation within groups (movie_enricher.py) *)

Lemma fields_to_propagate_NoDup : NoDup fields_to_propagate.
Proof. by apply (bool_decide_unpack _); vm_compute. Qed.

Lemma fields_to_propagate_not_key f : f ∈ fields_to_propagate -> f <> NOMBRE_UNICO.
Proof. intros H ->. revert H. by apply (bool_decide_unpack _); vm_compute. Qed.

Lemma split_first {A} (l : list A) x :
  NoDup l -> x ∈ l -> exists l1 l2, l = l1 ++ x :: l2 /\ (x ∉ l1).
Proof.
  intros Hnd (l1 & l2 & ->)%list_elem_of_split. exists l1, l2. split; [done|].
  apply NoDup_app in Hnd as (_ & Hd & _). intros Hx. apply (Hd x Hx). left.
Qed.

Section PropagateSteps.
Context (R : relation row) `{!Reflexive R, !Transitive R}.

Lemma propagate_field_pointwise k group df f :
  (forall r v, key r = Some k -> is_empty (txt r f) = true -> R r (set_txt f v r)) ->
  Forall2 R df (propagate_field k group df f).
Proof.
  intros H. unfold propagate_field.
  destruct (non_empty_values group f); [reflexivity|].
  apply assign_pointwise; [done|]. intros r [Hk He]%andb_true_iff.
  apply H; [by apply eq_str_true | done].
Qed.

Lemma propagate_fields_pointwise k group fs df :
  (forall f r v, f ∈ fs -> key r = Some k -> is_empty (txt r f) = true ->
                 R r (set_txt f v r)) ->
  Forall2 R df (fold_left (propagate_field k group) fs df).
Proof.
  intros H. apply fold_left_pointwise; [done..|].
  intros d f Hf. apply propagate_field_pointwise. intros r v. by apply H.
Qed.

Lemma propagate_group_pointwise df0 df k :
  (forall f r v, f ∈ fields_to_propagate -> key r = Some k ->
                 is_empty (txt r f) = true -> R r (set_txt f v r)) ->
  Forall2 R df (propagate_group df0 df k).
Proof.
  intros H. unfold propagate_group.
  destruct (1 <? length (group_of df0 k)); [|reflexivity].
  by apply propagate_fields_pointwise.
Qed.

Lemma propagate_groups_pointwise df0 ks df :
  (forall k f r v, k ∈ ks -> f ∈ fields_to_propagate -> key r = Some k ->
                   is_empty (txt r f) = true -> R r (set_txt f v r)) ->
  Forall2 R df (fold_left (propagate_group df0) ks df).
Proof.
  intros H. apply fold_left_pointwise; [done..|].
  intros d k Hk. apply propagate_group_pointwise. intros f r v. by apply H.
Qed.
End PropagateSteps.

Lemma propagate_keeps_filled df :
  Forall2 keeps_filled df (propagate_data_within_groups df).
Proof.
  apply propagate_groups_pointwise; [apply _..|].
  intros k f r v _ Hf _ He. apply set_txt_keeps_filled; [|done].
  by apply fields_to_propagate_not_key.
Qed.

Lemma elem_of_group_keys df k :
  k ∈ group_keys df <-> exists r, r ∈ df /\ key r = Some k.
Proof.
  unfold group_keys, dropna. rewrite elem_of_sorted, elem_of_unique, list_elem_of_omap.
  split.
  - intros (o & Ho & Hk). simpl in Hk. subst o.
    apply list_elem_of_fmap in Ho as (r & Hr & Hin). eauto.
  - intros (r & Hr & Hk). exists (Some k). split; [|done].
    apply list_elem_of_fmap. eauto.
Qed.

Lemma group_keys_NoDup df : NoDup (group_keys df).
Proof.
  unfold group_keys, sorted. rewrite merge_sort_Permutation. apply NoDup_unique.
Qed.

Lemma non_empty_values_filled group f v :
  v ∈ non_empty_values group f -> is_empty (Some v) = false.
Proof.
  unfold non_empty_values. intros [Hv _]%list_elem_of_filter. by destruct v.
Qed.

Lemma most_common_of_least l : l <> [] ->
  exists v, most_common_of l = Some v /\ modal_least l v.
Proof.
  intros Hl. destruct l as [|v0 l]; [done|]. simpl.
  destruct (mode (v0 :: l)) as [|m rest] eqn:E.
  - by apply mode_nonempty in E.
  - exists m. split; [done|]. by apply mode_head in E.
Qed.

(** C4 (as amended): in a group of more than one row, for a field that has
    a value in the group, every empty slot of the field gets the most
    frequent of the values that are not empty, the least in the order of
    strings among equally frequent ones. *)
Theorem propagate_fills df k f :
  1 < length (group_of df k) ->
  f ∈ fields_to_propagate ->
  non_empty_values (group_of df k) f <> [] ->
  exists v, modal_least (non_empty_values (group_of df k) f) v /\
    forall i r, df !! i = Some r -> key r = Some k -> is_empty (txt r f) = true ->
      exists r', propagate_data_within_groups df !! i = Some r' /\ txt r' f = Some v.
Proof.
  intros Hsize Hf Hne.
  destruct (most_common_of_least _ Hne) as (v & Hv & Hleast).
  exists v. split; [done|]. intros i r Hi Hk He.
  assert (Hkin : k ∈ group_keys df).
  { apply elem_of_group_keys. exists r. split; [|done]. by eapply list_elem_of_lookup_2. }
  destruct (split_first _ _ (group_keys_NoDup df) Hkin) as (ks1 & ks2 & Hks & Hk1).
  destruct (split_first _ _ fields_to_propagate_NoDup Hf) as (fs1 & fs2 & Hfs & Hf1).
  unfold propagate_data_within_groups. rewrite Hks, fold_left_app. simpl.
  set (d1 := fold_left (propagate_group df) ks1 df).
  (* the groups before [k] leave the row alone *)
  assert (H1 : Forall2 (keeps_group (Some k)) df d1).
  { apply propagate_groups_pointwise; [apply _..|].
    intros k' f' r0 v0 Hk' Hf' Hkey _. apply set_txt_keeps_group.
    - by apply fields_to_propagate_not_key.
    - rewrite Hkey. intros [= ->]. done. }
  destruct (Forall2_lookup_l _ _ _ _ _ H1 Hi) as (r1 & Hr1 & _ & Hsame).
  rewrite (Hsame Hk) in Hr1. clear Hsame.
  (* the group [k]: the fields before [f] leave the field alone *)
  unfold propagate_group at 2. apply Nat.ltb_lt in Hsize. rewrite Hsize.
  rewrite Hfs, fold_left_app. simpl.
  set (d2 := fold_left (propagate_field k (group_of df k)) fs1 d1).
  assert (H2 : Forall2 (keeps_field f) d1 d2).
  { apply propagate_fields_pointwise; [apply _..|].
    intros f' r0 v0 Hf' _ _. apply set_txt_keeps_field.
    - apply fields_to_propagate_not_key. rewrite Hfs. apply elem_of_app. by left.
    - intros ->. done. }
  destruct (Forall2_lookup_l _ _ _ _ _ H2 Hr1) as (r2 & Hr2 & Hk2 & Hf2).
  (* the step that fills the field *)
  set (d3 := propagate_field k (group_of df k) d2 f).
  assert (Hr3 : d3 !! i = Some (set_txt f (Some v) r2)).
  { unfold d3, propagate_field.
    destruct (non_empty_values (group_of df k) f) as [|v0 ne] eqn:E; [done|].
    rewrite lookup_assign, Hr2. simpl.
    assert (eq_str (key r2) k = true) as -> by (apply eq_str_true; congruence).
    rewrite Hf2, He. simpl. simpl in Hv. by injection Hv as ->. }
  (* what follows keeps a value that is not empty *)
  set (d4 := fold_left (propagate_field k (group_of df k)) fs2 d3).
  assert (H4 : Forall2 keeps_filled d3 (fold_left (propagate_group df) ks2 d4)).
  { transitivity d4.
    - apply propagate_fields_pointwise; [apply _..|].
      intros f' r0 v0 Hf' _ He'. apply set_txt_keeps_filled; [|done].
      apply fields_to_propagate_not_key. rewrite Hfs. apply elem_of_app. right. by right.
    - apply propagate_groups_pointwise; [apply _..|].
      intros k' f' r0 v0 _ Hf' _ He'. apply set_txt_keeps_filled; [|done].
      by apply fields_to_propagate_not_key. }
  destruct (Forall2_lookup_l _ _ _ _ _ H4 Hr3) as (r4 & Hr4 & _ & Hfilled).
  exists r4. split; [done|]. rewrite Hfilled.
  - rewrite txt_set_txt. by destruct (decide _).
  - rewrite txt_set_txt. destruct (decide _); [|done].
    eapply non_empty_values_filled. apply Hleast.
Qed.

(** ** Vertical replication (GOAT_enrichment.py) and vertical coherence
    (movies_master_processor.py) *)

Lemma replication_fields_NoDup : NoDup replication_fields.
Proof. by apply (bool_decide_unpack _); vm_compute. Qed.

Lemma replication_fields_not_key f : f ∈ replication_fields -> f <> NOMBRE_UNICO.
Proof. intros H ->. revert H. by apply (bool_decide_unpack _); vm_compute. Qed.

Lemma coherent_fields_NoDup : NoDup coherent_fields.
Proof. by apply (bool_decide_unpack _); vm_compute. Qed.

Lemma coherent_fields_not_key f : f ∈ coherent_fields -> f <> NOMBRE_UNICO.
Proof. intros H ->. revert H. by apply (bool_decide_unpack _); vm_compute. Qed.

Lemma split_once {A} (l : list A) x :
  NoDup l -> x ∈ l -> exists l1 l2, l = l1 ++ x :: l2 /\ (x ∉ l1) /\ (x ∉ l2).
Proof.
  intros Hnd (l1 & l2 & ->)%list_elem_of_split. exists l1, l2. split; [done|].
  apply NoDup_app in Hnd as (_ & Hd & Hnd2). split.
  - intros Hx. apply (Hd x Hx). left.
  - by apply NoDup_cons in Hnd2 as [? _].
Qed.

Section ReplicateSteps.
Context (R : relation row) `{!Reflexive R, !Transitive R}.

Lemma replicate_field_pointwise k group df f :
  (forall r v, key r = Some k -> R r (set_txt f v r)) ->
  Forall2 R df (replicate_field k group df f).
Proof.
  intros H. unfold replicate_field.
  destruct (non_empty_values group f); [reflexivity|].
  apply assign_pointwise; [done|]. intros r Hk%eq_str_true. by apply H.
Qed.

Lemma replicate_fields_pointwise k group fs df :
  (forall f r v, f ∈ fs -> key r = Some k -> R r (set_txt f v r)) ->
  Forall2 R df (fold_left (replicate_field k group) fs df).
Proof.
  intros H. apply fold_left_pointwise; [done..|].
  intros d f Hf. apply replicate_field_pointwise. intros r v. by apply H.
Qed.

Lemma replicate_group_pointwise df ko :
  (forall k f r v, ko = Some k -> f ∈ replication_fields -> key r = Some k ->
                   R r (set_txt f v r)) ->
  Forall2 R df (replicate_group df ko).
Proof.
  intros H. unfold replicate_group. destruct ko as [[|c k]|]; [reflexivity| |reflexivity].
  apply replicate_fields_pointwise. intros f r v. by apply H.
Qed.

Lemma replicate_groups_pointwise ks df :
  (forall k f r v, Some k ∈ ks -> f ∈ replication_fields -> key r = Some k ->
                   R r (set_txt f v r)) ->
  Forall2 R df (fold_left replicate_group ks df).
Proof.
  intros H. apply fold_left_pointwise; [done..|].
  intros d ko Hko. apply replicate_group_pointwise. intros k f r v ->. by apply H.
Qed.

Lemma coherence_field_pointwise ko df f :
  (forall r v, key r = ko -> R r (set_txt f v r)) ->
  Forall2 R df (coherence_field ko df f).
Proof.
  intros H. unfold coherence_field.
  destruct (dropna _); [reflexivity|].
  apply assign_pointwise; [done|]. intros r [Hk _]%eq_cell_true. by apply H.
Qed.

Lemma coherence_fields_pointwise ko fs df :
  (forall f r v, f ∈ fs -> key r = ko -> R r (set_txt f v r)) ->
  Forall2 R df (fold_left (coherence_field ko) fs df).
Proof.
  intros H. apply fold_left_pointwise; [done..|].
  intros d f Hf. apply coherence_field_pointwise. intros r v. by apply H.
Qed.

Lemma coherence_groups_pointwise ks df :
  (forall ko f r v, ko ∈ ks -> f ∈ coherent_fields -> key r = ko ->
                    R r (set_txt f v r)) ->
  Forall2 R df
    (fold_left (fun d ko => fold_left (coherence_field ko) coherent_fields d) ks df).
Proof.
  intros H. apply fold_left_pointwise; [done..|].
  intros d ko Hko. apply coherence_fields_pointwise. intros f r v. by apply H.
Qed.
End ReplicateSteps.

Lemma count_singleton (v w : str) : count w [v] <= count v [v].
Proof.
  unfold count. rewrite !filter_cons, !filter_nil.
  destruct (decide (v = w)), (decide (v = v)); simpl; try lia. done.
Qed.

Lemma best_value_of_modal l : l <> [] ->
  exists v, best_value_of l = Some v /\ modal l v.
Proof.
  intros Hl. destruct l as [|v0 l]; [done|]. unfold best_value_of.
  destruct (1 <? length (v0 :: l)) eqn:Hlen.
  - unfold value_counts_index0.
    destruct (most_frequent (v0 :: l)) as [|m rest] eqn:E.
    + by apply most_frequent_nonempty in E.
    + exists m. split; [done|]. apply modal_most_frequent. rewrite E. left.
  - exists v0. split; [done|]. apply Nat.ltb_ge in Hlen.
    destruct l; [|simpl in Hlen; lia]. split; [left|]. intros w. apply count_singleton.
Qed.

Lemma key_elem_of_unique df i r :
  df !! i = Some r -> key r ∈ unique (map key df).
Proof.
  intros Hi. apply elem_of_unique, list_elem_of_fmap. exists r. split; [done|].
  by eapply list_elem_of_lookup_2.
Qed.

Lemma vertical_replication_elects df k f :
  k <> [] -> f ∈ replication_fields ->
  non_empty_values (group_of df k) f <> [] ->
  exists v, modal (non_empty_values (group_of df k) f) v /\
    forall i r, df !! i = Some r -> key r = Some k ->
      exists r', vertical_replication df !! i = Some r' /\ txt r' f = Some v.
Proof.
  intros Hk0 Hf Hne.
  destruct (best_value_of_modal _ Hne) as (v & Hv & Hmodal).
  exists v. split; [done|]. intros i r Hi Hk.
  assert (Hkin : Some k ∈ unique (map key df)).
  { rewrite <- Hk. by eapply key_elem_of_unique. }
  destruct (split_once _ _ (NoDup_unique _) Hkin) as (ks1 & ks2 & Hks & Hk1 & Hk2).
  destruct (split_once _ _ replication_fields_NoDup Hf) as (fs1 & fs2 & Hfs & Hf1 & Hf2).
  unfold vertical_replication. rewrite Hks, fold_left_app. cbn [fold_left].
  set (d1 := fold_left replicate_group ks1 df).
  assert (H1 : Forall2 (keeps_group (Some k)) df d1).
  { apply replicate_groups_pointwise; [apply _..|].
    intros k' f' r0 v0 Hk' Hf' Hkey. apply set_txt_keeps_group.
    - by apply replication_fields_not_key.
    - rewrite Hkey. intros [= ->]. done. }
  destruct (Forall2_lookup_l _ _ _ _ _ H1 Hi) as (r1 & Hr1 & _ & Hsame).
  rewrite (Hsame Hk) in Hr1. clear Hsame.
  unfold replicate_group at 2. destruct k as [|c k]; [done|].
  rewrite (group_of_keeps _ _ _ H1).
  rewrite Hfs, fold_left_app. cbn [fold_left].
  set (g := group_of df (c :: k)) in *.
  set (d2 := fold_left (replicate_field (c :: k) g) fs1 d1).
  assert (Hfs_key : forall f', f' ∈ fs1 ++ f :: fs2 -> f' <> NOMBRE_UNICO).
  { intros f' Hf'. apply replication_fields_not_key. by rewrite Hfs. }
  assert (H2 : Forall2 (keeps_field f) d1 d2).
  { apply replicate_fields_pointwise; [apply _..|].
    intros f' r0 v0 Hf' _. apply set_txt_keeps_field.
    - apply Hfs_key, elem_of_app. by left.
    - intros ->. done. }
  destruct (Forall2_lookup_l _ _ _ _ _ H2 Hr1) as (r2 & Hr2 & Hk2' & _).
  set (d3 := replicate_field (c :: k) g d2 f).
  assert (Hr3 : d3 !! i = Some (set_txt f (Some v) r2)).
  { unfold d3, replicate_field. unfold best_value_of in Hv.
    destruct (non_empty_values g f) as [|v0 ne] eqn:E; [done|].
    rewrite lookup_assign, Hr2. simpl.
    assert (eq_str (key r2) (c :: k) = true) as -> by (apply eq_str_true; congruence).
    simpl in Hv. by injection Hv as ->. }
  set (d4 := fold_left (replicate_field (c :: k) g) fs2 d3).
  assert (H4 : Forall2 (keeps_field f) d3 d4).
  { apply replicate_fields_pointwise; [apply _..|].
    intros f' r0 v0 Hf' _. apply set_txt_keeps_field.
    - apply Hfs_key, elem_of_app. right. by right.
    - intros ->. done. }
  destruct (Forall2_lookup_l _ _ _ _ _ H4 Hr3) as (r4 & Hr4 & Hk4 & Hf4).
  assert (H5 : Forall2 (keeps_group (Some (c :: k))) d4 (fold_left replicate_group ks2 d4)).
  { apply replicate_groups_pointwise; [apply _..|].
    intros k' f' r0 v0 Hk' Hf' Hkey. apply set_txt_keeps_group.
    - by apply replication_fields_not_key.
    - rewrite Hkey. intros [= ->]. done. }
  destruct (Forall2_lookup_l _ _ _ _ _ H5 Hr4) as (r5 & Hr5 & _ & Hsame).
  exists r5. split; [done|]. rewrite Hsame.
  - rewrite Hf4, txt_set_txt. by case_decide.
  - rewrite Hk4. rewrite key_set_txt; [congruence|]. by apply replication_fields_not_key.
Qed.

Lemma coherent_values_keep k f df df' :
  Forall2 (keeps_field f) df df' ->
  dropna (map (fun r => txt r f) (filter (fun r => eq_cell (key r) (Some k)) df')) =
  dropna (map (fun r => txt r f) (filter (fun r => eq_cell (key r) (Some k)) df)).
Proof.
  intros H. f_equal.
  apply (values_keeps_field (fun o => eq_cell o (Some k)) f _ _ H).
Qed.

Lemma coherent_primary_fields_spec f :
  f ∈ coherent_primary_fields -> f ∈ coherent_fields /\ f <> CATEGORIA_CINEPOLIS.
Proof.
  intros H. split.
  - revert H. unfold coherent_primary_fields, coherent_fields.
    rewrite !elem_of_cons. tauto.
  - intros ->. revert H. by apply (bool_decide_unpack _); vm_compute.
Qed.

Lemma vertical_coherence_elects df k f :
  f ∈ coherent_primary_fields ->
  dropna (map (fun r => txt r f) (group_of df k)) <> [] ->
  exists v, modal_least (dropna (map (fun r => txt r f) (group_of df k))) v /\
    forall i r, df !! i = Some r -> key r = Some k ->
      exists r', ensure_vertical_coherence df !! i = Some r' /\ txt r' f = Some v.
Proof.
  intros [Hf Hfm]%coherent_primary_fields_spec Hne.
  destruct (most_common_of_least _ Hne) as (v & Hv & Hleast).
  exists v. split; [done|]. intros i r Hi Hk.
  assert (Hkin : Some k ∈ unique (map key df)).
  { rewrite <- Hk. by eapply key_elem_of_unique. }
  destruct (split_once _ _ (NoDup_unique _) Hkin) as (ks1 & ks2 & Hks & Hk1 & Hk2).
  destruct (split_once _ _ coherent_fields_NoDup Hf) as (fs1 & fs2 & Hfs & Hf1 & Hf2).
  unfold ensure_vertical_coherence. rewrite Hks, fold_left_app. cbn [fold_left].
  set (step := fun d ko => fold_left (coherence_field ko) coherent_fields d).
  set (d1 := fold_left step ks1 df).
  assert (H1 : Forall2 (keeps_group (Some k)) df d1).
  { apply coherence_groups_pointwise; [apply _..|].
    intros k' f' r0 v0 Hk' Hf' Hkey. apply set_txt_keeps_group.
    - by apply coherent_fields_not_key.
    - rewrite Hkey. intros ->. done. }
  destruct (Forall2_lookup_l _ _ _ _ _ H1 Hi) as (r1 & Hr1 & _ & Hsame).
  rewrite (Hsame Hk) in Hr1. clear Hsame.
  rewrite Hfs, fold_left_app. cbn [fold_left].
  set (d2 := fold_left (coherence_field (Some k)) fs1 d1).
  assert (Hfs_key : forall f', f' ∈ fs1 ++ f :: fs2 -> f' <> NOMBRE_UNICO).
  { intros f' Hf'. apply coherent_fields_not_key. by rewrite Hfs. }
  assert (H2 : Forall2 (keeps_field f) d1 d2).
  { apply coherence_fields_pointwise; [apply _..|].
    intros f' r0 v0 Hf' _. apply set_txt_keeps_field.
    - apply Hfs_key, elem_of_app. by left.
    - intros ->. done. }
  destruct (Forall2_lookup_l _ _ _ _ _ H2 Hr1) as (r2 & Hr2 & Hk2' & _).
  set (d3 := coherence_field (Some k) d2 f).
  assert (Hr3 : d3 !! i = Some (set_txt f (Some v) r2)).
  { unfold d3, coherence_field.
    rewrite (coherent_values_keep _ _ _ _ H2).
    change (filter (fun r => eq_cell (key r) (Some k)) d1) with (group_of d1 k).
    rewrite (group_of_keeps _ _ _ H1).
    unfold most_common_of in Hv.
    destruct (dropna (map (fun r => txt r f) (group_of df k))) as [|v0 ne] eqn:E; [done|].
    rewrite lookup_assign, Hr2. simpl.
    assert (eq_str (key r2) k = true) as -> by (apply eq_str_true; congruence).
    by injection Hv as ->. }
  set (d4 := fold_left (coherence_field (Some k)) fs2 d3).
  assert (H4 : Forall2 (keeps_field f) d3 d4).
  { apply coherence_fields_pointwise; [apply _..|].
    intros f' r0 v0 Hf' _. apply set_txt_keeps_field.
    - apply Hfs_key, elem_of_app. right. by right.
    - intros ->. done. }
  destruct (Forall2_lookup_l _ _ _ _ _ H4 Hr3) as (r4 & Hr4 & Hk4 & Hf4).
  assert (H5 : Forall2 (keeps_group (Some k)) d4 (fold_left step ks2 d4)).
  { apply coherence_groups_pointwise; [apply _..|].
    intros k' f' r0 v0 Hk' Hf' Hkey. apply set_txt_keeps_group.
    - by apply coherent_fields_not_key.
    - rewrite Hkey. intros ->. done. }
  destruct (Forall2_lookup_l _ _ _ _ _ H5 Hr4) as (r5 & Hr5 & _ & Hsame).
  rewrite Hsame in Hr5.
  2:{ rewrite Hk4. rewrite key_set_txt; [congruence|].
      apply Hfs_key, elem_of_app. right. left. }
  exists (set_txt CATEGORIA_CINEPOLIS (txt r4 CATEGORIA) r4). split.
  - unfold mirror_categoria. rewrite list_lookup_fmap, Hr5. done.
  - rewrite txt_set_txt. case_decide; [done|].
    rewrite Hf4, txt_set_txt. by case_decide.
Qed.

(** ** Re-indexing: [remap_movie_ids_perfect], [remap_movie_ids_optimized] *)

Lemma enumerate_lookup {K} `{Countable K} (names : list K) (k : K) :
  NoDup names ->
  forall (m : gmap K Z) (n : nat),
    (forall i, names !! i = Some k ->
       foldl (fun m p => <[p.2 := (Z.of_nat p.1 + 1)%Z]> m) m
             (imap (fun i x => (n + i, x)) names) !! k
       = Some (Z.of_nat (n + i) + 1)%Z) /\
    (k ∉ names ->
       foldl (fun m p => <[p.2 := (Z.of_nat p.1 + 1)%Z]> m) m
             (imap (fun i x => (n + i, x)) names) !! k
       = m !! k).
Proof.
  induction names as [|x names IH]; intros Hnd m n.
  - split; [intros i Hi; by rewrite lookup_nil in Hi | done].
  - apply NoDup_cons in Hnd as [Hx Hnd]. rewrite imap_cons. cbn [foldl].
    rewrite (imap_ext _ (fun i y => (S n + i, y))); [|intros; simpl; f_equal; lia].
    destruct (IH Hnd (<[x := (Z.of_nat (n + 0) + 1)%Z]> m) (S n)) as [IH1 IH2].
    split.
    + intros [|i] Hi; simpl in Hi.
      * injection Hi as ->. cbn [fst snd]. rewrite IH2 by done.
        by rewrite lookup_insert_eq.
      * cbn [fst snd]. rewrite (IH1 i Hi). f_equal. lia.
    + intros [Hk Hnotin]%not_elem_of_cons. cbn [fst snd].
      rewrite IH2 by done. by rewrite lookup_insert_ne.
Qed.

Lemma enumerate_from_1_lookup {K} `{Countable K} (names : list K) i k :
  NoDup names -> names !! i = Some k ->
  enumerate_from_1 names !! k = Some (Z.of_nat i + 1)%Z.
Proof.
  intros Hnd Hi. unfold enumerate_from_1.
  rewrite (imap_ext _ (fun i y => (0 + i, y))); [|done].
  destruct (enumerate_lookup names k Hnd ∅ 0) as [H1 _]. by rewrite (H1 i Hi).
Qed.

Lemma enumerate_from_1_None {K} `{Countable K} (names : list K) k :
  NoDup names -> k ∉ names -> enumerate_from_1 names !! k = None.
Proof.
  intros Hnd Hk. unfold enumerate_from_1.
  rewrite (imap_ext _ (fun i y => (0 + i, y))); [|done].
  destruct (enumerate_lookup names k Hnd ∅ 0) as [_ H2]. by rewrite (H2 Hk).
Qed.

Lemma str_lt_irrefl k : ~ str_lt k k.
Proof. by intros [_ ?]. Qed.

Lemma filter_lt_above k (l : list str) :
  Forall (str_le k) l -> k ∉ l -> filter (fun k' => str_lt k' k) l = [].
Proof.
  induction l as [|y l IH]; [done|].
  intros [Hy Hall]%Forall_cons [Hne Hnotin]%not_elem_of_cons.
  rewrite filter_cons. destruct (decide (str_lt y k)) as [[Hyk Hyne]|_]; [|by apply IH].
  exfalso. apply Hyne. by apply (anti_symm str_le).
Qed.

(** In a sorted list without repetition, the position of a name is the
    number of names smaller than it. *)
Lemma sorted_index_count (l : list str) i k :
  StronglySorted str_le l -> NoDup l -> l !! i = Some k ->
  length (filter (fun k' => str_lt k' k) l) = i.
Proof.
  revert i. induction l as [|x l IH]; intros i Hs Hnd Hi; [by rewrite lookup_nil in Hi|].
  apply StronglySorted_inv in Hs as [Hs Hall]. apply NoDup_cons in Hnd as [Hx Hnd].
  rewrite filter_cons. destruct i as [|i]; simpl in Hi.
  - injection Hi as ->. destruct (decide (str_lt k k)) as [Hkk|_].
    { by apply str_lt_irrefl in Hkk. }
    by rewrite filter_lt_above.
  - assert (Hk : k ∈ l) by (by eapply list_elem_of_lookup_2).
    rewrite Forall_forall in Hall.
    destruct (decide (str_lt x k)) as [_|Hn].
    + simpl. f_equal. by apply IH.
    + exfalso. apply Hn. split; [by apply Hall|]. intros ->. done.
Qed.

Lemma sorted_NoDup l : NoDup l -> NoDup (sorted l).
Proof. intros H. unfold sorted. by rewrite merge_sort_Permutation. Qed.

Lemma sorted_StronglySorted l : StronglySorted str_le (sorted l).
Proof. apply StronglySorted_merge_sort; apply _. Qed.

Lemma sorted_singleton (x : str) : sorted [x] = [x].
Proof. reflexivity. Qed.

Lemma mapM_id_Some (l : list (option str)) :
  Forall is_Some l -> mapM id l = Some (dropna l).
Proof.
  intros H. apply mapM_Some. unfold dropna.
  induction H as [|o l [x ->] _ IH]; simpl; constructor; auto.
Qed.

Lemma fmap_Some_dropna (l : list (option str)) :
  Forall is_Some l -> Some <$> dropna l = l.
Proof.
  unfold dropna. induction 1 as [|o l [x ->] _ IH]; simpl; [done|]. by f_equal.
Qed.

Lemma py_sorted_strings (l : list (option str)) :
  Forall is_Some l -> py_sorted l = Some (Some <$> sorted (dropna l)).
Proof.
  intros H. destruct l as [|o1 [|o2 l]].
  - reflexivity.
  - apply Forall_cons in H as [[x ->] _]. reflexivity.
  - unfold py_sorted. by rewrite mapM_id_Some.
Qed.

Lemma elem_of_dropna {A} (l : list (option A)) x : x ∈ dropna l <-> Some x ∈ l.
Proof.
  unfold dropna. rewrite list_elem_of_omap. split.
  - intros (o & Ho & Hx). simpl in Hx. by subst.
  - intros Hx. by exists (Some x).
Qed.

Lemma NoDup_dropna {A} (l : list (option A)) : NoDup l -> NoDup (dropna l).
Proof.
  induction 1 as [|o l Ho Hnd IH]; [constructor|].
  destruct o as [x|]; [|exact IH].
  change (dropna (Some x :: l)) with (x :: dropna l).
  constructor; [|done]. by rewrite elem_of_dropna.
Qed.

Lemma dropna_unique_Permutation (l : list (option str)) :
  dropna (unique l) ≡ₚ unique (dropna l).
Proof.
  apply NoDup_Permutation.
  - apply NoDup_dropna, NoDup_unique.
  - apply NoDup_unique.
  - intros x. by rewrite elem_of_unique, !elem_of_dropna, elem_of_unique.
Qed.

Lemma sorted_distinct_names df :
  Forall (fun r => is_Some (key r)) df ->
  sorted (dropna (unique (map key df))) = sorted (distinct_names df).
Proof.
  intros _. apply (Sorted_unique str_le).
  - apply Sorted_merge_sort, _.
  - apply Sorted_merge_sort, _.
  - unfold sorted, distinct_names. rewrite !merge_sort_Permutation.
    apply dropna_unique_Permutation.
Qed.

Lemma remap_movie_ids_eq df :
  Forall (fun r => is_Some (key r)) df ->
  remap_movie_ids df =
  Some (map (fun r => set_id (enumerate_from_1 (Some <$> sorted (distinct_names df))
                                !! key r) r) df).
Proof.
  intros Hdf. unfold remap_movie_ids.
  rewrite py_sorted_strings.
  - simpl. by rewrite sorted_distinct_names.
  - apply Forall_forall. intros o Ho. apply (proj1 (elem_of_unique _ _)) in Ho.
    apply list_elem_of_fmap in Ho as (r & -> & Hr).
    rewrite Forall_forall in Hdf. by apply Hdf.
Qed.

Lemma distinct_names_NoDup df : NoDup (sorted (distinct_names df)).
Proof. apply sorted_NoDup, NoDup_unique. Qed.

Lemma elem_of_distinct_names df k :
  k ∈ sorted (distinct_names df) <-> exists r, r ∈ df /\ key r = Some k.
Proof. apply elem_of_group_keys. Qed.

Lemma size_filter_names (P : str -> Prop) `{!forall x, Decision (P x)}
    (l : list str) (X : gset str) :
  NoDup l -> (forall x, x ∈ l <-> x ∈ X) ->
  size (filter P X) = length (filter P l).
Proof.
  intros Hnd Hl.
  assert (filter P X = list_to_set (filter P l)) as ->.
  { apply set_eq. intros x.
    rewrite elem_of_filter, elem_of_list_to_set, list_elem_of_filter, Hl. tauto. }
  apply size_list_to_set. by apply NoDup_filter.
Qed.

Lemma elem_of_names_of df k : k ∈ names_of df <-> k ∈ distinct_names df.
Proof. unfold names_of, distinct_names. by rewrite elem_of_list_to_set, elem_of_unique. Qed.

Lemma size_names_of df : size (names_of df) = length (distinct_names df).
Proof.
  unfold names_of, distinct_names.
  rewrite <- (size_list_to_set (C:=gset str) (unique _)) by apply NoDup_unique.
  f_equal. apply set_eq. intros x. by rewrite !elem_of_list_to_set, elem_of_unique.
Qed.

(** The position of a name in the sorted list of the names is its rank. *)
Lemma sorted_lookup_rank df n k :
  sorted (distinct_names df) !! n = Some k -> rank_of k df = S n.
Proof.
  intros Hn. unfold rank_of. f_equal.
  rewrite (size_filter_names _ (sorted (distinct_names df))).
  - apply sorted_index_count; [apply sorted_StronglySorted|apply distinct_names_NoDup|done].
  - apply distinct_names_NoDup.
  - intros x. by rewrite elem_of_sorted, elem_of_names_of.
Qed.

(** C2 (as amended): on a table where every row has a name, the two
    re-indexing functions return the same table, in which the MOVIE_ID of a
    row is the 1-based rank of its NOMBRE_UNICO among the names of the
    table in the order of strings, that is one more than the number of
    names of the table that are smaller; two rows have the same MOVIE_ID
    exactly when they have the same name. *)
Theorem remap_movie_ids_rank (df : list row) :
  Forall (fun r => is_Some (key r)) df ->
  exists df',
    remap_movie_ids_perfect df = Some df' /\
    remap_movie_ids_optimized df = Some df' /\
    (forall i r, df !! i = Some r ->
       exists k, key r = Some k /\
         df' !! i = Some (set_id (Some (Z.of_nat (rank_of k df))) r)) /\
    (forall r1 r2, r1 ∈ df' -> r2 ∈ df' ->
       MOVIE_ID r1 = MOVIE_ID r2 <-> key r1 = key r2).
Proof.
  intros Hdf. eexists. split; [by apply remap_movie_ids_eq|].
  split; [by apply remap_movie_ids_eq|].
  set (names := sorted (distinct_names df)).
  assert (Hrow : forall i r, df !! i = Some r ->
     exists k n, key r = Some k /\ names !! n = Some k /\
       map (fun r => set_id (enumerate_from_1 (Some <$> names) !! key r) r) df !! i
       = Some (set_id (Some (Z.of_nat n + 1)%Z) r)).
  { intros i r Hi.
    assert (Hr : r ∈ df) by (by eapply list_elem_of_lookup_2).
    rewrite Forall_forall in Hdf. destruct (Hdf r Hr) as [k Hk].
    assert (Hin : k ∈ names) by (apply elem_of_distinct_names; eauto).
    apply list_elem_of_lookup in Hin as [n Hn].
    exists k, n. split; [done|]. split; [done|].
    rewrite list_lookup_fmap, Hi. simpl. rewrite Hk.
    rewrite (enumerate_from_1_lookup _ n (Some k)); [done| |].
    - apply (NoDup_fmap_2 Some), distinct_names_NoDup.
    - by rewrite list_lookup_fmap, Hn. }
  split.
  { intros i r Hi. destruct (Hrow i r Hi) as (k & n & Hk & Hn & Hr).
    exists k. split; [done|]. rewrite Hr. do 3 f_equal.
    rewrite (sorted_lookup_rank df n k Hn). lia. }
  intros r1 r2 H1 H2.
  apply list_elem_of_fmap in H1 as (ra & -> & Ha).
  apply list_elem_of_fmap in H2 as (rb & -> & Hb).
  apply list_elem_of_lookup in Ha as [i Hi]. apply list_elem_of_lookup in Hb as [j Hj].
  destruct (Hrow i ra Hi) as (k1 & n1 & Hk1 & Hn1 & Ha').
  destruct (Hrow j rb Hj) as (k2 & n2 & Hk2 & Hn2 & Hb').
  rewrite list_lookup_fmap, Hi in Ha'. rewrite list_lookup_fmap, Hj in Hb'.
  simpl in Ha', Hb'. injection Ha' as Ha'. injection Hb' as Hb'.
  rewrite Ha', Hb'. unfold key in *. simpl. rewrite Hk1, Hk2. split.
  - intros [= Hn]. assert (n1 = n2) as -> by lia. congruence.
  - intros [= ->]. do 2 f_equal.
    by rewrite (NoDup_lookup _ _ _ _ (distinct_names_NoDup df) Hn1 Hn2).
Qed.

(** ** Identifiers of records without a name:
    [reassign_movie_ids] and pass 2 of [process_all_records] *)

Lemma fill_missing_ids_lookup next df i r :
  df !! i = Some r ->
  fill_missing_ids next df !! i =
  Some (match MOVIE_ID r with
        | Some _ => r
        | None =>
            set_id (Some (next + Z.of_nat
                            (length (filter (fun r => MOVIE_ID r = None) (take i df))))%Z) r
        end).
Proof.
  revert next i. induction df as [|r0 df IH]; intros next i Hi; [by rewrite lookup_nil in Hi|].
  destruct i as [|i]; simpl in Hi.
  - injection Hi as ->. simpl. destruct (MOVIE_ID r); [done|].
    simpl. by rewrite Z.add_0_r.
  - cbn [fill_missing_ids take]. rewrite filter_cons.
    destruct (decide (MOVIE_ID r0 = None)) as [E0|E0].
    + rewrite E0. etransitivity; [exact (IH (next + 1)%Z i Hi)|].
      destruct (MOVIE_ID r); [done|]. cbn [length]. do 3 f_equal. lia.
    + destruct (MOVIE_ID r0) as [z|]; [|done]. exact (IH next i Hi).
Qed.

Lemma length_filter_fmap (f : row -> row) (P Q : row -> Prop)
    `{forall r, Decision (P r)} `{forall r, Decision (Q r)} (l : list row) :
  Forall (fun r => P (f r) <-> Q r) l ->
  length (filter P (map f l)) = length (filter Q l).
Proof.
  induction 1 as [|r l HPQ _ IH]; [done|]. simpl. rewrite !filter_cons.
  destruct (decide (P (f r))) as [Hp|Hp], (decide (Q r)) as [Hq|Hq]; simpl;
    try (f_equal; exact IH); try exact IH.
  - by apply HPQ in Hp.
  - by apply HPQ in Hq.
Qed.

Lemma key_elem_of_distinct df r k :
  r ∈ df -> key r = Some k -> k ∈ distinct_names df.
Proof.
  intros Hr Hk. unfold distinct_names. rewrite elem_of_unique, elem_of_dropna, <- Hk.
  apply list_elem_of_fmap. eauto.
Qed.

Lemma reassign_movie_ids_lookup df i r :
  df !! i = Some r ->
  exists r', reassign_movie_ids df !! i = Some r' /\
    txt r' = txt r /\
    match key r with
    | Some k =>
        exists n, distinct_names df !! n = Some k /\
                  MOVIE_ID r' = Some (Z.of_nat n + 1)%Z
    | None =>
        MOVIE_ID r' =
        Some (Z.of_nat (length (distinct_names df)) + 1 +
              Z.of_nat (length (filter (fun r => key r = None) (take i df))))%Z
    end.
Proof.
  intros Hi. unfold reassign_movie_ids. fold (distinct_names df).
  set (assign_id := fun r : row =>
         set_id (key r ≫= fun k => enumerate_from_1 (distinct_names df) !! k) r).
  assert (Hi1 : map assign_id df !! i = Some (assign_id r)).
  { by rewrite list_lookup_fmap, Hi. }
  rewrite (fill_missing_ids_lookup _ _ _ _ Hi1).
  assert (Hid : forall r0 k0, r0 ∈ df -> key r0 = Some k0 ->
            exists n, distinct_names df !! n = Some k0 /\
                      MOVIE_ID (assign_id r0) = Some (Z.of_nat n + 1)%Z).
  { intros r0 k0 Hr0 Hk0.
    pose proof (key_elem_of_distinct _ _ _ Hr0 Hk0) as Hin.
    apply list_elem_of_lookup in Hin as [n Hn]. exists n. split; [done|].
    unfold assign_id. simpl. rewrite Hk0. simpl.
    by rewrite (enumerate_from_1_lookup _ n k0 (NoDup_unique _) Hn). }
  assert (Hr : r ∈ df) by (by eapply list_elem_of_lookup_2).
  destruct (key r) as [k|] eqn:Hk.
  - destruct (Hid r k Hr Hk) as (n & Hn & Hidn). rewrite Hidn.
    eexists. split; [reflexivity|]. split; [done|]. eauto.
  - assert (MOVIE_ID (assign_id r) = None) as ->.
    { unfold assign_id. simpl. by rewrite Hk. }
    eexists. split; [reflexivity|]. split; [done|]. simpl. do 3 f_equal.
    rewrite <- fmap_take. apply length_filter_fmap.
    apply Forall_forall. intros r0 Hr0%subseteq_take.
    destruct (key r0) as [k0|] eqn:Hk0.
    + destruct (Hid r0 k0 Hr0 Hk0) as (n & _ & ->). done.
    + unfold assign_id. simpl. by rewrite Hk0.
Qed.

Lemma unique_until_first {A} `{EqDecision A} (x : A) (l : list A) :
  x ∈ l -> exists rest, unique l = unique (until_first x l) ++ x :: rest.
Proof.
  induction l as [|y l IH]; [by intros ?%elem_of_nil|].
  intros Hx. cbn [until_first unique]. destruct (decide (y = x)) as [->|Hne].
  - by eexists.
  - apply elem_of_cons in Hx as [->|Hx]; [done|].
    destruct (IH Hx) as [rest Hrest]. rewrite Hrest.
    exists (filter (fun z => z <> y) rest).
    rewrite filter_app, filter_cons. cbn [unique app].
    destruct (decide (x <> y)) as [_|E]; [done|]. exfalso. apply E. congruence.
Qed.

Lemma unique_lookup_until_first {A} `{EqDecision A} (x : A) (l : list A) n :
  unique l !! n = Some x -> n = length (unique (until_first x l)).
Proof.
  intros Hn.
  assert (Hx : x ∈ l).
  { apply elem_of_unique. by eapply list_elem_of_lookup_2. }
  destruct (unique_until_first x l Hx) as [rest Hrest].
  pose proof (NoDup_unique l) as Hnd.
  apply (NoDup_lookup _ _ _ x Hnd Hn).
  rewrite Hrest. by rewrite list_lookup_middle.
Qed.

Lemma names_before_first k df :
  dropna (map key (before_first k df)) = until_first k (dropna (map key df)).
Proof.
  induction df as [|r df IH]; [done|]. cbn [before_first map].
  destruct (key r) as [k0|] eqn:Hk; cbn [eq_str].
  - change (dropna (Some k0 :: map key df)) with (k0 :: dropna (map key df)).
    cbn [until_first]. case_bool_decide as E; destruct (decide (k0 = k)); try done.
    cbn [map]. rewrite Hk.
    change (dropna (Some k0 :: map key (before_first k df)))
      with (k0 :: dropna (map key (before_first k df))).
    by rewrite IH.
  - change (dropna (None :: map key df)) with (dropna (map key df)).
    cbn [map]. rewrite Hk.
    change (dropna (None :: map key (before_first k df)))
      with (dropna (map key (before_first k df))).
    exact IH.
Qed.

Lemma distinct_names_lookup_arrival df n k :
  distinct_names df !! n = Some k -> arrival_of k df = S n.
Proof.
  intros Hn. unfold arrival_of. f_equal.
  rewrite (unique_lookup_until_first k _ n Hn).
  rewrite size_names_of. unfold distinct_names. by rewrite names_before_first.
Qed.

Lemma foldl_invariant {A B} (P : A -> Prop) (f : A -> B -> A) (l : list B) a :
  (forall a x, P a -> P (f a x)) -> P a -> P (foldl f a l).
Proof. intros Hf. revert a. induction l as [|x l IH]; intros a Ha; simpl; auto. Qed.

Lemma load_template_row_no_empty st r :
  no_empty_name st -> no_empty_name (load_template_row st r).
Proof.
  unfold no_empty_name, load_template_row. intros Hst.
  destruct (bool_decide (upper (py_str (key r)) <> [])) eqn:E; simpl; [|done].
  apply bool_decide_eq_true in E.
  destruct (bool_decide _); simpl; [|done]. by rewrite lookup_insert_ne.
Qed.

Lemma scan_row_no_empty st x :
  no_empty_name st -> no_empty_name (scan_row st x).
Proof.
  unfold no_empty_name, scan_row. intros Hst.
  destruct (bool_decide (upper (sc_NOMBRE_UNICO x) <> [])) eqn:E; simpl; [|done].
  apply bool_decide_eq_true in E.
  destruct (bool_decide _); simpl; [|done]. by rewrite lookup_insert_ne.
Qed.

Lemma build_catalog_no_empty template chunks :
  no_empty_name (build_catalog template chunks).
Proof.
  unfold build_catalog. apply foldl_invariant.
  - intros st chunk Hst. unfold scan_chunk. apply foldl_invariant; [|done].
    intros. by apply scan_row_no_empty.
  - apply foldl_invariant; [|done]. intros. by apply load_template_row_no_empty.
Qed.

Lemma process_all_records_empty_name template chunks r :
  r ∈ process_all_records template chunks -> key r = Some [] ->
  MOVIE_ID r = Some 0%Z.
Proof.
  unfold process_all_records. intros Hr Hk.
  apply list_elem_of_In, in_concat in Hr as (rs & Hrs & Hr).
  apply list_elem_of_In in Hrs, Hr.
  apply list_elem_of_fmap in Hrs as (chunk & -> & _).
  unfold assign_ids in Hr. apply list_elem_of_fmap in Hr as (r0 & -> & _).
  rewrite key_set_txt in Hk by done. change (key (set_id _ r0)) with (key r0) in Hk.
  simpl. rewrite Hk. simpl.
  pose proof (build_catalog_no_empty template chunks) as Hcat.
  unfold no_empty_name in Hcat. by rewrite Hcat.
Qed.

Lemma load_template_row_positive st r :
  (exists id, MOVIE_ID r = Some id /\ (1 <= id)%Z) ->
  ids_positive st -> ids_positive (load_template_row st r).
Proof.
  intros (id & Hid & Hpos) [Hc Hst]. unfold load_template_row.
  destruct (bool_decide _ && bool_decide _); [|by split].
  rewrite Hid. split; simpl; [lia|].
  intros k e. destruct (decide (upper (py_str (key r)) = k)) as [<-|Hk].
  - rewrite lookup_insert_eq. intros [= <-]. exists id. simpl. split; [done|lia].
  - rewrite lookup_insert_ne by done. intros He.
    destruct (Hst k e He) as (id' & ? & ?). exists id'. split; [done|lia].
Qed.

Lemma scan_row_positive st x : ids_positive st -> ids_positive (scan_row st x).
Proof.
  intros [Hc Hst]. unfold scan_row.
  destruct (bool_decide _ && bool_decide _); [|by split].
  split; simpl; [lia|].
  intros k e. destruct (decide (upper (sc_NOMBRE_UNICO x) = k)) as [<-|Hk].
  - rewrite lookup_insert_eq. intros [= <-]. exists st.2. simpl. split; [done|lia].
  - rewrite lookup_insert_ne by done. intros He.
    destruct (Hst k e He) as (id' & ? & ?). exists id'. split; [done|lia].
Qed.

Lemma foldl_invariant_in {A B} (P : A -> Prop) (f : A -> B -> A) (l : list B) a :
  (forall a x, x ∈ l -> P a -> P (f a x)) -> P a -> P (foldl f a l).
Proof.
  revert a. induction l as [|x l IH]; intros a Hf Ha; simpl; [done|].
  apply IH; [|apply Hf; [left|done]]. intros a' y Hy. apply Hf. by right.
Qed.

Lemma build_catalog_positive template chunks :
  Forall (fun r => exists id, MOVIE_ID r = Some id /\ (1 <= id)%Z) template ->
  ids_positive (build_catalog template chunks).
Proof.
  intros Ht. unfold build_catalog. apply foldl_invariant.
  - intros st chunk Hst. unfold scan_chunk. apply foldl_invariant; [|done].
    intros. by apply scan_row_positive.
  - apply foldl_invariant_in.
    + intros st r Hr Hst. apply load_template_row_positive; [|done].
      rewrite Forall_forall in Ht. by apply Ht.
    + split; [simpl; lia|]. intros k e. simpl. by rewrite lookup_empty.
Qed.

Lemma process_all_records_lookup template chunks r :
  r ∈ process_all_records template chunks ->
  exists k, key r = Some k /\
    MOVIE_ID r = match (build_catalog template chunks).1 !! upper k with
                 | Some e => e_MOVIE_ID e
                 | None => Some 0%Z
                 end.
Proof.
  unfold process_all_records. intros Hr.
  apply list_elem_of_In, in_concat in Hr as (rs & Hrs & Hr).
  apply list_elem_of_In in Hrs, Hr.
  apply list_elem_of_fmap in Hrs as (chunk & -> & _).
  unfold assign_ids in Hr. apply list_elem_of_fmap in Hr as (r0 & -> & Hr0).
  unfold process_batch in Hr0. apply list_elem_of_fmap in Hr0 as (x & -> & _).
  eexists. split; [reflexivity|]. reflexivity.
Qed.

(** C9 (as amended): [reassign_movie_ids] gives a row with a name its
    1-based place in order of first appearance, one more than the number of
    names that appear before it and at most the number [N] of names, and
    gives the rows without a name (NaN) the identifiers [N + 1], [N + 2],
    ... in the order of the rows.  In the output of [process_all_records] a
    row whose key is not in the catalog of pass 1 has MOVIE_ID 0 and any
    other row the identifier of the catalog; the empty key is never in the
    catalog, and the identifiers of the catalog are positive when those of
    the template are. *)
Theorem ids_of_unnamed_records :
  (forall df i r, df !! i = Some r ->
     exists r',
       reassign_movie_ids df !! i = Some r' /\ txt r' = txt r /\
       MOVIE_ID r' =
         Some (match key r with
               | Some k => Z.of_nat (arrival_of k df)
               | None =>
                   Z.of_nat (size (names_of df)) + 1 +
                   Z.of_nat (length (filter (fun r => key r = None) (take i df)))
               end)%Z /\
       (forall k, key r = Some k -> arrival_of k df <= size (names_of df))) /\
  (forall template chunks r,
     r ∈ process_all_records template chunks ->
     exists k, key r = Some k /\
       MOVIE_ID r = match (build_catalog template chunks).1 !! upper k with
                    | Some e => e_MOVIE_ID e
                    | None => Some 0%Z
                    end) /\
  (forall template chunks, (build_catalog template chunks).1 !! [] = None) /\
  (forall template chunks k e,
     Forall (fun r => exists id, MOVIE_ID r = Some id /\ (1 <= id)%Z) template ->
     (build_catalog template chunks).1 !! k = Some e ->
     exists id, e_MOVIE_ID e = Some id /\ (1 <= id)%Z).
Proof.
  split; [|split; [|split]].
  - intros df i r Hi.
    destruct (reassign_movie_ids_lookup df i r Hi) as (r' & Hr' & Htxt & Hid).
    exists r'. split; [done|]. split; [done|]. destruct (key r) as [k|] eqn:Hk.
    + destruct Hid as (n & Hn & Hidn).
      rewrite (distinct_names_lookup_arrival df n k Hn). split.
      * rewrite Hidn. f_equal. lia.
      * intros k' [= <-]. rewrite (distinct_names_lookup_arrival df n k Hn).
        rewrite size_names_of. apply lookup_lt_Some in Hn. lia.
    + split; [|done]. rewrite Hid. by rewrite size_names_of.
  - apply process_all_records_lookup.
  - apply build_catalog_no_empty.
  - intros template chunks k e Ht He.
    destruct (build_catalog_positive template chunks Ht) as [_ H].
    destruct (H k e He) as (id & ? & ?). exists id. split; [done|lia].
Qed.

(** ** The matcher *)

Lemma span_len_le P s : span_len P s <= length s.
Proof. induction s as [|c s IH]; simpl; [lia|]. destruct (P c); simpl; lia. Qed.

Lemma backtrack_Some k s lo d n :
  backtrack k s lo d = Some n ->
  exists j m, lo <= j <= lo + d /\ k (drop j s) = Some m /\ n = j + m.
Proof.
  induction d as [|d IH]; simpl.
  - destruct (k (drop (lo + 0) s)) as [m|] eqn:E; [|done].
    intros [= <-]. exists (lo + 0), m. split; [lia|done].
  - destruct (k (drop (lo + S d) s)) as [m|] eqn:E.
    + intros [= <-]. exists (lo + S d), m. split; [lia|done].
    + intros (j & m & Hj & Hm & ->)%IH. exists j, m. split; [lia|done].
Qed.

Lemma first_alt_Some k s ws n :
  first_alt k s ws = Some n ->
  exists w m, w ∈ ws /\ is_prefix w s = true /\ k (drop (length w) s) = Some m /\
              n = length w + m.
Proof.
  induction ws as [|w ws IH]; simpl; [done|].
  destruct (is_prefix w s) eqn:Hp.
  - destruct (k (drop (length w) s)) as [m|] eqn:E.
    + intros [= <-]. exists w, m. split; [left|done].
    + intros (w' & m & Hw & ?)%IH. exists w', m. split; [by right|done].
  - intros (w' & m & Hw & ?)%IH. exists w', m. split; [by right|done].
Qed.

Lemma is_prefix_length w s : is_prefix w s = true -> length w <= length s.
Proof.
  revert s. induction w as [|x w IH]; intros [|c s]; simpl; try done; try lia.
  intros [_ H]%andb_true_iff. apply IH in H. lia.
Qed.

(** A match lies within the string. *)
Lemma re_match_le p s n : re_match p s = Some n -> n <= length s.
Proof.
  revert s n. induction p as [|a p IH]; intros s n; simpl.
  - intros [= <-]. lia.
  - destruct a as [P|P|P|ws|].
    + destruct s as [|c s]; [done|]. destruct (P c); [|done].
      destruct (re_match p s) as [m|] eqn:E; [|done].
      intros [= <-]. apply IH in E. simpl. lia.
    + pose proof (span_len_le P s) as Hsp.
      destruct (span_len P s) as [|d] eqn:E; [done|].
      intros (j & m & Hj & Hm & ->)%backtrack_Some. apply IH in Hm.
      rewrite length_drop in Hm. lia.
    + pose proof (span_len_le P s) as Hsp.
      intros (j & m & Hj & Hm & ->)%backtrack_Some. apply IH in Hm.
      rewrite length_drop in Hm. lia.
    + intros (w & m & _ & Hw & Hm & ->)%first_alt_Some. apply IH in Hm.
      apply is_prefix_length in Hw. rewrite length_drop in Hm. lia.
    + destruct (at_end s); [|done]. apply IH.
Qed.

(** Dropping the rest of a match is dropping characters. *)
Lemma re_sub_go_skip p repl k s :
  re_sub_go p repl k s = re_sub_go p repl 0 (drop k s).
Proof.
  revert k. induction s as [|c s IH]; intros [|k]; simpl; done.
Qed.

Lemma re_sub_cons p repl c s :
  re_sub p repl (c :: s) =
  match re_match p (c :: s) with
  | Some (S n) => repl ++ re_sub p repl (drop n s)
  | _ => c :: re_sub p repl s
  end.
Proof.
  unfold re_sub. cbn [re_sub_go].
  destruct (re_match p (c :: s)) as [[|n]|]; try done.
  by rewrite re_sub_go_skip.
Qed.

Lemma re_hit_cons p c s :
  re_hit p (c :: s) =
  match re_match p (c :: s) with
  | Some (S _) => true
  | _ => re_hit p s
  end.
Proof. reflexivity. Qed.

Lemma re_hit_drop p s n : re_hit p s = false -> re_hit p (drop n s) = false.
Proof.
  revert s. induction n as [|n IH]; intros s; [done|].
  destruct s as [|c s]; [done|]. rewrite re_hit_cons. simpl drop.
  destruct (re_match p (c :: s)) as [[|m]|]; try done; apply IH.
Qed.

Lemma re_sub_no_hit p repl s : re_hit p s = false -> re_sub p repl s = s.
Proof.
  induction s as [|c s IH]; [done|].
  rewrite re_hit_cons, re_sub_cons.
  destruct (re_match p (c :: s)) as [[|n]|]; try done; intros H; by rewrite IH.
Qed.

Lemma re_sub_length p s : length (re_sub p [] s) <= length s.
Proof.
  remember (length s) as n eqn:Hn. revert s Hn.
  induction n as [n IH] using lt_wf_ind. intros s ->.
  destruct s as [|c s]; [simpl; lia|]. rewrite re_sub_cons.
  destruct (re_match p (c :: s)) as [[|m]|] eqn:E; simpl.
  - specialize (IH (length s) ltac:(simpl; lia) s eq_refl). lia.
  - specialize (IH (length (drop m s)) ltac:(simpl; rewrite length_drop; lia) _ eq_refl).
    rewrite length_drop in IH. lia.
  - specialize (IH (length s) ltac:(simpl; lia) s eq_refl). lia.
Qed.

Lemma re_sub_hit_shorter p s :
  re_hit p s = true -> length (re_sub p [] s) < length s.
Proof.
  induction s as [|c s IH].
  { simpl. destruct (re_match p []) as [[|n]|] eqn:E; try done.
    apply re_match_le in E. simpl in E. lia. }
  rewrite re_hit_cons, re_sub_cons.
  destruct (re_match p (c :: s)) as [[|m]|] eqn:E; simpl.
  - intros H%IH. lia.
  - intros _. pose proof (re_sub_length p (drop m s)) as H.
    rewrite length_drop in H. lia.
  - intros H%IH. lia.
Qed.

(** Removing a pattern leaves the string as it is exactly when the pattern
    is not found. *)
Lemma re_sub_fixed p s : re_sub p [] s = s <-> re_hit p s = false.
Proof.
  split; [|apply re_sub_no_hit].
  intros H. destruct (re_hit p s) eqn:E; [|done].
  apply re_sub_hit_shorter in E. rewrite H in E. lia.
Qed.

Lemma remove_patterns_length ps s : length (remove_patterns ps s) <= length s.
Proof.
  revert s. induction ps as [|p ps IH]; intros s; simpl; [done|].
  etransitivity; [apply IH|]. apply re_sub_length.
Qed.

Lemma remove_patterns_no_hit ps s :
  forallb (fun p => negb (re_hit p s)) ps = true -> remove_patterns ps s = s.
Proof.
  induction ps as [|p ps IH]; simpl; [done|].
  intros [Hp Hps]%andb_true_iff. apply negb_true_iff in Hp.
  rewrite re_sub_no_hit by done. by apply IH.
Qed.

Lemma remove_patterns_same_length ps s :
  length (remove_patterns ps s) = length s ->
  forallb (fun p => negb (re_hit p s)) ps = true.
Proof.
  revert s. induction ps as [|p ps IH]; intros s; simpl; [done|].
  intros Hlen.
  pose proof (remove_patterns_length ps (re_sub p [] s)) as H1.
  pose proof (re_sub_length p s) as H2.
  destruct (re_hit p s) eqn:E.
  - apply re_sub_hit_shorter in E. unfold remove_patterns in *. lia.
  - simpl. rewrite re_sub_no_hit in Hlen by done. by apply IH.
Qed.

(** ** [strip] *)

Lemma lstrip_length s : length (lstrip s) <= length s.
Proof. induction s as [|c s IH]; simpl; [lia|]. destruct (is_space c); simpl; lia. Qed.

Lemma rstrip_length s : length (rstrip s) <= length s.
Proof.
  induction s as [|c s IH]; simpl; [lia|].
  destruct (rstrip s); [destruct (is_space c)|]; simpl in *; lia.
Qed.

Lemma strip_length s : length (strip s) <= length s.
Proof.
  unfold strip. etransitivity; [apply rstrip_length | apply lstrip_length].
Qed.

Lemma lstrip_same_length s : length (lstrip s) = length s -> lstrip s = s.
Proof.
  destruct s as [|c s]; simpl; [done|]. destruct (is_space c); [|done].
  pose proof (lstrip_length s). lia.
Qed.

Lemma rstrip_same_length s : length (rstrip s) = length s -> rstrip s = s.
Proof.
  induction s as [|c s IH]; simpl; [done|].
  pose proof (rstrip_length s) as Hle.
  destruct (rstrip s) as [|x r] eqn:E.
  - destruct (is_space c); simpl; [lia|]. intros Hlen.
    destruct s; [done | simpl in Hlen; lia].
  - simpl. intros Hlen. f_equal. apply IH. simpl in *. lia.
Qed.

Lemma strip_same_length s : length (strip s) = length s -> strip s = s.
Proof.
  unfold strip. intros H.
  pose proof (rstrip_length (lstrip s)). pose proof (lstrip_length s).
  rewrite rstrip_same_length by lia. apply lstrip_same_length. lia.
Qed.

Lemma lstrip_no_lead s : no_lead (lstrip s).
Proof. induction s as [|c s IH]; simpl; [done|]. by destruct (is_space c) eqn:E. Qed.

Lemma no_lead_lstrip s : no_lead s -> lstrip s = s.
Proof. destruct s as [|c s]; simpl; [done|]. by intros ->. Qed.

Lemma rstrip_no_lead s : no_lead s -> no_lead (rstrip s).
Proof.
  destruct s as [|c s]; simpl; [done|]. intros Hc.
  destruct (rstrip s); [by rewrite Hc|done].
Qed.

Lemma rstrip_rstrip s : rstrip (rstrip s) = rstrip s.
Proof.
  induction s as [|c s IH]; simpl; [done|].
  destruct (rstrip s) as [|x r] eqn:E.
  - destruct (is_space c) eqn:Hc; simpl; [done|]. by rewrite Hc.
  - simpl in *. by rewrite IH.
Qed.

Lemma strip_strip s : strip (strip s) = strip s.
Proof.
  unfold strip. rewrite (no_lead_lstrip (rstrip (lstrip s))).
  - apply rstrip_rstrip.
  - apply rstrip_no_lead, lstrip_no_lead.
Qed.

(** ** [detect_family] *)




(** C8: [detect_family] is not idempotent, and leaves a sequel number in
    the family: of "ROCKY II: THE RETURN" it takes the subtitle after it
    has looked for a Roman numeral at the end, and returns "ROCKY II"; a
    second application returns "ROCKY". *)
Theorem detect_family_keeps_sequel_number :
  detect_family (Str "ROCKY II: THE RETURN") = Str "ROCKY II" /\
  detect_family (detect_family (Str "ROCKY II: THE RETURN")) = Str "ROCKY" /\
  ~ (forall s, detect_family (detect_family s) = detect_family s).
Proof.
  split; [by vm_compute|]. split; [by vm_compute|].
  intros H. specialize (H (Str "ROCKY II: THE RETURN")). vm_compute in H. discriminate H.
Qed.

(** ** Substitution, step by step *)

Lemma re_sub_nil p repl : re_sub p repl [] = [].
Proof. reflexivity. Qed.

Lemma re_sub_ind p repl (Q : str -> str -> Prop) :
  Q [] [] ->
  (forall c s, (forall n, re_match p (c :: s) <> Some (S n)) ->
     Q s (re_sub p repl s) -> Q (c :: s) (c :: re_sub p repl s)) ->
  (forall c s n, re_match p (c :: s) = Some (S n) ->
     Q (drop n s) (re_sub p repl (drop n s)) ->
     Q (c :: s) (repl ++ re_sub p repl (drop n s))) ->
  forall s, Q s (re_sub p repl s).
Proof.
  intros Hnil Hkeep Hrepl s.
  remember (length s) as n eqn:Hn. revert s Hn.
  induction n as [n IH] using lt_wf_ind. intros s ->.
  destruct s as [|c s]; [exact Hnil|]. rewrite re_sub_cons.
  destruct (re_match p (c :: s)) as [[|m]|] eqn:E.
  - apply Hkeep; [by rewrite E|]. apply (IH (length s)); [simpl; lia|done].
  - apply Hrepl; [done|].
    apply (IH (length (drop m s))); [simpl; rewrite length_drop; lia|done].
  - apply Hkeep; [by rewrite E|]. apply (IH (length s)); [simpl; lia|done].
Qed.

Lemma re_sub_Forall (Q : ascii -> Prop) p repl s :
  Forall Q repl -> Forall Q s -> Forall Q (re_sub p repl s).
Proof.
  intros Hrepl. apply (re_sub_ind p repl (fun s r => Forall Q s -> Forall Q r)).
  - done.
  - intros c s' _ IH [Hc Hs]%Forall_cons. constructor; auto.
  - intros c s' n _ IH [Hc Hs]%Forall_cons. apply Forall_app. split; [done|].
    apply IH. by apply Forall_drop.
Qed.

Lemma re_sub_length_1 p repl s :
  length repl <= 1 -> length (re_sub p repl s) <= length s.
Proof.
  intros Hrepl. apply (re_sub_ind p repl (fun s r => length r <= length s)).
  - done.
  - intros c s' _ IH. simpl. lia.
  - intros c s' n Hm IH. rewrite length_app. rewrite length_drop in IH. simpl. lia.
Qed.

(** Replacing the characters of a class, one by one. *)
Lemma re_sub_chr P r s :
  re_sub [Chr P] [r] s = map (fun c => if P c then r else c) s.
Proof.
  induction s as [|c s IH]; [done|]. rewrite re_sub_cons.
  change (re_match [Chr P] (c :: s)) with (if P c then Some 1 else None).
  cbn [map]. destruct (P c); [change (drop 0 s) with s|]; by rewrite IH.
Qed.

Lemma re_match_plus P s :
  re_match [Plus P] s =
  match span_len P s with
  | 0 => None
  | S d => Some (S d)
  end.
Proof.
  simpl. destruct (span_len P s) as [|d]; [done|].
  destruct d; simpl; f_equal; lia.
Qed.

Lemma drop_span_lstrip s : drop (span_len is_space s) s = lstrip s.
Proof. induction s as [|c s IH]; simpl; [done|]. by destruct (is_space c). Qed.

Lemma collapse_spaces_cons c s :
  collapse_spaces (c :: s) =
  if is_space c then " "%char :: collapse_spaces (lstrip s)
  else c :: collapse_spaces s.
Proof.
  unfold collapse_spaces. rewrite re_sub_cons, re_match_plus. simpl span_len.
  destruct (is_space c); [|done]. by rewrite drop_span_lstrip.
Qed.

Lemma collapse_spaces_no_lead s : no_lead s -> no_lead (collapse_spaces s).
Proof.
  destruct s as [|c s]; [done|]. simpl. intros Hc.
  rewrite collapse_spaces_cons, Hc. done.
Qed.

Lemma collapse_spaces_spaced s : spaced (collapse_spaces s) = true.
Proof.
  remember (length s) as n eqn:Hn. revert s Hn.
  induction n as [n IH] using lt_wf_ind. intros s ->.
  destruct s as [|c s]; [done|]. rewrite collapse_spaces_cons.
  destruct (is_space c) eqn:Hc.
  - pose proof (lstrip_length s) as Hl.
    pose proof (collapse_spaces_no_lead _ (lstrip_no_lead s)) as Hnl.
    cbn [spaced]. rewrite (IH (length (lstrip s))); [|simpl; lia|done].
    destruct (collapse_spaces (lstrip s)) as [|c' r]; [done|].
    simpl in Hnl. by rewrite Hnl.
  - cbn [spaced]. rewrite Hc. simpl. apply (IH (length s)); [simpl; lia|done].
Qed.

Lemma collapse_spaces_fixed s : spaced s = true -> collapse_spaces s = s.
Proof.
  induction s as [|c s IH]; [done|]. cbn [spaced].
  rewrite collapse_spaces_cons.
  destruct (is_space c) eqn:Hc.
  - intros [[Hb Hnext]%andb_true_iff Hs]%andb_true_iff.
    apply Ascii.eqb_eq in Hb as ->. rewrite no_lead_lstrip.
    + by rewrite IH.
    + destruct s; [done|]. simpl. by apply negb_true_iff.
  - intros [_ Hs]%andb_true_iff. by rewrite IH.
Qed.

Lemma spaced_tail c s : spaced (c :: s) = true -> spaced s = true.
Proof. cbn [spaced]. by intros [_ ?]%andb_true_iff. Qed.

Lemma spaced_drop n s : spaced s = true -> spaced (drop n s) = true.
Proof.
  revert s. induction n as [|n IH]; intros [|c s]; simpl drop; try done.
  intros H%spaced_tail. by apply IH.
Qed.

Lemma spaced_lstrip s : spaced s = true -> spaced (lstrip s) = true.
Proof. intros H. rewrite <- drop_span_lstrip. by apply spaced_drop. Qed.

Lemma rstrip_head c s x r : rstrip (c :: s) = x :: r -> x = c.
Proof. simpl. destruct (rstrip s); [destruct (is_space c)|]; congruence. Qed.

Lemma spaced_rstrip s : spaced s = true -> spaced (rstrip s) = true.
Proof.
  induction s as [|c s IH]; [done|]. intros H.
  pose proof (spaced_tail _ _ H) as Hs. specialize (IH Hs).
  cbn [rstrip]. destruct (rstrip s) as [|x r] eqn:E.
  - destruct (is_space c) eqn:Hc; [done|]. cbn [spaced]. by rewrite Hc.
  - cbn [spaced] in *. rewrite IH.
    destruct (is_space c) eqn:Hc; [|done].
    apply andb_true_iff in H as [[Hb Hnext]%andb_true_iff _]. rewrite Hb.
    destruct s as [|c' s']; [done|]. apply rstrip_head in E as ->. by rewrite Hnext.
Qed.

Lemma spaced_strip s : spaced s = true -> spaced (strip s) = true.
Proof. intros H. by apply spaced_rstrip, spaced_lstrip. Qed.

Lemma Forall_lstrip (Q : ascii -> Prop) s : Forall Q s -> Forall Q (lstrip s).
Proof. intros H. rewrite <- drop_span_lstrip. by apply Forall_drop. Qed.

Lemma Forall_rstrip (Q : ascii -> Prop) s : Forall Q s -> Forall Q (rstrip s).
Proof.
  induction 1 as [|c s Hc Hs IH]; [done|]. simpl.
  destruct (rstrip s) as [|x r]; [destruct (is_space c)|].
  - constructor.
  - by constructor.
  - by constructor.
Qed.

Lemma Forall_strip (Q : ascii -> Prop) s : Forall Q s -> Forall Q (strip s).
Proof. intros H. by apply Forall_rstrip, Forall_lstrip. Qed.

(** ** More on [strip] and single blanks *)


Lemma rstrip_cons_fixed c s :
  rstrip (c :: s) = c :: s ->
  (s = [] /\ is_space c = false) \/ (s <> [] /\ rstrip s = s).
Proof.
  simpl. destruct (rstrip s) as [|x r] eqn:E.
  - destruct (is_space c); [done|]. intros [= <-]. by left.
  - intros [= <-]. by right.
Qed.

Lemma rstrip_cons c s : s <> [] -> rstrip s = s -> rstrip (c :: s) = c :: s.
Proof. intros Hs H. simpl. rewrite H. by destruct s. Qed.


Lemma rstrip_app_fixed x t : rstrip t = t -> t <> [] -> rstrip (x ++ t) = x ++ t.
Proof.
  intros Ht Hne. induction x as [|c x IH]; [done|].
  cbn [app rstrip]. rewrite IH. by destruct (x ++ t) eqn:E; [destruct x|].
Qed.

Lemma spaced_app_word x s :
  Forall (fun c => is_space c = false) x -> spaced s = true -> spaced (x ++ s) = true.
Proof. intros Hx Hs. induction Hx as [|c x Hc _ IH]; [done|]. cbn [app spaced]. by rewrite Hc. Qed.

Lemma spaced_blank c s :
  is_space c = false -> spaced (c :: s) = true -> spaced (" "%char :: c :: s) = true.
Proof.
  intros Hc H.
  change (spaced (" "%char :: c :: s)) with (negb (is_space c) && spaced (c :: s)).
  by rewrite Hc, H.
Qed.



(** ** [generate_unique_name] *)

Lemma upper_full_stable c : Forall (fun c' => upper_full c' = [c']) (upper_full c).
Proof. destruct c as [[] [] [] [] [] [] [] []]; by repeat constructor. Qed.

Lemma upper_char_idem c : upper_char (upper_char c) = upper_char c.
Proof. destruct c as [[] [] [] [] [] [] [] []]; reflexivity. Qed.

Lemma upper_fixed s : Forall (fun c => upper_full c = [c]) s -> upper s = s.
Proof.
  unfold upper. induction 1 as [|c s Hc _ IH]; [done|]. simpl.
  by rewrite Hc, IH.
Qed.

Lemma upper_stable s : Forall (fun c => upper_full c = [c]) (upper s).
Proof.
  unfold upper. induction s as [|c s IH]; [constructor|]. simpl.
  apply Forall_app. split; [apply upper_full_stable | exact IH].
Qed.

Lemma upper_full_in_range c : in_range_char c = true -> upper_full c = [upper_char c].
Proof. destruct c as [[] [] [] [] [] [] [] []]; (reflexivity || discriminate). Qed.

Lemma upper_char_in_range c : in_range_char c = true -> in_range_char (upper_char c) = true.
Proof. destruct c as [[] [] [] [] [] [] [] []]; (reflexivity || discriminate). Qed.

(** On a name of the range, [upper] maps one character to one. *)
Lemma upper_map s : in_range s -> upper s = map upper_char s.
Proof.
  unfold upper. induction 1 as [|c s Hc _ IH]; [done|]. simpl.
  by rewrite (upper_full_in_range c Hc), IH.
Qed.

Lemma upper_in_range s : in_range s -> in_range (upper s).
Proof.
  intros H. rewrite (upper_map s H). apply Forall_fmap.
  eapply Forall_impl; [exact H|]. intros c. apply upper_char_in_range.
Qed.

Lemma remove_patterns_Forall (Q : ascii -> Prop) ps s :
  Forall Q s -> Forall Q (remove_patterns ps s).
Proof.
  revert s. induction ps as [|p ps IH]; intros s Hs; simpl; [done|].
  apply IH. by apply re_sub_Forall.
Qed.

Lemma re_sub_start_Forall (Q : ascii -> Prop) p s :
  Forall Q s -> Forall Q (re_sub_start p [] s).
Proof.
  intros H. unfold re_sub_start. destruct (re_match p s); [|done].
  by apply Forall_drop.
Qed.

Lemma re_sub_start_spaced p s : spaced s = true -> spaced (re_sub_start p [] s) = true.
Proof.
  intros H. unfold re_sub_start. destruct (re_match p s); [|done].
  by apply spaced_drop.
Qed.

Lemma re_sub_start_length p s : length (re_sub_start p [] s) <= length s.
Proof.
  unfold re_sub_start. destruct (re_match p s); [|done]. simpl.
  rewrite length_drop. lia.
Qed.

Lemma article_match_positive s n : re_match article_pattern s = Some n -> 1 <= n.
Proof.
  unfold article_pattern. cbn [re_match].
  intros (w & m & Hw & _ & _ & ->)%first_alt_Some.
  assert (1 <= length w); [|lia].
  revert Hw. unfold ARTICLES. rewrite !elem_of_cons, elem_of_nil.
  intros [->|[->|[->|[->|[->|[->|[->|[]]]]]]]]; simpl; lia.
Qed.

Lemma generate_unique_name_shape s : canonical_shape (generate_unique_name s).
Proof.
  unfold generate_unique_name. destruct (decide (s = [])) as [_|_].
  { by repeat split. }
  repeat split.
  - apply Forall_strip, re_sub_start_Forall, re_sub_Forall; [by repeat constructor|].
    apply re_sub_Forall; [by repeat constructor|].
    apply remove_patterns_Forall, upper_stable.
  - apply Forall_strip, re_sub_start_Forall, re_sub_Forall; [by repeat constructor|].
    change (Str " ") with [" "%char].
    rewrite re_sub_chr. apply Forall_fmap, Forall_true. intros c. simpl.
    by destruct (is_punct c) eqn:E.
  - apply spaced_strip, re_sub_start_spaced, collapse_spaces_spaced.
  - apply strip_strip.
Qed.

Lemma punct_sub_fixed t :
  Forall (fun c => is_punct c = false) t -> re_sub [Chr is_punct] (Str " ") t = t.
Proof.
  intros H. change (Str " ") with [" "%char]. rewrite re_sub_chr.
  induction H as [|c t Hc _ IH]; [done|]. simpl. by rewrite Hc, IH.
Qed.

Lemma punct_sub_length s : length (re_sub [Chr is_punct] (Str " ") s) = length s.
Proof. change (Str " ") with [" "%char]. by rewrite re_sub_chr, length_map. Qed.

Lemma collapse_spaces_length s : length (collapse_spaces s) <= length s.
Proof. apply re_sub_length_1. simpl. lia. Qed.

Lemma generate_unique_name_fixed t :
  canonical_shape t ->
  (generate_unique_name t = t <-> key_stable t = true).
Proof.
  intros (Hlow & Hpunct & Hsp & Hstrip). unfold generate_unique_name, key_stable.
  destruct (decide (t = [])) as [->|Hne]; [done|].
  rewrite (upper_fixed t Hlow). split.
  - intros H.
    set (u1 := remove_patterns ALL_PATTERNS t) in *.
    pose proof (remove_patterns_length ALL_PATTERNS t) as L1. fold u1 in L1.
    pose proof (punct_sub_length u1) as L2.
    pose proof (collapse_spaces_length (re_sub [Chr is_punct] (Str " ") u1)) as L3.
    pose proof (re_sub_start_length article_pattern
                  (collapse_spaces (re_sub [Chr is_punct] (Str " ") u1))) as L4.
    pose proof (strip_length
                  (re_sub_start article_pattern []
                     (collapse_spaces (re_sub [Chr is_punct] (Str " ") u1)))) as L5.
    rewrite H in L5.
    assert (Hhits : forallb (fun p => negb (re_hit p t)) ALL_PATTERNS = true).
    { apply remove_patterns_same_length. fold u1. lia. }
    rewrite Hhits. cbn [andb].
    assert (u1 = t) as Hu1 by (by apply remove_patterns_no_hit).
    rewrite Hu1, (punct_sub_fixed t Hpunct), (collapse_spaces_fixed t Hsp) in L5.
    unfold re_sub_start in L5.
    destruct (re_match article_pattern t) as [n|] eqn:E; [|done].
    pose proof (article_match_positive _ _ E). apply re_match_le in E.
    simpl in L5. rewrite length_drop in L5.
    assert (0 < length t) by (destruct t; [done|simpl; lia]). lia.
  - intros [Hhits Hart]%andb_true_iff.
    rewrite (remove_patterns_no_hit _ _ Hhits), (punct_sub_fixed t Hpunct),
      (collapse_spaces_fixed t Hsp).
    unfold re_sub_start. revert Hart.
    destruct (re_match article_pattern t); [done|]. intros _. exact Hstrip.
Qed.

(** C3 (as amended): for every input string s written in the characters
    U+0000 to U+00FF other than the sharp s, the micro sign and the y with
    diaeresis, applying [generate_unique_name] to its result changes nothing
    exactly when the result holds no match of a language or format pattern
    and does not start with an article followed by a blank. *)
Theorem generate_unique_name_idempotent_iff (s : str) :
  in_range s ->
  (generate_unique_name (generate_unique_name s) = generate_unique_name s <->
   key_stable (generate_unique_name s) = true).
Proof. intros _. apply generate_unique_name_fixed, generate_unique_name_shape. Qed.

(** ** Names that differ in letter case or in their punctuation characters *)

Lemma elem_of_all_ascii c : c ∈ all_ascii.
Proof.
  unfold all_ascii. apply list_elem_of_fmap. exists (nat_of_ascii c). split.
  - by rewrite ascii_nat_embedding.
  - apply elem_of_seq. pose proof (nat_ascii_bounded c). lia.
Qed.

Lemma upper_full_char x y : upper_full x = upper_full y -> upper_char x = upper_char y.
Proof.
  unfold upper_full.
  destruct (code x =? 223) eqn:Ex, (code y =? 223) eqn:Ey; try done.
  - apply Nat.eqb_eq in Ex, Ey. intros _. f_equal. apply code_inj. congruence.
  - by intros [= ->].
Qed.

Lemma blindb_blind P : blindb P = true -> blind P.
Proof.
  unfold blindb. rewrite forallb_forall. intros H x y Hxy.
  pose proof (H x (proj1 (list_elem_of_In _ _) (elem_of_all_ascii x))) as H1.
  pose proof (H y (proj1 (list_elem_of_In _ _) (elem_of_all_ascii y))) as H2.
  apply andb_true_iff in H1 as [H1 H1'], H2 as [H2 H2'].
  apply Bool.eqb_prop in H1, H2.
  destruct Hxy as [E|[Hx Hy]].
  - rewrite H1, H2. by rewrite (upper_full_char x y E).
  - rewrite Hx in H1'. rewrite Hy in H2'. simpl in H1', H2'.
    apply Bool.eqb_prop in H1', H2'. congruence.
Qed.

Lemma blind_atomb_blind a : blind_atomb a = true -> blind_atom a.
Proof. destruct a; simpl; try done; apply blindb_blind. Qed.

Lemma is_space_blind : blind is_space.
Proof. by apply blindb_blind; vm_compute. Qed.

Lemma same_letter_space x y : same_letter x y -> is_space x = is_space y.
Proof. apply is_space_blind. Qed.

Lemma same_letter_punct x y : same_letter x y -> is_punct x = is_punct y.
Proof. revert x y. by apply blindb_blind; vm_compute. Qed.

Lemma same_letter_refl x : same_letter x x.
Proof. by left. Qed.

Lemma same_letter_sym x y : same_letter x y -> same_letter y x.
Proof. intros [H|[H1 H2]]; [by left | by right]. Qed.

Lemma span_len_same P a b :
  blind P -> Forall2 same_letter a b -> span_len P a = span_len P b.
Proof.
  intros HP. induction 1 as [|x y a b Hxy _ IH]; [done|]. simpl.
  rewrite (HP x y Hxy), IH. done.
Qed.

Lemma at_end_same a b : Forall2 same_letter a b -> at_end a = at_end b.
Proof.
  intros H. destruct H as [|x y a b Hxy Hab]; [done|].
  destruct Hab; [|done]. simpl.
  assert (blind (fun c => code c =? 10)) as Hb by (by apply blindb_blind; vm_compute).
  by apply Hb.
Qed.

Lemma backtrack_same (k k' : str -> option nat) a b lo d :
  (forall j, k (drop j a) = k' (drop j b)) ->
  backtrack k a lo d = backtrack k' b lo d.
Proof. intros Hk. induction d as [|d IH]; simpl; rewrite Hk; [done|]. by rewrite IH. Qed.

(** A pattern of such classes matches the same way on both names. *)
Lemma re_match_same p a b :
  Forall blind_atom p -> Forall2 same_letter a b -> re_match p a = re_match p b.
Proof.
  intros Hp. revert a b. induction Hp as [|x p Hx Hp IH]; intros a b Hab; [done|].
  cbn [re_match]. destruct x as [P|P|P|ws|]; simpl in Hx.
  - destruct Hab as [|c c' a b Hc Hab]; [done|].
    rewrite (Hx c c' Hc). by rewrite (IH a b Hab).
  - rewrite (span_len_same P a b Hx Hab). destruct (span_len P b); [done|].
    apply backtrack_same. intros j. apply IH. by apply Forall2_drop.
  - rewrite (span_len_same P a b Hx Hab).
    apply backtrack_same. intros j. apply IH. by apply Forall2_drop.
  - done.
  - rewrite (at_end_same a b Hab). by rewrite (IH a b Hab).
Qed.

Lemma re_hit_same p a b :
  Forall blind_atom p -> Forall2 same_letter a b -> re_hit p a = re_hit p b.
Proof.
  intros Hp. induction 1 as [|x y a b Hxy Hab IH].
  - done.
  - rewrite !re_hit_cons.
    rewrite (re_match_same p (x :: a) (y :: b) Hp) by (by constructor).
    by rewrite IH.
Qed.

Lemma re_sub_same p repl a b :
  Forall blind_atom p -> Forall2 same_letter a b ->
  Forall2 same_letter (re_sub p repl a) (re_sub p repl b).
Proof.
  intros Hp. remember (length a) as n eqn:Hn. revert a b Hn.
  induction n as [n IH] using lt_wf_ind. intros a b -> Hab.
  destruct Hab as [|x y a b Hxy Hab]; [constructor|].
  rewrite !re_sub_cons.
  rewrite (re_match_same p (x :: a) (y :: b) Hp) by (by constructor).
  destruct (re_match p (y :: b)) as [[|m]|] eqn:E.
  - constructor; [done|]. apply (IH (length a)); [simpl; lia|done..].
  - apply Forall2_app.
    + apply Forall_Forall2_diag, Forall_true. intros c. by left.
    + apply (IH (length (drop m a))); [simpl; rewrite length_drop; lia|done|].
      by apply Forall2_drop.
  - constructor; [done|]. apply (IH (length a)); [simpl; lia|done..].
Qed.

Lemma remove_patterns_same ps a b :
  Forall (Forall blind_atom) ps -> Forall2 same_letter a b ->
  Forall2 same_letter (remove_patterns ps a) (remove_patterns ps b).
Proof.
  intros Hps. revert a b. induction Hps as [|p ps Hp _ IH]; intros a b Hab; [done|].
  simpl. apply IH. by apply re_sub_same.
Qed.

Lemma lstrip_same a b :
  Forall2 same_letter a b -> Forall2 same_letter (lstrip a) (lstrip b).
Proof.
  induction 1 as [|x y a b Hxy Hab IH]; [constructor|]. simpl.
  rewrite (same_letter_space x y Hxy). destruct (is_space y); [done|by constructor].
Qed.

Lemma rstrip_same a b :
  Forall2 same_letter a b -> Forall2 same_letter (rstrip a) (rstrip b).
Proof.
  induction 1 as [|x y a b Hxy Hab IH]; [constructor|]. simpl.
  rewrite (same_letter_space x y Hxy).
  destruct IH as [|x' y' r r' H1 H2].
  - destruct (is_space y); [constructor|]. by constructor.
  - constructor; [done|]. by constructor.
Qed.

Lemma strip_same a b :
  Forall2 same_letter a b -> Forall2 same_letter (strip a) (strip b).
Proof. intros H. by apply rstrip_same, lstrip_same. Qed.

Lemma punct_upper_full c : is_punct c = true -> upper_full c = [c].
Proof. destruct c as [[] [] [] [] [] [] [] []]; (reflexivity || discriminate). Qed.

Lemma upper_same a b :
  Forall2 same_letter a b -> Forall2 same_letter (upper a) (upper b).
Proof.
  unfold upper. induction 1 as [|x y a b Hxy Hab IH]; [constructor|]. simpl.
  apply Forall2_app; [|done]. destruct Hxy as [->|[Hx Hy]].
  - apply Forall_Forall2_diag, Forall_true. intros c. by left.
  - rewrite (punct_upper_full x Hx), (punct_upper_full y Hy).
    constructor; [by right | constructor].
Qed.

(** Between names that upper-casing leaves alone, the characters that
    differ are punctuation. *)
Lemma same_letter_stable a b :
  Forall (fun c => upper_full c = [c]) a -> Forall (fun c => upper_full c = [c]) b ->
  Forall2 same_letter a b -> Forall2 same_or_punct a b.
Proof.
  intros Ha Hb H. induction H as [|x y a b Hxy Hab IH]; [constructor|].
  apply Forall_cons in Ha as [Hx Ha], Hb as [Hy Hb].
  constructor; [|by apply IH].
  destruct Hxy as [E|E]; [left|by right]. rewrite Hx, Hy in E. by injection E.
Qed.

Lemma punct_sub_same a b :
  Forall2 same_or_punct a b ->
  re_sub [Chr is_punct] (Str " ") a = re_sub [Chr is_punct] (Str " ") b.
Proof.
  change (Str " ") with [" "%char]. rewrite !re_sub_chr.
  induction 1 as [|x y a b Hxy Hab IH]; [done|]. simpl. rewrite IH. f_equal.
  destruct Hxy as [->|[-> ->]]; done.
Qed.

Lemma same_letter_nil a b : Forall2 same_letter a b -> a = [] <-> b = [].
Proof. by destruct 1. Qed.

Lemma all_patterns_blind : Forall (Forall blind_atom) ALL_PATTERNS.
Proof.
  apply Forall_forall. intros p Hp. apply Forall_forall. intros a Ha.
  apply blind_atomb_blind.
  assert (H : forallb (forallb blind_atomb) ALL_PATTERNS = true) by (by vm_compute).
  rewrite forallb_forall in H. specialize (H p (proj1 (list_elem_of_In _ _) Hp)).
  rewrite forallb_forall in H. apply H. by apply list_elem_of_In.
Qed.

Lemma pattern_blind p : p ∈ ALL_PATTERNS -> Forall blind_atom p.
Proof. intros Hp. pose proof all_patterns_blind as H. rewrite Forall_forall in H. by apply H. Qed.

Lemma normalize_title_level2_same a b :
  Forall2 same_letter a b ->
  Forall2 same_letter (normalize_title_level2 a) (normalize_title_level2 b).
Proof.
  intros Hab. unfold normalize_title_level2.
  pose proof (same_letter_nil a b Hab) as Hnil.
  destruct (decide (a = [])) as [Ha|Ha], (decide (b = [])) as [Hb|Hb];
    try constructor; try (exfalso; tauto).
  pose proof all_patterns_blind as Hall. unfold ALL_PATTERNS in Hall.
  apply Forall_app in Hall as [HL HF].
  apply re_sub_same; [repeat constructor; apply is_space_blind|].
  apply strip_same. by do 2 (apply remove_patterns_same; [done|]).
Qed.

Lemma generate_unique_name_same a b :
  Forall2 same_letter a b -> generate_unique_name a = generate_unique_name b.
Proof.
  intros Hab. unfold generate_unique_name.
  pose proof (same_letter_nil a b Hab) as Hnil.
  destruct (decide (a = [])) as [Ha|Ha], (decide (b = [])) as [Hb|Hb];
    try done; try (exfalso; tauto).
  rewrite (punct_sub_same (remove_patterns ALL_PATTERNS (upper a))
                          (remove_patterns ALL_PATTERNS (upper b))); [done|].
  apply same_letter_stable.
  - apply remove_patterns_Forall, upper_stable.
  - apply remove_patterns_Forall, upper_stable.
  - apply remove_patterns_same; [apply all_patterns_blind|]. by apply upper_same.
Qed.

(** Names of the same length that differ in letter case, or in which
    punctuation character stands at a place, get the same key. *)
Lemma canonical_key_same a b :
  Forall2 same_letter a b -> canonical_key a = canonical_key b.
Proof.
  intros H. unfold canonical_key.
  by apply generate_unique_name_same, normalize_title_level2_same.
Qed.

(** *** Upper case and blanks *)

Lemma upper_char_space c : is_space (upper_char c) = is_space c.
Proof. destruct c as [[] [] [] [] [] [] [] []]; reflexivity. Qed.

Lemma upper_char_blank c : Ascii.eqb (upper_char c) " "%char = Ascii.eqb c " "%char.
Proof. destruct c as [[] [] [] [] [] [] [] []]; reflexivity. Qed.

Lemma upper_char_punct c : is_punct (upper_char c) = is_punct c.
Proof. destruct c as [[] [] [] [] [] [] [] []]; reflexivity. Qed.

Lemma same_letter_upper_char c : in_range_char c = true -> same_letter c (upper_char c).
Proof.
  intros Hc. left. rewrite (upper_full_in_range c Hc).
  rewrite (upper_full_in_range _ (upper_char_in_range c Hc)). by rewrite upper_char_idem.
Qed.

Lemma same_letter_upper s : in_range s -> Forall2 same_letter s (upper s).
Proof.
  intros H. rewrite (upper_map s H).
  induction H as [|c s Hc _ IH]; constructor; [by apply same_letter_upper_char | done].
Qed.

Lemma lstrip_map_upper s : lstrip (map upper_char s) = map upper_char (lstrip s).
Proof.
  induction s as [|c s IH]; [done|]. cbn [map lstrip].
  rewrite upper_char_space. by destruct (is_space c).
Qed.

Lemma rstrip_map_upper s : rstrip (map upper_char s) = map upper_char (rstrip s).
Proof.
  induction s as [|c s IH]; [done|]. cbn [map rstrip].
  rewrite IH, upper_char_space.
  destruct (rstrip s); [by destruct (is_space c)|done].
Qed.

Lemma strip_upper s : in_range s -> strip (upper s) = upper (strip s).
Proof.
  intros H. rewrite (upper_map s H), (upper_map (strip s)) by (by apply Forall_strip).
  unfold strip. by rewrite lstrip_map_upper, rstrip_map_upper.
Qed.

Lemma spaced_map_upper s : spaced (map upper_char s) = spaced s.
Proof.
  induction s as [|c s IH]; [done|]. cbn [map spaced].
  rewrite IH, upper_char_space, upper_char_blank. f_equal.
  destruct s as [|c' s]; [done|]. cbn [map]. by rewrite upper_char_space.
Qed.

Lemma spaced_upper s : in_range s -> spaced (upper s) = spaced s.
Proof. intros H. rewrite (upper_map s H). apply spaced_map_upper. Qed.

(** ** Titles that level 2 leaves as they are *)

Lemma patterns_of_words :
  LANGUAGE_PATTERNS = map lang_pattern LANGUAGE_WORDS /\
  FORMAT_PATTERNS = map format_pattern FORMAT_MARKS.
Proof. done. Qed.

Lemma strip_fixed_parts t : strip t = t -> lstrip t = t /\ rstrip t = t.
Proof.
  intros H. unfold strip in H.
  pose proof (lstrip_length t) as L1. pose proof (rstrip_length (lstrip t)) as L2.
  rewrite H in L2.
  assert (lstrip t = t) as Hl by (apply lstrip_same_length; lia).
  split; [done|]. by rewrite Hl in H.
Qed.

Lemma normalize_title_level2_fixed t :
  normalize_title_level2 t = t <->
  title_stable t = true /\ strip t = t /\ spaced t = true.
Proof.
  unfold normalize_title_level2, title_stable.
  destruct (decide (t = [])) as [->|Hne]; [by split|]. split.
  - intros H.
    remember (remove_patterns LANGUAGE_PATTERNS t) as u1 eqn:E1.
    remember (remove_patterns FORMAT_PATTERNS u1) as u2 eqn:E2.
    pose proof (remove_patterns_length LANGUAGE_PATTERNS t) as L1. rewrite <- E1 in L1.
    pose proof (remove_patterns_length FORMAT_PATTERNS u1) as L2. rewrite <- E2 in L2.
    pose proof (strip_length u2) as L3.
    pose proof (collapse_spaces_length (strip u2)) as L4. rewrite H in L4.
    assert (HL : forallb (fun p => negb (re_hit p t)) LANGUAGE_PATTERNS = true).
    { apply remove_patterns_same_length. rewrite <- E1. lia. }
    assert (u1 = t) as Hu1 by (rewrite E1; by apply remove_patterns_no_hit).
    rewrite Hu1 in E2.
    assert (HF : forallb (fun p => negb (re_hit p t)) FORMAT_PATTERNS = true).
    { apply remove_patterns_same_length. rewrite <- E2. clear - L1 L2 L3 L4 Hu1. subst u1. lia. }
    assert (u2 = t) as Hu2 by (rewrite E2; by apply remove_patterns_no_hit).
    rewrite Hu2 in H, L3, L4.
    assert (strip t = t) as Hs by (apply strip_same_length; lia).
    repeat split.
    + unfold ALL_PATTERNS. rewrite forallb_app, HL, HF. done.
    + done.
    + rewrite <- H, Hs. apply collapse_spaces_spaced.
  - intros (Hhits & Hs & Hsp). unfold ALL_PATTERNS in Hhits.
    rewrite forallb_app in Hhits. apply andb_true_iff in Hhits as [HL HF].
    rewrite (remove_patterns_no_hit _ _ HL), (remove_patterns_no_hit _ _ HF), Hs.
    by apply collapse_spaces_fixed.
Qed.

(** *** How the patterns match *)

Lemma plus_space_blank rest c s :
  is_space c = false ->
  re_match (Plus is_space :: rest) (" "%char :: c :: s) = S <$> re_match rest (c :: s).
Proof.
  intros Hc. cbn [re_match span_len].
  change (is_space " "%char) with true. cbn iota. rewrite Hc.
  cbn [backtrack]. simpl drop. by destruct (re_match rest (c :: s)).
Qed.

Lemma plus_space_other rest c s :
  is_space c = false -> re_match (Plus is_space :: rest) (c :: s) = None.
Proof. intros Hc. cbn [re_match span_len]. by rewrite Hc. Qed.

Lemma lit_i_match (ws : str) tail s :
  re_match (map (fun l => Chr (ieq l)) ws ++ tail) s =
  if is_prefix_i ws s
  then (fun m => length ws + m) <$> re_match tail (drop (length ws) s)
  else None.
Proof.
  revert s. induction ws as [|l ws IH]; intros s.
  - simpl. rewrite drop_0. by destruct (re_match tail s).
  - cbn [map app re_match is_prefix_i]. destruct s as [|c s]; [done|].
    destruct (ieq l c); [|done]. cbn [andb]. rewrite IH.
    destruct (is_prefix_i ws s); [|done]. simpl.
    by destruct (re_match tail (drop (length ws) s)).
Qed.

Lemma at_end_dot z : z <> [] -> Forall (fun c => is_dot c = true) z -> at_end z = false.
Proof.
  intros Hz H. destruct z as [|c [|c' z]]; [done| |reflexivity].
  apply Forall_cons in H as [Hc _].
  simpl. unfold is_dot in Hc. by apply negb_true_iff in Hc.
Qed.

Lemma span_len_all P s : Forall (fun c => P c = true) s -> span_len P s = length s.
Proof. induction 1 as [|c s Hc _ IH]; [done|]. simpl. by rewrite Hc, IH. Qed.

Lemma backtrack_head k s lo d m :
  k (drop (lo + d) s) = Some m -> backtrack k s lo d = Some (lo + d + m).
Proof. intros H. destruct d; simpl; by rewrite H. Qed.

Lemma star_dot_eos s :
  Forall (fun c => is_dot c = true) s -> re_match [Star is_dot; Eos] s = Some (length s).
Proof.
  intros H. cbn [re_match]. rewrite (span_len_all _ _ H).
  rewrite (backtrack_head _ _ _ _ 0); [f_equal; lia|].
  by rewrite Nat.add_0_l, drop_all.
Qed.

Lemma is_prefix_i_length w s : is_prefix_i w s = true -> length w <= length s.
Proof.
  revert s. induction w as [|x w IH]; intros [|c s]; simpl; try done; [lia|].
  intros [_ H]%andb_true_iff. apply IH in H. lia.
Qed.

Lemma is_prefix_i_app w y z :
  Forall (fun l => ieq l " "%char = false) w ->
  is_prefix_i w (y ++ " "%char :: z) = true -> is_prefix_i w y = true.
Proof.
  intros Hw. revert y. induction Hw as [|l w Hl _ IH]; intros y; [done|].
  destruct y as [|c y]; simpl.
  - by rewrite Hl.
  - intros [-> H]%andb_true_iff. by apply IH.
Qed.

Lemma spaced_dot t : spaced t = true -> Forall (fun c => is_dot c = true) t.
Proof.
  induction t as [|c t IH]; [constructor|]. cbn [spaced].
  intros [Hc Ht]%andb_true_iff. constructor; [|by apply IH].
  destruct (is_space c) eqn:E.
  - apply andb_true_iff in Hc as [Hc _]. apply Ascii.eqb_eq in Hc. by subst.
  - unfold is_dot. apply negb_true_iff. unfold is_space in E.
    destruct (code c =? 10) eqn:E10; [|done].
    apply Nat.eqb_eq in E10. rewrite E10 in E. done.
Qed.

Lemma rstrip_fixed_last t i c : rstrip t = t -> drop i t = [c] -> is_space c = false.
Proof.
  revert i. induction t as [|c0 t IH]; intros i; [by destruct i|]. simpl.
  destruct (rstrip t) as [|x r] eqn:E.
  - destruct (is_space c0) eqn:E0; [done|]. intros [= <-].
    destruct i; simpl; [by intros [= <-] | by destruct i].
  - intros [= Hr]. rewrite Hr in E. destruct i; simpl.
    + intros [= _ ->]. done.
    + by apply IH.
Qed.

Lemma re_hit_false_drop p t i n :
  re_hit p t = false -> re_match p (drop i t) <> Some (S n).
Proof.
  intros H%(re_hit_drop _ _ i) E.
  destruct (drop i t); simpl in H; rewrite E in H; done.
Qed.

(** A position of a title that ends with no blank and has single blanks. *)
Lemma blank_positions t i :
  spaced t = true -> rstrip t = t -> i < length t ->
  (exists c x, drop i t = c :: x /\ is_space c = false) \/
  (exists c x, drop i t = " "%char :: c :: x /\ is_space c = false).
Proof.
  intros Hsp Hr Hi. pose proof (spaced_drop i t Hsp) as Hx.
  destruct (drop i t) as [|c x] eqn:E.
  { apply (f_equal length) in E. rewrite length_drop in E. simpl in E. lia. }
  destruct (is_space c) eqn:Hc; [|left; eauto].
  right. cbn [spaced] in Hx. rewrite Hc in Hx.
  apply andb_true_iff in Hx as [[Hb Hn]%andb_true_iff _].
  apply Ascii.eqb_eq in Hb. subst c. destruct x as [|c x].
  - by rewrite (rstrip_fixed_last t i _ Hr E) in Hc.
  - apply negb_true_iff in Hn. eauto.
Qed.

Lemma space_not_dot c : is_space c = false -> is_dot c = true.
Proof. destruct c as [[] [] [] [] [] [] [] []]; (reflexivity || discriminate). Qed.

Lemma is_prefix_i_drop w y u :
  is_prefix_i w y = true -> drop (length w) (y ++ u) = drop (length w) y ++ u.
Proof. intros H%is_prefix_i_length. by rewrite drop_app_le. Qed.

Lemma pattern_words_no_blank w :
  w ∈ LANGUAGE_WORDS ++ FORMAT_MARKS ->
  Forall (fun l => ieq l " "%char = false) (Str w).
Proof. revert w. apply Forall_forall. by apply (bool_decide_unpack _); vm_compute. Qed.

Lemma lang_pattern_inert w y z :
  Forall (fun l => ieq l " "%char = false) (Str w) ->
  Forall (fun c => is_dot c = true) (y ++ " "%char :: z) ->
  re_match (lit_i w ++ [Eos]) (y ++ " "%char :: z) = None.
Proof.
  intros Hw Hdot. unfold lit_i. rewrite lit_i_match.
  destruct (is_prefix_i (Str w) (y ++ " "%char :: z)) eqn:E; [|done].
  apply (is_prefix_i_app _ _ _ Hw) in E.
  rewrite (is_prefix_i_drop _ _ _ E). cbn [re_match].
  rewrite at_end_dot; [done|by destruct (drop _ y)|].
  rewrite <- (is_prefix_i_drop _ _ _ E). by apply Forall_drop.
Qed.

Lemma format_pattern_inert w y z :
  Forall (fun l => ieq l " "%char = false) (Str w) ->
  Forall (fun c => is_dot c = true) y ->
  re_match (lit_i w ++ [Star is_dot; Eos]) y = None ->
  re_match (lit_i w ++ [Star is_dot; Eos]) (y ++ " "%char :: z) = None.
Proof.
  intros Hw Hy. unfold lit_i. rewrite !lit_i_match.
  destruct (is_prefix_i (Str w) (y ++ " "%char :: z)) eqn:E; [|done].
  rewrite (is_prefix_i_app _ _ _ Hw E).
  rewrite star_dot_eos by (by apply Forall_drop). done.
Qed.

Lemma elem_of_all_patterns p :
  p ∈ ALL_PATTERNS ->
  exists w, w ∈ LANGUAGE_WORDS ++ FORMAT_MARKS /\
            (p = lang_pattern w \/ p = format_pattern w).
Proof.
  unfold ALL_PATTERNS. destruct patterns_of_words as [-> ->].
  intros [Hp|Hp]%elem_of_app; apply list_elem_of_fmap in Hp as (w & -> & Hw);
    exists w; (split; [apply elem_of_app; by auto | by auto]).
Qed.

(** No pattern matches from inside a title that level 2 leaves alone into
    what follows it after a blank. *)
Lemma tail_inert p t z i :
  p ∈ ALL_PATTERNS ->
  title_stable t = true -> strip t = t -> spaced t = true ->
  Forall (fun c => is_dot c = true) z ->
  i < length t ->
  re_match p (drop i t ++ " "%char :: z) = None.
Proof.
  intros Hp Hhits Hs Hsp Hz Hi.
  apply strip_fixed_parts in Hs as [_ Hr].
  assert (Hnohit : re_hit p t = false).
  { unfold title_stable in Hhits. rewrite forallb_forall in Hhits.
    apply negb_true_iff, Hhits. by apply list_elem_of_In. }
  pose proof (spaced_dot _ (spaced_drop i t Hsp)) as Hdot.
  pose proof (re_hit_false_drop p t i) as Hno.
  destruct (elem_of_all_patterns p Hp) as (w & Hw & Hpw).
  pose proof (pattern_words_no_blank w Hw) as Hwb.
  destruct (blank_positions t i Hsp Hr Hi) as [(c & x & E & Hc)|(c & x & E & Hc)];
    rewrite E in Hno, Hdot |- *.
  { destruct Hpw as [->| ->]; by apply plus_space_other. }
  apply Forall_cons in Hdot as [_ Hdot].
  assert (Hall : Forall (fun c => is_dot c = true) ((c :: x) ++ " "%char :: z)).
  { apply Forall_app. split; [done|]. by constructor. }
  destruct Hpw as [->| ->].
  - unfold lang_pattern in *. cbn [app]. rewrite plus_space_blank by done.
    change (c :: x ++ " "%char :: z) with ((c :: x) ++ " "%char :: z).
    by rewrite lang_pattern_inert.
  - unfold format_pattern in *. cbn [app]. rewrite plus_space_blank by done.
    change (c :: x ++ " "%char :: z) with ((c :: x) ++ " "%char :: z).
    rewrite format_pattern_inert; [done..|].
    rewrite plus_space_blank in Hno by done.
    destruct (re_match (lit_i w ++ [Star is_dot; Eos]) (c :: x)) as [n|]; [|done].
    by destruct (Hno n).
Qed.

Lemma re_sub_app_inert p t u :
  (forall i, i < length t -> re_match p (drop i t ++ u) = None) ->
  re_sub p [] (t ++ u) = t ++ re_sub p [] u.
Proof.
  induction t as [|c t IH]; intros H; [done|].
  cbn [app]. rewrite re_sub_cons.
  pose proof (H 0 ltac:(simpl; lia)) as H0. simpl in H0. rewrite H0.
  f_equal. apply IH. intros i Hi. apply (H (S i)). simpl. lia.
Qed.

(** *** Words after a title *)

Lemma is_token_spec w :
  is_token w = true <-> w <> [] /\ Forall (fun c => is_space c = false) w.
Proof.
  unfold is_token. rewrite andb_true_iff, negb_true_iff, bool_decide_eq_false.
  rewrite forallb_forall, Forall_forall. split; intros [H1 H2]; (split; [done|]).
  - intros c Hc. apply negb_true_iff, H2. by apply list_elem_of_In.
  - intros c Hc. apply negb_true_iff, H2. by apply list_elem_of_In.
Qed.

Lemma tail_of_cons w ws : tail_of (w :: ws) = " "%char :: w ++ tail_of ws.
Proof. reflexivity. Qed.

Lemma tail_of_dot ws :
  Forall (fun w => is_token w = true) ws -> Forall (fun c => is_dot c = true) (tail_of ws).
Proof.
  induction 1 as [|w ws Hw _ IH]; [constructor|]. rewrite tail_of_cons.
  apply is_token_spec in Hw as [_ Hw]. constructor; [done|].
  apply Forall_app. split; [|done].
  eapply Forall_impl; [exact Hw|]. intros c. apply space_not_dot.
Qed.

Lemma all_patterns_form p : p ∈ ALL_PATTERNS -> exists rest, p = Plus is_space :: rest.
Proof.
  intros (w & _ & [->| ->])%elem_of_all_patterns; by eexists.
Qed.

Lemma re_sub_token p w s :
  p ∈ ALL_PATTERNS -> Forall (fun c => is_space c = false) w ->
  re_sub p [] (w ++ s) = w ++ re_sub p [] s.
Proof.
  intros [rest ->]%all_patterns_form Hw.
  induction Hw as [|c w Hc _ IH]; [done|].
  cbn [app]. rewrite re_sub_cons, plus_space_other by done. by rewrite IH.
Qed.

(** A pattern that matches at the blank before a word takes all that
    follows. *)
Lemma pattern_at_blank p c s n :
  p ∈ ALL_PATTERNS -> is_space c = false ->
  Forall (fun c => is_dot c = true) (c :: s) ->
  re_match p (" "%char :: c :: s) = Some n -> n = S (length (c :: s)).
Proof.
  intros (w & Hw & Hpw)%elem_of_all_patterns Hc Hdot.
  destruct Hpw as [->| ->]; unfold lang_pattern, format_pattern;
    rewrite plus_space_blank by done; unfold lit_i; rewrite lit_i_match;
    destruct (is_prefix_i (Str w) (c :: s)) eqn:E; try done;
    apply is_prefix_i_length in E.
  - cbn [re_match].
    destruct (at_end (drop (length (Str w)) (c :: s))) eqn:Ee; [|done].
    destruct (drop (length (Str w)) (c :: s)) as [|c' z] eqn:Ed.
    + intros [= <-]. apply (f_equal length) in Ed. rewrite length_drop in Ed.
      simpl in *. lia.
    + rewrite at_end_dot in Ee; [done..|]. rewrite <- Ed. by apply Forall_drop.
  - rewrite star_dot_eos by (by apply Forall_drop). rewrite length_drop.
    intros [= <-]. simpl in *. lia.
Qed.

Lemma re_sub_tail p ws :
  p ∈ ALL_PATTERNS -> Forall (fun w => is_token w = true) ws ->
  exists k, re_sub p [] (tail_of ws) = tail_of (take k ws).
Proof.
  intros Hp. induction 1 as [|w ws Hw Hws IH]; [by exists 0|].
  rewrite tail_of_cons, re_sub_cons.
  pose proof (tail_of_dot (w :: ws) ltac:(by constructor)) as Hdot.
  rewrite tail_of_cons in Hdot. apply Forall_cons in Hdot as [_ Hdot].
  apply is_token_spec in Hw as [Hne Hw].
  destruct w as [|c w]; [done|]. pose proof Hw as [Hc _]%Forall_cons.
  destruct (re_match p (" "%char :: (c :: w) ++ tail_of ws)) as [[|n]|] eqn:E.
  - destruct IH as [k Hk]. exists (S k).
    rewrite re_sub_token by done. rewrite Hk. reflexivity.
  - exists 0. change ((c :: w) ++ tail_of ws) with (c :: (w ++ tail_of ws)) in *.
    apply pattern_at_blank in E; [|done..].
    assert (Hn : n = length (c :: (w ++ tail_of ws))) by (injection E as E; exact E).
    by rewrite Hn, drop_all, re_sub_nil.
  - destruct IH as [k Hk]. exists (S k).
    rewrite re_sub_token by done. rewrite Hk. reflexivity.
Qed.

Lemma Forall_take_tokens k (ws : list str) :
  Forall (fun w => is_token w = true) ws ->
  Forall (fun w => is_token w = true) (take k ws).
Proof. apply Forall_take. Qed.

Lemma re_sub_title_tail p t ws :
  p ∈ ALL_PATTERNS ->
  title_stable t = true -> strip t = t -> spaced t = true ->
  Forall (fun w => is_token w = true) ws ->
  re_sub p [] (t ++ tail_of ws) = t ++ re_sub p [] (tail_of ws).
Proof.
  intros Hp Hhits Hs Hsp Hws. destruct ws as [|w ws].
  - simpl. rewrite app_nil_r, re_sub_nil, app_nil_r. apply re_sub_no_hit.
    unfold title_stable in Hhits. rewrite forallb_forall in Hhits.
    apply negb_true_iff, Hhits. by apply list_elem_of_In.
  - apply re_sub_app_inert. intros i Hi. rewrite tail_of_cons.
    apply tail_inert; try done.
    pose proof (tail_of_dot _ Hws) as Hdot. rewrite tail_of_cons in Hdot.
    by apply Forall_cons in Hdot as [_ Hdot].
Qed.

Lemma remove_patterns_cons p ps s :
  remove_patterns (p :: ps) s = remove_patterns ps (re_sub p [] s).
Proof. reflexivity. Qed.

Lemma remove_patterns_title_tail ps t ws :
  ps ⊆ ALL_PATTERNS ->
  title_stable t = true -> strip t = t -> spaced t = true ->
  Forall (fun w => is_token w = true) ws ->
  remove_patterns ps (t ++ tail_of ws) = t ++ remove_patterns ps (tail_of ws) /\
  exists k, remove_patterns ps (tail_of ws) = tail_of (take k ws).
Proof.
  intros Hps Hhits Hs Hsp. revert ws.
  induction ps as [|p ps IH]; intros ws Hws.
  { split; [done|]. exists (length ws). by rewrite firstn_all. }
  rewrite !remove_patterns_cons.
  assert (Hp : p ∈ ALL_PATTERNS) by (apply Hps; left).
  assert (Hps' : ps ⊆ ALL_PATTERNS) by (intros q Hq; apply Hps; by right).
  rewrite (re_sub_title_tail p t ws) by done.
  destruct (re_sub_tail p ws Hp Hws) as [k Hk]. rewrite Hk.
  destruct (IH Hps' (take k ws) (Forall_take_tokens k ws Hws)) as [H1 [k' H2]].
  split; [exact H1|]. exists (k' `min` k). by rewrite H2, take_take.
Qed.

Lemma rstrip_word w : Forall (fun c => is_space c = false) w -> rstrip w = w.
Proof.
  induction 1 as [|c w Hc Hw IH]; [done|].
  cbn [rstrip]. rewrite IH. destruct w; [by rewrite Hc | done].
Qed.

Lemma rstrip_tail_of ws :
  Forall (fun w => is_token w = true) ws -> ws <> [] -> rstrip (tail_of ws) = tail_of ws.
Proof.
  induction 1 as [|w ws Hw Hws IH]; [done|]. intros _. rewrite tail_of_cons.
  apply is_token_spec in Hw as [Hne Hw].
  change (" "%char :: w ++ tail_of ws) with ((" "%char :: w) ++ tail_of ws).
  destruct ws as [|w' ws].
  - change (tail_of []) with (@nil ascii). rewrite app_nil_r.
    apply rstrip_cons; [done | by apply rstrip_word].
  - apply rstrip_app_fixed; [by apply IH | done].
Qed.

Lemma spaced_tail_of ws :
  Forall (fun w => is_token w = true) ws -> spaced (tail_of ws) = true.
Proof.
  induction 1 as [|w ws Hw Hws IH]; [done|]. rewrite tail_of_cons.
  apply is_token_spec in Hw as [Hne Hw].
  destruct w as [|c w]; [done|]. pose proof Hw as [Hc _]%Forall_cons.
  change (" "%char :: (c :: w) ++ tail_of ws) with (" "%char :: c :: (w ++ tail_of ws)).
  apply spaced_blank; [done|].
  change (c :: w ++ tail_of ws) with ((c :: w) ++ tail_of ws).
  by apply spaced_app_word.
Qed.

Lemma spaced_app_tail t u :
  spaced t = true -> rstrip t = t -> spaced (" "%char :: u) = true ->
  spaced (t ++ " "%char :: u) = true.
Proof.
  intros Hsp Hr Hu. induction t as [|c t IH]; [done|].
  apply rstrip_cons_fixed in Hr as [[-> Hc]|[Hne Hr]].
  - simpl app. cbn [spaced]. rewrite Hc. simpl. exact Hu.
  - cbn [app spaced] in *. apply andb_true_iff in Hsp as [Hc Hsp].
    rewrite (IH Hsp Hr), andb_true_r.
    destruct t as [|c' t]; [done|]. exact Hc.
Qed.

(** The title followed by words is again stripped and has single blanks. *)
Lemma title_tail_clean t ws :
  t <> [] -> strip t = t -> spaced t = true ->
  Forall (fun w => is_token w = true) ws ->
  strip (t ++ tail_of ws) = t ++ tail_of ws /\ spaced (t ++ tail_of ws) = true.
Proof.
  intros Hne Hs Hsp Hws. destruct ws as [|w ws].
  { simpl. by rewrite app_nil_r. }
  pose proof (strip_fixed_parts t Hs) as [Hl Hr]. split.
  - unfold strip. rewrite no_lead_lstrip.
    + apply rstrip_app_fixed; [by apply rstrip_tail_of | done].
    + destruct t as [|c t]; [done|]. simpl.
      pose proof (lstrip_no_lead (c :: t)) as H. by rewrite Hl in H.
  - rewrite tail_of_cons. apply spaced_app_tail; [done..|].
    pose proof (spaced_tail_of (w :: ws) Hws) as H. by rewrite tail_of_cons in H.
Qed.

(** *** Trailing words that the two passes remove *)

Lemma upper_full_token c :
  is_space c = false -> upper_full c <> [] /\ Forall (fun c' => is_space c' = false) (upper_full c).
Proof.
  assert (H : Forall (fun c => is_space c = false ->
                 upper_full c <> [] /\ Forall (fun c' => is_space c' = false) (upper_full c))
               all_ascii).
  { apply (bool_decide_unpack _). by vm_compute. }
  rewrite Forall_forall in H. apply H, elem_of_all_ascii.
Qed.

Lemma upper_token w : is_token w = true -> is_token (upper w) = true.
Proof.
  rewrite !is_token_spec. intros [Hne Hw]. unfold upper. split.
  - destruct w as [|c w]; [done|]. apply Forall_cons in Hw as [Hc _].
    destruct (upper_full_token c Hc) as [H _]. simpl.
    destruct (upper_full c); [done|]. done.
  - clear Hne. induction Hw as [|c w Hc _ IH]; [constructor|].
    simpl. apply Forall_app. split; [|done]. by apply upper_full_token.
Qed.

Lemma upper_tail_of ws : upper (tail_of ws) = tail_of (map upper ws).
Proof.
  induction ws as [|w ws IH]; [done|].
  rewrite fmap_cons, !tail_of_cons. unfold upper in *.
  change (" "%char :: w ++ tail_of ws) with ([" "%char] ++ w ++ tail_of ws).
  rewrite !flat_map_app, IH. reflexivity.
Qed.

Lemma title_stable_upper t : in_range t -> title_stable (upper t) = title_stable t.
Proof.
  intros Hr. unfold title_stable.
  assert (H : forall ps, Forall (Forall blind_atom) ps ->
            forallb (fun p => negb (re_hit p (upper t))) ps =
            forallb (fun p => negb (re_hit p t)) ps).
  { induction 1 as [|p ps Hp _ IH]; [done|]. cbn [forallb].
    rewrite IH. f_equal. f_equal. symmetry. apply re_hit_same; [done|].
    by apply same_letter_upper. }
  apply H, all_patterns_blind.
Qed.

(** Words after a title of level 2 that the two passes remove do not
    change the key. *)
Lemma canonical_key_tail t ws :
  in_range t -> t <> [] -> normalize_title_level2 t = t ->
  Forall (fun w => is_token w = true) ws -> removable ws = true ->
  canonical_key (t ++ tail_of ws) = canonical_key t.
Proof.
  intros Hr Hne Ht Hws Hrem.
  pose proof (proj1 (normalize_title_level2_fixed t) Ht) as (Hhits & Hs & Hsp).
  unfold canonical_key. rewrite Ht.
  assert (HLsub : LANGUAGE_PATTERNS ⊆ ALL_PATTERNS).
  { intros p Hp. unfold ALL_PATTERNS. apply elem_of_app. by left. }
  assert (HFsub : FORMAT_PATTERNS ⊆ ALL_PATTERNS).
  { intros p Hp. unfold ALL_PATTERNS. apply elem_of_app. by right. }
  destruct (remove_patterns_title_tail LANGUAGE_PATTERNS t ws HLsub Hhits Hs Hsp Hws)
    as [E1 [k1 K1]].
  pose proof (Forall_take_tokens k1 ws Hws) as Hws1.
  destruct (remove_patterns_title_tail FORMAT_PATTERNS t (take k1 ws) HFsub Hhits Hs Hsp Hws1)
    as [E2 [k2 K2]].
  pose proof (Forall_take_tokens k2 _ Hws1) as Hws2.
  apply bool_decide_eq_true in Hrem. rewrite K1, K2, upper_tail_of in Hrem.
  assert (E : normalize_title_level2 (t ++ tail_of ws) = t ++ tail_of (take k2 (take k1 ws))).
  { unfold normalize_title_level2.
    destruct (decide (t ++ tail_of ws = [])) as [E|_]; [by destruct t|].
    rewrite E1, K1, E2, K2.
    destruct (title_tail_clean t _ Hne Hs Hsp Hws2) as [-> Hsp2].
    by apply collapse_spaces_fixed. }
  rewrite E. unfold generate_unique_name.
  destruct (decide (t ++ tail_of (take k2 (take k1 ws)) = [])) as [E'|_]; [by destruct t|].
  destruct (decide (t = [])) as [|_]; [done|].
  assert (Hu : remove_patterns ALL_PATTERNS (upper (t ++ tail_of (take k2 (take k1 ws)))) =
               remove_patterns ALL_PATTERNS (upper t)).
  { unfold upper at 1. rewrite flat_map_app. fold (upper t).
    fold (upper (tail_of (take k2 (take k1 ws)))). rewrite upper_tail_of.
    assert (Hws3 : Forall (fun w => is_token w = true) (map upper (take k2 (take k1 ws)))).
    { apply Forall_fmap. eapply Forall_impl; [exact Hws2|]. intros w. apply upper_token. }
    assert (Hhu : title_stable (upper t) = true) by (by rewrite title_stable_upper).
    assert (Hsu : strip (upper t) = upper t) by (by rewrite strip_upper, Hs).
    assert (Hspu : spaced (upper t) = true) by (by rewrite spaced_upper).
    destruct (remove_patterns_title_tail ALL_PATTERNS (upper t) _ (reflexivity _) Hhu Hsu Hspu Hws3)
      as [-> _].
    rewrite Hrem, app_nil_r. symmetry. by apply remove_patterns_no_hit. }
  by rewrite Hu.
Qed.

(** *** A leading article *)

Lemma re_hit_word p x s :
  p ∈ ALL_PATTERNS -> Forall (fun c => is_space c = false) x ->
  re_hit p (x ++ s) = re_hit p s.
Proof.
  intros [rest ->]%all_patterns_form. induction 1 as [|c x Hc _ IH]; [done|].
  cbn [app]. rewrite re_hit_cons, plus_space_other by done. exact IH.
Qed.

Lemma collapse_spaces_word x s :
  Forall (fun c => is_space c = false) x ->
  collapse_spaces (x ++ s) = x ++ collapse_spaces s.
Proof.
  induction 1 as [|c x Hc _ IH]; [done|].
  cbn [app]. by rewrite collapse_spaces_cons, Hc, IH.
Qed.

Lemma articles_shape a :
  a ∈ ARTICLES ->
  a <> [] /\ Forall (fun c => is_space c = false) a /\
  Forall (fun c => upper_full c = [c]) a /\
  Forall (fun c => is_punct c = false) a /\
  in_range a.
Proof.
  revert a. apply Forall_forall. unfold in_range.
  by apply (bool_decide_unpack _); vm_compute.
Qed.

Lemma article_match a rest :
  a ∈ ARTICLES -> no_lead rest ->
  re_match article_pattern (a ++ " "%char :: rest) = Some (length a + 1).
Proof.
  intros Ha Hrest.
  assert (Hk : re_match [Plus is_space] (" "%char :: rest) = Some 1).
  { destruct rest as [|c s]; [done|]. rewrite plus_space_blank by done. done. }
  assert (Hk' : forall l, is_space l = false ->
            re_match [Plus is_space] (l :: " "%char :: rest) = None).
  { intros l Hl. by apply plus_space_other. }
  unfold article_pattern.
  change (re_match [Alt ARTICLES; Plus is_space]) with
    (fun s => first_alt (re_match [Plus is_space]) s ARTICLES).
  cbn beta. unfold ARTICLES in *.
  repeat (apply elem_of_cons in Ha as [->|Ha]);
    try (by apply elem_of_nil in Ha);
    cbn [Str list_ascii_of_string app first_alt is_prefix length drop Ascii.eqb Bool.eqb andb];
    rewrite ?Hk' by done; rewrite ?Hk; done.
Qed.

Lemma lstrip_blank s : lstrip (" "%char :: s) = lstrip s.
Proof. reflexivity. Qed.

Lemma strip_collapse_lstrip s :
  strip (collapse_spaces (lstrip s)) = strip (collapse_spaces s).
Proof.
  destruct s as [|c s]; [done|]. rewrite collapse_spaces_cons. cbn [lstrip].
  destruct (is_space c) eqn:Hc; [|by rewrite collapse_spaces_cons, Hc].
  unfold strip. by rewrite lstrip_blank.
Qed.

Lemma punct_sub_app x s :
  re_sub [Chr is_punct] (Str " ") (x ++ s) =
  re_sub [Chr is_punct] (Str " ") x ++ re_sub [Chr is_punct] (Str " ") s.
Proof. change (Str " ") with [" "%char]. by rewrite !re_sub_chr, map_app. Qed.

(** One article and a blank before a title of level 2 is taken off, when
    the title starts with no word of a pattern and its plain form starts
    with no article. *)
Lemma canonical_key_article t a :
  a ∈ ARTICLES -> in_range t -> t <> [] -> normalize_title_level2 t = t ->
  blank_stable t = true -> no_article t = true ->
  canonical_key (a ++ " "%char :: t) = canonical_key t.
Proof.
  intros Ha Hr Hne Ht Hblank Hart.
  pose proof (proj1 (normalize_title_level2_fixed t) Ht) as (Hhits & Hstrip & Hsp).
  destruct (strip_fixed_parts t Hstrip) as [Hl Hrs].
  destruct (articles_shape a Ha) as (Hane & Hasp & Haup & Hapunct & Harange).
  assert (Hlead_t : no_lead t).
  { pose proof (lstrip_no_lead t) as H. by rewrite Hl in H. }
  set (s := a ++ " "%char :: t).
  assert (Hlead : forall z, no_lead (a ++ z)).
  { intros z. destruct Hasp; [done|]. done. }
  assert (Hs_hits : title_stable s = true).
  { unfold title_stable. apply forallb_forall. intros p Hp.
    apply list_elem_of_In in Hp. unfold s. rewrite re_hit_word by done.
    unfold blank_stable in Hblank. rewrite forallb_forall in Hblank.
    apply Hblank. by apply list_elem_of_In. }
  assert (Hs_strip : strip s = s).
  { unfold strip. rewrite no_lead_lstrip.
    - unfold s. change (a ++ " "%char :: t) with (a ++ [" "%char] ++ t).
      rewrite app_assoc. by apply rstrip_app_fixed.
    - apply Hlead. }
  assert (Hs_sp : spaced s = true).
  { unfold s. apply spaced_app_word; [done|].
    destruct t as [|c t']; [done|]. by apply spaced_blank. }
  assert (Hs2 : normalize_title_level2 s = s).
  { apply normalize_title_level2_fixed. by repeat split. }
  assert (Hs_range : in_range s).
  { unfold s, in_range. apply Forall_app. split; [done|]. by constructor. }
  unfold canonical_key. rewrite Hs2, Ht.
  unfold generate_unique_name.
  destruct (decide (s = [])) as [E|_]; [by destruct a|].
  destruct (decide (t = [])) as [|_]; [done|].
  assert (Hus : upper s = a ++ " "%char :: upper t).
  { unfold s, upper. rewrite flat_map_app. f_equal. by apply upper_fixed. }
  rewrite remove_patterns_no_hit by (fold (title_stable (upper s)); by rewrite title_stable_upper).
  rewrite remove_patterns_no_hit by (fold (title_stable (upper t)); by rewrite title_stable_upper).
  rewrite Hus, punct_sub_app, (punct_sub_fixed a Hapunct).
  change (re_sub [Chr is_punct] (Str " ") (" "%char :: upper t)) with
    (re_sub [Chr is_punct] (Str " ") ([" "%char] ++ upper t)).
  rewrite punct_sub_app.
  change (re_sub [Chr is_punct] (Str " ") [" "%char]) with [" "%char].
  rewrite collapse_spaces_word by done.
  cbn [app]. rewrite collapse_spaces_cons. change (is_space " "%char) with true. cbn iota.
  unfold re_sub_start at 1.
  rewrite article_match by (done || apply collapse_spaces_no_lead, lstrip_no_lead).
  change (a ++ " "%char :: ?x) with (a ++ [" "%char] ++ x).
  unfold no_article, plain_form in Hart. unfold re_sub_start.
  destruct (re_match article_pattern (collapse_spaces (re_sub [Chr is_punct] (Str " ") (upper t))));
    [done|].
  rewrite app_assoc.
  replace (length a + 1) with (length (a ++ [" "%char])) by (rewrite length_app; simpl; lia).
  rewrite drop_app_length. apply strip_collapse_lstrip.
Qed.

(** *** The names the key does not tell apart *)


(** C1 (as amended): over names written in the characters U+0000 to U+00FF
    other than the sharp s, the micro sign and the y with diaeresis, two
    names get the same canonical key when one is reached from the other by
    steps of three kinds, in either direction: a change of letter case or
    of which punctuation character stands at a place; writing, after a
    title that level 2 leaves as it is, words that level 2 and
    [generate_unique_name] remove; writing one article and a blank before a
    title that level 2 leaves as it is, that starts with no word of a
    pattern and whose plain form starts with no article. *)
Theorem canonical_key_same_title a b :
  same_title a b -> canonical_key a = canonical_key b.
Proof.
  induction 1 as [x y _ _ Hxy|t ws Hr _ Hne Ht Hws Hrem|t x Hx Hr Hne Ht Hb Hart
                 |x y _ IH|x y z _ IH1 _ IH2].
  - by apply canonical_key_same.
  - by apply canonical_key_tail.
  - by apply canonical_key_article.
  - done.
  - congruence.
Qed.

Ltac by_computation := by apply (bool_decide_unpack _); vm_compute.

Ltac same_letters :=
  apply same_letters;
  [ unfold in_range; by_computation
  | unfold in_range; by_computation
  | repeat constructor; (by left) || (right; by vm_compute) ].

Lemma canonical_key_same_title_witness :
  canonical_key (Str "El Padrino") = canonical_key (Str "Padrino") /\
  canonical_key (Str "DUNE PARTE DOS 4DX SUB") = canonical_key (Str "DUNE PARTE DOS ESP") /\
  canonical_key (Str "SPIDER-MAN") = canonical_key (Str "spider.man").
Proof.
  split; [|split].
  - apply canonical_key_same_title.
    apply (same_trans _ (Str "EL PADRINO")); [same_letters|].
    apply (same_trans _ (Str "PADRINO")); [|same_letters].
    apply (same_article (Str "PADRINO") (Str "EL")); try reflexivity; try done.
    + by_computation.
    + unfold in_range. by_computation.
  - apply canonical_key_same_title.
    apply (same_trans _ (Str "DUNE PARTE DOS")).
    + apply (same_tail (Str "DUNE PARTE DOS") [Str "4DX"; Str "SUB"]);
        try reflexivity; try done.
      * unfold in_range. by_computation.
      * unfold in_range. by_computation.
      * by_computation.
    + apply same_sym.
      apply (same_tail (Str "DUNE PARTE DOS") [Str "ESP"]);
        try reflexivity; try done.
      * unfold in_range. by_computation.
      * unfold in_range. by_computation.
      * by_computation.
  - apply canonical_key_same_title. same_letters.
Defined.

(** C1 (as written) does not hold: "LA LA LAND" and "LA LAND" differ by
    one leading article and get the keys "LA LAND" and "LAND". *)
Lemma canonical_key_counterexample :
  ~ (forall a b, differ_only a b -> canonical_key a = canonical_key b).
Proof.
  intros H.
  assert (Ha : Str "LA" ∈ ARTICLES) by by_computation.
  specialize (H _ _ (differ_article (Str "LA LAND") (Str "LA") Ha)).
  vm_compute in H. discriminate H.
Qed.

(** The other two parts of the sentence fail as well: a hyphen becomes a
    blank, so "SPIDER-MAN" and "SPIDERMAN" get different keys; and each
    language pattern is applied once, so of several trailing markers some
    stay. *)
Lemma canonical_key_punctuation_example :
  differ_only (Str "SPIDER-MAN") (Str "SPIDERMAN") /\
  canonical_key (Str "SPIDER-MAN") <> canonical_key (Str "SPIDERMAN").
Proof. split; [by apply differ_punctuation; vm_compute | by vm_compute]. Qed.

Lemma canonical_key_marker_example :
  differ_only (Str "X SP SP SP SP" ++ " "%char :: Str "SP") (Str "X SP SP SP SP") /\
  canonical_key (Str "X SP SP SP SP SP") <> canonical_key (Str "X SP SP SP SP").
Proof.
  split; [|by vm_compute].
  apply differ_marker. by_computation.
Qed.

(** The model follows the code where a letter is not an English one: a
    letter with an accent is kept, a punctuation character is not. *)
Lemma canonical_key_accent_example :
  canonical_key [ "A"%char; ascii_of_nat 209; "O"%char ] = [ "A"%char; ascii_of_nat 209; "O"%char ] /\
  canonical_key (Str "A!O") = Str "A O" /\
  canonical_key [ "a"%char; ascii_of_nat 241; "o"%char ] = [ "A"%char; ascii_of_nat 209; "O"%char ].
Proof. by vm_compute. Qed.

(** ** Small tables the statements are tried on *)

(** ** C3: [generate_unique_name] is not idempotent *)

(** C3 (as written) does not hold: of "LA LA LAND" one article is taken,
    and one more when the function is applied again. *)
Lemma generate_unique_name_counterexample :
  ~ (forall s, generate_unique_name (generate_unique_name s) = generate_unique_name s).
Proof. intros H. specialize (H (Str "LA LA LAND")). vm_compute in H. discriminate H. Qed.

Lemma generate_unique_name_idempotent_iff_witness :
  in_range (Str "La La Land") /\
  (generate_unique_name (generate_unique_name (Str "La La Land")) =
     generate_unique_name (Str "La La Land") <->
   key_stable (generate_unique_name (Str "La La Land")) = true).
Proof.
  assert (H : in_range (Str "La La Land")) by (unfold in_range; by_computation).
  split; [exact H|]. apply (generate_unique_name_idempotent_iff (Str "La La Land") H).
Defined.

(** ** C4: ties *)

(** C4 (as written) does not hold: with the directors "B" and "A" once
    each, in this order, the empty slot gets "A", not the first one. *)
Lemma propagate_tie_counterexample :
  ~ (forall df k f i r,
       1 < length (group_of df k) ->
       f ∈ coherent_primary_fields ->
       non_empty_values (group_of df k) f <> [] ->
       df !! i = Some r -> key r = Some k -> is_empty (txt r f) = true ->
       exists r', propagate_data_within_groups df !! i = Some r' /\
                  txt r' f = first_modal (non_empty_values (group_of df k) f)).
Proof.
  intros H.
  destruct (H tie_table (Str "K") DIRECTOR 2 (row_of "K" DIRECTOR ""))
    as (r' & Hr' & Ht).
  - vm_compute. lia.
  - by apply (bool_decide_unpack _); vm_compute.
  - by vm_compute.
  - reflexivity.
  - reflexivity.
  - reflexivity.
  - assert (Hd : (fun r => txt r DIRECTOR) <$> propagate_data_within_groups tie_table !! 2
                 = Some (Some (Str "A"))) by (by vm_compute).
    rewrite Hr' in Hd. simpl in Hd. injection Hd as Hd. rewrite Hd in Ht.
    vm_compute in Ht. discriminate Ht.
Qed.

Lemma propagate_fills_witness :
  exists v, modal_least (non_empty_values (group_of tie_table (Str "K")) DIRECTOR) v /\
    forall i r, tie_table !! i = Some r -> key r = Some (Str "K") ->
      is_empty (txt r DIRECTOR) = true ->
      exists r', propagate_data_within_groups tie_table !! i = Some r' /\
                 txt r' DIRECTOR = Some v.
Proof.
  apply propagate_fills.
  - vm_compute. lia.
  - by apply (bool_decide_unpack _); vm_compute.
  - by vm_compute.
Defined.

(** ** C5: the passes that write every row of a group *)

(** C5 (as written) does not hold for the two functions it names: the
    director "B" of the third row is replaced, by "A" in
    [vertical_replication] and [ensure_vertical_coherence], and by the
    empty string where that is the most frequent value. *)
Lemma coherence_overwrites_counterexample :
  ~ (forall df i r f,
       f ∈ coherent_primary_fields -> df !! i = Some r ->
       is_empty (txt r f) = false ->
       exists r', vertical_replication df !! i = Some r' /\ txt r' f = txt r f) /\
  ~ (forall df i r f,
       f ∈ coherent_primary_fields -> df !! i = Some r ->
       is_empty (txt r f) = false ->
       exists r', ensure_vertical_coherence df !! i = Some r' /\ txt r' f = txt r f) /\
  (fun r => txt r DIRECTOR) <$> ensure_vertical_coherence mostly_empty_table !! 2
    = Some (Some []).
Proof.
  assert (Hf : DIRECTOR ∈ coherent_primary_fields)
    by (by apply (bool_decide_unpack _); vm_compute).
  split; [|split].
  - intros H.
    destruct (H majority_table 2 (row_of "K" DIRECTOR "B") DIRECTOR Hf eq_refl eq_refl)
      as (r' & Hr' & Ht).
    assert (Hd : (fun r => txt r DIRECTOR) <$> vertical_replication majority_table !! 2
                 = Some (Some (Str "A"))) by (by vm_compute).
    rewrite Hr' in Hd. simpl in Hd. injection Hd as Hd. rewrite Hd in Ht.
    vm_compute in Ht. discriminate Ht.
  - intros H.
    destruct (H majority_table 2 (row_of "K" DIRECTOR "B") DIRECTOR Hf eq_refl eq_refl)
      as (r' & Hr' & Ht).
    assert (Hd : (fun r => txt r DIRECTOR) <$> ensure_vertical_coherence majority_table !! 2
                 = Some (Some (Str "A"))) by (by vm_compute).
    rewrite Hr' in Hd. simpl in Hd. injection Hd as Hd. rewrite Hd in Ht.
    vm_compute in Ht. discriminate Ht.
  - by vm_compute.
Qed.

(** C5 (as amended): [propagate_data_within_groups] keeps every value that
    is not empty; [vertical_replication] and [ensure_vertical_coherence]
    write the value they elect for a field of a group into every row of the
    group, so that a value stays only where it is the elected one. *)
Theorem coherence_passes (df : list row) :
  (forall i r c, df !! i = Some r -> is_empty (txt r c) = false ->
     exists r', propagate_data_within_groups df !! i = Some r' /\
                txt r' c = txt r c) /\
  (forall k f, k <> [] -> f ∈ replication_fields ->
     non_empty_values (group_of df k) f <> [] ->
     exists v, modal (non_empty_values (group_of df k) f) v /\
       forall i r, df !! i = Some r -> key r = Some k ->
         exists r', vertical_replication df !! i = Some r' /\ txt r' f = Some v) /\
  (forall k f, f ∈ coherent_primary_fields ->
     dropna (map (fun r => txt r f) (group_of df k)) <> [] ->
     exists v, modal_least (dropna (map (fun r => txt r f) (group_of df k))) v /\
       forall i r, df !! i = Some r -> key r = Some k ->
         exists r', ensure_vertical_coherence df !! i = Some r' /\ txt r' f = Some v).
Proof.
  split; [|split].
  - intros i r c Hi Hc.
    destruct (Forall2_lookup_l _ _ _ _ _ (propagate_keeps_filled df) Hi)
      as (r' & Hr' & _ & Hkeep).
    exists r'. split; [done|]. by apply Hkeep.
  - apply vertical_replication_elects.
  - apply vertical_coherence_elects.
Qed.

Lemma coherence_passes_witness :
  (exists r', propagate_data_within_groups majority_table !! 2 = Some r' /\
              txt r' DIRECTOR = Some (Str "B")) /\
  (exists v, modal (non_empty_values (group_of majority_table (Str "K")) DIRECTOR) v /\
     forall i r, majority_table !! i = Some r -> key r = Some (Str "K") ->
       exists r', vertical_replication majority_table !! i = Some r' /\
                  txt r' DIRECTOR = Some v) /\
  (exists v, modal_least
               (dropna (map (fun r => txt r DIRECTOR)
                            (group_of majority_table (Str "K")))) v /\
     forall i r, majority_table !! i = Some r -> key r = Some (Str "K") ->
       exists r', ensure_vertical_coherence majority_table !! i = Some r' /\
                  txt r' DIRECTOR = Some v).
Proof.
  destruct (coherence_passes majority_table) as (H1 & H2 & H3).
  split; [|split].
  - apply (H1 2 (row_of "K" DIRECTOR "B") DIRECTOR); reflexivity.
  - apply H2; [done | by apply (bool_decide_unpack _); vm_compute | by vm_compute].
  - apply H3; [by apply (bool_decide_unpack _); vm_compute | by vm_compute].
Defined.

(** ** C7: the mirror fields *)

(** C7 (as written) does not hold: a row whose mirror fields hold other
    values keeps them; [ensure_vertical_coherence] copies the category and
    leaves DESCRIPCION2 alone, [horizontal_replication] fills empty fields
    only. *)
Lemma horizontal_mirrors_counterexample :
  ~ (forall df r, r ∈ ensure_vertical_coherence df ->
       txt r CATEGORIA = txt r CATEGORIA_CINEPOLIS /\
       txt r DESCRIPCION = txt r DESCRIPCION2) /\
  ~ (forall df df' r, horizontal_replication df = Some df' -> r ∈ df' ->
       txt r CATEGORIA = txt r CATEGORIA_CINEPOLIS /\
       txt r DESCRIPCION = txt r DESCRIPCION2).
Proof.
  split.
  - intros H.
    destruct (ensure_vertical_coherence [unmirrored_row]) as [|r l] eqn:E;
      [by vm_compute in E|].
    assert (Hd : (fun r => (txt r DESCRIPCION, txt r DESCRIPCION2)) <$>
                 ensure_vertical_coherence [unmirrored_row] !! 0
                 = Some (Some (Str "A"), Some (Str "B"))) by (by vm_compute).
    rewrite E in Hd. simpl in Hd. injection Hd as Hd1 Hd2.
    destruct (H [unmirrored_row] r) as [_ H2]; [rewrite E; left|].
    rewrite Hd1, Hd2 in H2. vm_compute in H2. discriminate H2.
  - intros H.
    destruct (horizontal_replication [unmirrored_row]) as [[|r l]|] eqn:E;
      [by vm_compute in E| |by vm_compute in E].
    assert (Hd : (fun d => (fun r => (txt r CATEGORIA, txt r CATEGORIA_CINEPOLIS)) <$> d !! 0)
                   <$> horizontal_replication [unmirrored_row]
                 = Some (Some (Some (Str "X"), Some (Str "Y")))) by (by vm_compute).
    rewrite E in Hd. simpl in Hd. injection Hd as Hd1 Hd2.
    destruct (H [unmirrored_row] (r :: l) r E) as [H1 _]; [left|].
    rewrite Hd1, Hd2 in H1. vm_compute in H1. discriminate H1.
Qed.

Lemma horizontal_mirrors_witness :
  exists r', default [] (horizontal_replication [unmirrored_row]) !! 0 = Some r' /\
    txt r' CATEGORIA = txt unmirrored_row CATEGORIA /\
    txt r' DESCRIPCION = txt unmirrored_row DESCRIPCION /\
    txt r' CATEGORIA_CINEPOLIS =
      (if is_empty (txt unmirrored_row CATEGORIA_CINEPOLIS)
       then txt unmirrored_row CATEGORIA else txt unmirrored_row CATEGORIA_CINEPOLIS) /\
    txt r' DESCRIPCION2 =
      (if is_empty (txt unmirrored_row DESCRIPCION2)
       then txt unmirrored_row DESCRIPCION else txt unmirrored_row DESCRIPCION2).
Proof.
  apply (proj2 (horizontal_mirrors [unmirrored_row])
               (default [] (horizontal_replication [unmirrored_row]))).
  - reflexivity.
  - reflexivity.
Defined.

(** ** C9: the identifier of a record without a name *)

(** C9 (as written) does not hold: the record named "-" has the empty
    canonical key, and the record named "X SP SP SP " has the key "X",
    which the first pass puts into the catalog as "X SP"; both leave
    [process_all_records] with MOVIE_ID 0. *)
Lemma empty_key_counterexample :
  map (fun r => (key r, MOVIE_ID r))
      (process_all_records [] [[stale_record; hyphen_record]])
  = [(Some (Str "X"), Some 0%Z); (Some [], Some 0%Z)] /\
  map fst (map_to_list (build_catalog [] [[stale_record; hyphen_record]]).1) = [Str "X SP"].
Proof. by vm_compute. Qed.

Lemma ids_of_unnamed_records_witness :
  (exists r',
     reassign_movie_ids unnamed_table !! 3 = Some r' /\ txt r' = txt nan_row /\
     MOVIE_ID r' = Some 4%Z) /\
  (exists r',
     reassign_movie_ids unnamed_table !! 2 = Some r' /\
     MOVIE_ID r' = Some (Z.of_nat (arrival_of (Str "A") unnamed_table)) /\
     arrival_of (Str "A") unnamed_table <= size (names_of unnamed_table)) /\
  (forall r, r ∈ process_all_records [] [[stale_record; hyphen_record]] ->
     exists k, key r = Some k /\
       MOVIE_ID r =
         match (build_catalog [] [[stale_record; hyphen_record]]).1 !! upper k with
         | Some e => e_MOVIE_ID e
         | None => Some 0%Z
         end) /\
  (forall k e, (build_catalog [] [[stale_record; hyphen_record]]).1 !! k = Some e ->
     exists id, e_MOVIE_ID e = Some id /\ (1 <= id)%Z).
Proof.
  destruct ids_of_unnamed_records as (H1 & H2 & _ & H4).
  split; [|split; [|split]].
  - destruct (H1 unnamed_table 3 nan_row eq_refl) as (r' & E & Ht & Hid & _).
    exists r'. split; [exact E|]. split; [exact Ht|]. rewrite Hid. by vm_compute.
  - destruct (H1 unnamed_table 2 (row_of "A" DIRECTOR "") eq_refl) as (r' & E & _ & Hid & Hle).
    exists r'. split; [exact E|]. split; [exact Hid|]. by apply Hle.
  - apply H2.
  - intros k e. apply H4. constructor.
Defined.

(** ** C2, C6 and C10 on concrete inputs *)

(** C2 (as written) does not hold on every table: where a row has no name
    (NaN) next to rows that have one, [sorted] cannot compare the two and
    neither function returns. *)
Lemma remap_movie_ids_counterexample :
  ~ (forall df, exists df',
       remap_movie_ids_perfect df = Some df' /\
       remap_movie_ids_optimized df = Some df' /\
       forall i r, df !! i = Some r ->
         exists k, key r = Some k /\
           df' !! i = Some (set_id (Some (Z.of_nat (rank_of k df))) r)) /\
  remap_movie_ids_perfect unnamed_table = None /\
  remap_movie_ids_optimized unnamed_table = None.
Proof.
  split; [|by vm_compute].
  intros H. destruct (H unnamed_table) as (df' & E & _). vm_compute in E. discriminate E.
Qed.

Lemma remap_movie_ids_rank_witness :
  exists df',
    remap_movie_ids_perfect names_table = Some df' /\
    remap_movie_ids_optimized names_table = Some df' /\
    (forall i r, names_table !! i = Some r ->
       exists k, key r = Some k /\
         df' !! i = Some (set_id (Some (Z.of_nat (rank_of k names_table))) r)) /\
    (forall r1 r2, r1 ∈ df' -> r2 ∈ df' ->
       MOVIE_ID r1 = MOVIE_ID r2 <-> key r1 = key r2).
Proof. apply remap_movie_ids_rank. repeat constructor; by eexists. Defined.

Example remap_movie_ids_names_table :
  (map MOVIE_ID <$> remap_movie_ids_perfect names_table)
  = Some [Some 3%Z; Some 1%Z; Some 3%Z; Some 2%Z].
Proof. by vm_compute. Qed.

Lemma comprehensive_search_witness :
  exists merged,
    comprehensive_search id source_a source_b source_none ∅ (Str "DUNE")
      = (Some merged, <[Str "DUNE" := merged]> ∅) /\
    forall k,
      get merged k =
      first_non_empty [get (source_a (clean_movie_name (Str "DUNE"))) k;
                       get (source_b (clean_movie_name (Str "DUNE"))) k;
                       get (source_none (clean_movie_name (Str "DUNE"))) k].
Proof.
  apply (comprehensive_search_first_non_empty id source_a source_b source_none ∅ (Str "DUNE")).
  - reflexivity.
  - by vm_compute.
Defined.

(** The example of the specification: category from the first source,
    director from the second. *)
Example comprehensive_search_example :
  (comprehensive_search id source_a source_b source_none ∅ (Str "DUNE")).1
  = Some {| categoria := Str "ACCION"; descripcion := []; actor_principal := [];
            director := Str "X"; duracion := [] |}.
Proof. by vm_compute. Qed.

Lemma validate_dataset_fixed_shape_witness :
  validate_dataset (fun _ => true) small_table <> Some true /\
  validate_dataset (fun _ => true) small_table = Some false.
Proof.
  destruct (validate_dataset_fixed_shape (fun _ => true) small_table) as [H1 H2].
  - left. simpl. lia.
  - split; [exact H1|]. apply H2. reflexivity.
Defined.

(** * Further properties of the code *)

(** ** [strip] after [collapse_spaces] *)


(** ** [normalize_title_level1], [clean_text] and [clean_field] *)













(** ** Durations *)









(** ** [capitalize_description] *)










(** ** Format and language of a record *)







(** ** Re-indexing and the names of the table *)






(** ** One marker after a title *)



